(** * Two-step MIR cut generator (CglTwomir.cpp): a shallow embedding

    The C/C++ routines of [CglTwomir.cpp] that build, transform, clean and
    filter cuts are embedded as Rocq functions and their documented
    properties are proved.

    Conventions of the embedding
    - a C [double] is an exact rational ([Q]): no rounding, no NaN and no
      infinity.  [Qinv 0 = 0], so a division by zero yields [0] where IEEE
      arithmetic yields an infinity or a NaN; every place where the source
      can divide by zero is followed by a test that discards the quotient.
      What is proved over [Q] is what the routines compute when their
      arithmetic is read over the reals.  The change of variables is
      embedded a second time on binary64 numbers, in the module [B64],
      where rounding and overflow are those of the machine.
    - a C [int] is a [Z] (the counters of these routines stay far from the
      limits of the machine type).
    - a C array is a [list]; a read or a write outside of it is undefined
      behaviour and is the outcome [Undef].
    - a routine that updates its argument in place returns the new value
      next to its [int] result.
    - the cut list is embedded twice: with the constraints themselves as
      its entries, where only their values matter, and in the module
      [Storage] with pointers into a store of constraints, where the
      release of storage by [DGG_freeConstraint] matters.
    - the macros [DGG_TEST(A, B, msg)] and [DGG_IF_EXIT(A, B, msg)] come
      from the header of the library: when [A] holds, the first ends the
      call with the result [B], the second ends the process with the
      status [B], the outcome [Exit B]. *)

From Stdlib Require Import ZArith QArith Qround Qabs Qminmax Lia Lqa Ascii String.
From Stdlib Require Import Floats.
From stdpp Require Import base list.

Open Scope Z_scope.
Open Scope Q_scope.

(** ** Outcomes of a routine *)

Inductive outcome (A : Type) : Type :=
| Ret (a : A)       (* the routine runs to its end *)
| Exit (code : Z)   (* the process is stopped by exit(code) *)
| Undef.            (* access outside of an array *)

Arguments Ret {A} a.
Arguments Exit {A} code.
Arguments Undef {A}.

Definition bind {A B : Type} (m : outcome A) (k : A -> outcome B) : outcome B :=
  match m with
  | Ret a => k a
  | Exit code => Exit code
  | Undef => Undef
  end.

Notation "'do' v <- m ;; k" := (bind m (fun v => k))
  (at level 10, v name, m at level 99, k at level 200).

(** [a[i]] as an r-value. *)
Definition rd {A : Type} (a : list A) (i : Z) : outcome A :=
  if (i <? 0)%Z then Undef
  else match a !! Z.to_nat i with
       | Some v => Ret v
       | None => Undef
       end.

(** [a[i] = v]. *)
Definition wr {A : Type} (a : list A) (i : Z) (v : A) : outcome (list A) :=
  if (i <? 0)%Z then Undef
  else if (Z.to_nat i <? length a)%nat then Ret (<[Z.to_nat i := v]> a)
  else Undef.

(** [for (i = lo; i < hi; i++) body], the loop state threaded through. *)
Fixpoint for_loop {S : Type} (body : Z -> S -> outcome S)
    (n : nat) (i : Z) (s : S) : outcome S :=
  match n with
  | O => Ret s
  | Datatypes.S n' => do s' <- body i s ;; for_loop body n' (i + 1)%Z s'
  end.

Definition for_upto {S : Type} (lo hi : Z) (body : Z -> S -> outcome S)
    (s : S) : outcome S :=
  for_loop body (Z.to_nat (hi - lo)) lo s.

(** ** Comparisons and rounding of doubles *)

Definition Qltb (a b : Q) : bool := negb (Qle_bool b a).

Notation "a <? b" := (Qltb a b) (at level 70, no associativity) : Q_scope.
Notation "a >? b" := (Qltb b a) (at level 70, no associativity) : Q_scope.
Notation "a <=? b" := (Qle_bool a b) (at level 70, no associativity) : Q_scope.
Notation "a >=? b" := (Qle_bool b a) (at level 70, no associativity) : Q_scope.

Definition floor (v : Q) : Q := inject_Z (Qfloor v).
Definition ceil (v : Q) : Q := inject_Z (Qceiling v).
Definition fabs (v : Q) : Q := Qabs v.

(** ** Data model *)

(** [DGG_constraint_t]: [coeff] and [index] are the two arrays allocated
    with [max_nz] cells, of which the first [nz] are in use. *)
Record DGG_constraint_t : Type := mkConstraint {
  nz : Z;
  max_nz : Z;
  coeff : list Q;
  index : list Z;
  rhs : Q;
  sense : ascii
}.

(** [DGG_data_t], the fields read by the routines below; each array has
    one cell per unified index [0 .. ncol+nrow-1]. *)
Record DGG_data_t : Type := mkData {
  ncol : Z;
  nrow : Z;
  info : list Z;
  lb : list Q;
  ub : list Q;
  x : list Q;
  rc : list Q
}.

Definition set_rhs (c : DGG_constraint_t) (r : Q) : DGG_constraint_t :=
  mkConstraint (nz c) (max_nz c) (coeff c) (index c) r (sense c).

Definition set_coeff (c : DGG_constraint_t) (l : list Q) : DGG_constraint_t :=
  mkConstraint (nz c) (max_nz c) l (index c) (rhs c) (sense c).

Definition set_sense (c : DGG_constraint_t) (s : ascii) : DGG_constraint_t :=
  mkConstraint (nz c) (max_nz c) (coeff c) (index c) (rhs c) s.

Definition is_sense (c : DGG_constraint_t) (s : ascii) : bool :=
  Ascii.eqb (sense c) s.

(** What the routines read of the solver: the row-ordered copy of
    the matrix returned by [getMatrixByRow] (the start and the length of
    every row, the elements and their column indices) and the two bounds
    of every row. *)
Record solver_rows : Type := mkRows {
  rowBeg : list Z;
  rowCnt : list Z;
  rowMat : list Q;
  rowInd : list Z;
  rowUpper : list Q;
  rowLower : list Q
}.

(** ** The cut list *)

(** [DGG_list_t]: three parallel arrays and the number [n] of entries.
    An entry of [c] stands for the constraint the C pointer designates. *)
Record DGG_list_t : Type := mkList {
  list_n : Z;
  list_c : list DGG_constraint_t;
  list_ctype : list Z;
  list_alpha : list Q
}.

(** [DGG_list_init]. *)
Definition DGG_list_init : DGG_list_t := mkList 0 [] [] [].

(** [realloc(a, n * sizeof(T))]: the first cells are kept, new cells are
    filled with [v]. *)
Definition realloc {A : Type} (v : A) (a : list A) (n : Z) : list A :=
  resize (Z.to_nat n) v a.

(** [DGG_list_addcut]; the branch taken when [realloc] finds no memory is
    left out. *)
Definition DGG_list_addcut (l : DGG_list_t) (cut : DGG_constraint_t)
    (ctype : Z) (alpha : Q) : outcome (Z * DGG_list_t) :=
  let n := (list_n l + 1)%Z in
  let c := realloc cut (list_c l) n in
  let ct := realloc 0%Z (list_ctype l) n in
  let al := realloc 0 (list_alpha l) n in
  do c <- wr c (n - 1) cut ;;
  do ct <- wr ct (n - 1) ctype ;;
  do al <- wr al (n - 1) alpha ;;
  Ret (0%Z, mkList n c ct al).

(** [DGG_freeConstraint]: the storage of the constraint is released.  A
    list of constraint values has no storage to release: here the call
    has no effect, and [Storage.DGG_freeConstraint] is the release. *)
Definition DGG_freeConstraint (c : DGG_constraint_t) : outcome unit := Ret tt.

(** The guard that opens [DGG_list_delcut]. *)
Definition delcut_guard (l : DGG_list_t) (i : Z) : bool :=
  (i >=? list_n l)%Z && (i <? 0)%Z.

(** The statements of [DGG_list_delcut] after its guard. *)
Definition delcut_body (l : DGG_list_t) (i : Z) : outcome DGG_list_t :=
  do entry <- rd (list_c l) i ;;
  do _ <- DGG_freeConstraint entry ;;
  do last <- rd (list_c l) (list_n l - 1) ;;
  do c <- wr (list_c l) i last ;;
  do last <- rd (list_ctype l) (list_n l - 1) ;;
  do ct <- wr (list_ctype l) i last ;;
  do last <- rd (list_alpha l) (list_n l - 1) ;;
  do al <- wr (list_alpha l) i last ;;
  Ret (mkList (list_n l - 1) c ct al).

(** [DGG_list_delcut]. *)
Definition DGG_list_delcut (l : DGG_list_t) (i : Z) : outcome DGG_list_t :=
  if delcut_guard l i then Ret l
  else delcut_body l i.

(** *** The cut list with the storage of its cuts

    [DGG_list_delcut] releases the constraint its slot points to.  To
    tell the release of live storage from a second release, the list is
    embedded here with its entries as the source has them, pointers: an
    address is a position in a store of constraints; a cell of the store
    holds the constraint allocated there, and nothing once it has been
    released; [None] is the NULL pointer. *)
Module Storage.

Record DGG_list_t : Type := mkList {
  list_n : Z;
  list_c : list (option nat);
  list_ctype : list Z;
  list_alpha : list Q
}.

(** [DGG_list_init]. *)
Definition DGG_list_init : DGG_list_t := mkList 0 [] [] [].

(** [DGG_newConstraint] and [DGG_copyConstraint] as far as the store is
    concerned: the constraint takes a fresh cell. *)
Definition alloc (h : list (option DGG_constraint_t)) (c : DGG_constraint_t)
    : option nat * list (option DGG_constraint_t) :=
  (Some (length h), h ++ [Some c]).

(** [DGG_freeConstraint]: nothing for NULL; otherwise the routine reads
    the two array pointers of the constraint and releases them and the
    constraint, which is undefined when the storage is not live. *)
Definition DGG_freeConstraint (h : list (option DGG_constraint_t))
    (c : option nat) : outcome (list (option DGG_constraint_t)) :=
  match c with
  | None => Ret h
  | Some a =>
      match h !! a with
      | Some (Some _) => Ret (<[a := None]> h)
      | _ => Undef
      end
  end.

(** [DGG_list_addcut]; the branch taken when [realloc] finds no memory is
    left out. *)
Definition DGG_list_addcut (l : DGG_list_t) (cut : option nat)
    (ctype : Z) (alpha : Q) : outcome (Z * DGG_list_t) :=
  let n := (list_n l + 1)%Z in
  let c := realloc cut (list_c l) n in
  let ct := realloc 0%Z (list_ctype l) n in
  let al := realloc 0 (list_alpha l) n in
  do c <- wr c (n - 1) cut ;;
  do ct <- wr ct (n - 1) ctype ;;
  do al <- wr al (n - 1) alpha ;;
  Ret (0%Z, mkList n c ct al).

(** The guard that opens [DGG_list_delcut]. *)
Definition delcut_guard (l : DGG_list_t) (i : Z) : bool :=
  (i >=? list_n l)%Z && (i <? 0)%Z.

(** [DGG_list_delcut]. *)
Definition DGG_list_delcut (h : list (option DGG_constraint_t))
    (l : DGG_list_t) (i : Z)
    : outcome (list (option DGG_constraint_t) * DGG_list_t) :=
  if delcut_guard l i then Ret (h, l)
  else
    do entry <- rd (list_c l) i ;;
    do h <- DGG_freeConstraint h entry ;;
    do last <- rd (list_c l) (list_n l - 1) ;;
    do c <- wr (list_c l) i last ;;
    do last <- rd (list_ctype l) (list_n l - 1) ;;
    do ct <- wr (list_ctype l) i last ;;
    do last <- rd (list_alpha l) (list_n l - 1) ;;
    do al <- wr (list_alpha l) i last ;;
    Ret (h, mkList (list_n l - 1) c ct al).

(** The storage a pointer designates is live, or has been released. *)
Definition live (h : list (option DGG_constraint_t)) (p : option nat)
    : Prop :=
  exists a c, p = Some a /\ h !! a = Some (Some c).

Definition released (h : list (option DGG_constraint_t)) (p : option nat)
    : Prop :=
  exists a, p = Some a /\ h !! a = Some None.

(** The state of a list that the program can reach: the three arrays have
    the same number of cells, at least [n]; the entries in use point to
    live storage, each to its own; a stale slot, one at or after [n],
    holds a pointer left behind by a deletion, so the storage it points
    to has been released or belongs to an entry in use. *)
Definition store_ok (h : list (option DGG_constraint_t)) (l : DGG_list_t)
    : Prop :=
  (0 <= list_n l <= Z.of_nat (length (list_c l)))%Z /\
  length (list_ctype l) = length (list_c l) /\
  length (list_alpha l) = length (list_c l) /\
  (forall (j : nat) (p : option nat),
     (Z.of_nat j < list_n l)%Z -> list_c l !! j = Some p -> live h p) /\
  (forall (j k : nat) (p : option nat),
     (Z.of_nat j < list_n l)%Z -> (Z.of_nat k < list_n l)%Z ->
     list_c l !! j = Some p -> list_c l !! k = Some p -> j = k) /\
  (forall (j : nat) (p : option nat),
     (list_n l <= Z.of_nat j)%Z -> list_c l !! j = Some p ->
     released h p \/
     exists k : nat, (Z.of_nat k < list_n l)%Z /\ list_c l !! k = Some p).

End Storage.

(** The list of pointers [lp] in the store [h] stands for the list of
    constraints [lv]: same count, tags and parameters, and every entry in
    use points to the constraint of the same slot. *)
Definition represents (h : list (option DGG_constraint_t))
    (lp : Storage.DGG_list_t) (lv : DGG_list_t) : Prop :=
  Storage.list_n lp = list_n lv /\
  Storage.list_ctype lp = list_ctype lv /\
  Storage.list_alpha lp = list_alpha lv /\
  length (Storage.list_c lp) = length (list_c lv) /\
  forall (j : nat) (c : DGG_constraint_t),
    (Z.of_nat j < list_n lv)%Z -> list_c lv !! j = Some c ->
    exists a, Storage.list_c lp !! j = Some (Some a) /\ h !! a = Some (Some c).

(** ** The generator object *)

Section Generator.

(** The base class [CglCutGenerator] belongs to the host library: its
    state, its copy constructor and its assignment are parameters. *)
Variable CglCutGenerator : Type.
Variable CglCutGenerator_copy : CglCutGenerator -> CglCutGenerator.
Variable CglCutGenerator_assign :
  CglCutGenerator -> CglCutGenerator -> CglCutGenerator.
Variable CglCutGenerator_default : CglCutGenerator.

(** The data members named by the initialiser list of the default
    constructor.  A member holds [None] while no initialiser and no
    assignment has given it a value. *)
Record CglTwomir : Type := mkTwomir {
  base_ : CglCutGenerator;
  do_mir_ : option bool;
  do_2mir_ : option bool;
  do_tab_ : option bool;
  do_form_ : option bool;
  t_min_ : option Z;
  t_max_ : option Z;
  q_min_ : option Z;
  q_max_ : option Z;
  a_max_ : option Z;
  form_nrows_ : option Z
}.

(** [CglTwomir::CglTwomir()]. *)
Definition CglTwomir_default : CglTwomir :=
  mkTwomir CglCutGenerator_default
    (Some true) (Some true) (Some true) (Some true)
    (Some 1%Z) (Some 1%Z) (Some 1%Z) (Some 1%Z) (Some 2%Z) (Some 0%Z).

(** [CglTwomir::CglTwomir(const CglTwomir &)]. *)
Definition CglTwomir_copy (source : CglTwomir) : CglTwomir :=
  mkTwomir (CglCutGenerator_copy (base_ source))
    None None None None
    (t_min_ source) (t_max_ source) (q_min_ source) (q_max_ source)
    None None.

(** [CglTwomir::clone]: [new CglTwomir( *this )].  Objects live in a
    store, a list of objects, and are designated by their position in
    it; the new object takes the first free position. *)
Definition CglTwomir_clone (st : list CglTwomir) (this : Z)
    : outcome (Z * list CglTwomir) :=
  do self <- rd st this ;;
  Ret (Z.of_nat (length st), st ++ [CglTwomir_copy self]).

(** [CglTwomir::operator=]; the result is [*this]. *)
Definition CglTwomir_assign (st : list CglTwomir) (this rhs : Z)
    : outcome (Z * list CglTwomir) :=
  if negb (this =? rhs)%Z then
    do self <- rd st this ;;
    do r <- rd st rhs ;;
    let self := mkTwomir (CglCutGenerator_assign (base_ self) (base_ r))
                  (do_mir_ self) (do_2mir_ self) (do_tab_ self) (do_form_ self)
                  (t_min_ self) (t_max_ self) (q_min_ self) (q_max_ self)
                  (a_max_ self) (form_nrows_ self) in
    do r <- rd st rhs ;;
    let self := mkTwomir (base_ self)
                  (do_mir_ self) (do_2mir_ self) (do_tab_ self) (do_form_ self)
                  (t_min_ r) (t_max_ r) (q_min_ r) (q_max_ r)
                  (a_max_ self) (form_nrows_ self) in
    do st <- wr st this self ;;
    Ret (this, st)
  else Ret (this, st).

End Generator.

(** A well-formed list: the three arrays have the same number of cells,
    at least [n] of them. *)
Definition list_ok (l : DGG_list_t) : Prop :=
  (0 <= list_n l <= Z.of_nat (length (list_c l)))%Z /\
  length (list_ctype l) = length (list_c l) /\
  length (list_alpha l) = length (list_c l).

(** A list as [DGG_list_addcut] leaves it: the arrays hold exactly [n]
    cells. *)
Definition list_exact (l : DGG_list_t) : Prop :=
  list_n l = Z.of_nat (length (list_c l)).

(** ** The change of variables in binary64

    The two routines of the change of variables once more, this time on
    IEEE binary64 numbers (the primitive floats of Rocq, rounding to
    nearest, with infinities and NaN) instead of rationals: the bounds of
    a Snapshot are copied from the solver as they are, a free column has
    the bounds [-DBL_MAX] and [DBL_MAX], and there the doubles of the
    source overflow.  No fused multiply-add is assumed. *)
Module B64.

Local Open Scope float_scope.

Record DGG_constraint_t : Type := mkConstraint {
  nz : Z;
  max_nz : Z;
  coeff : list float;
  index : list Z;
  rhs : float;
  sense : ascii
}.

Record DGG_data_t : Type := mkData {
  ncol : Z;
  nrow : Z;
  info : list Z;
  lb : list float;
  ub : list float;
  x : list float;
  rc : list float
}.

Record transform_out : Type := mkOut {
  x_out : list float;
  rc_out : list float;
  isint_out : list bool
}.

Definition set_rhs (c : DGG_constraint_t) (r : float) : DGG_constraint_t :=
  mkConstraint (nz c) (max_nz c) (coeff c) (index c) r (sense c).

Definition coeff_set (c : DGG_constraint_t) (i : Z) (v : float)
    : outcome DGG_constraint_t :=
  do l <- wr (coeff c) i v ;;
  Ret (mkConstraint (nz c) (max_nz c) l (index c) (rhs c) (sense c)).

Definition is_sense (c : DGG_constraint_t) (s : ascii) : bool :=
  Ascii.eqb (sense c) s.

Definition malloc {A : Type} (v : A) (n : Z) : list A :=
  replicate (Z.to_nat n) v.

Section Routines.

Variable DGG_BOUND_THRESH : float.
Variable DGG_NULL_SLACK : float.
Variable integer_flag : Z -> bool.

Definition DGG_isInteger (data : DGG_data_t) (idx : Z) : outcome bool :=
  do w <- rd (info data) idx ;;
  Ret (integer_flag w).

Definition DGG_cutLHS (c : DGG_constraint_t) (xs : list float)
    : outcome float :=
  for_upto 0 (nz c)
    (fun i lhs =>
       do a <- rd (coeff c) i ;;
       do idx <- rd (index c) i ;;
       do xv <- rd xs idx ;;
       Ret (lhs + a * xv))
    0.

Definition DGG_isConstraintViolated (d : DGG_data_t) (c : DGG_constraint_t)
    : outcome Z :=
  do lhs <- DGG_cutLHS c (x d) ;;
  let rhs := rhs c in
  if is_sense c "G" && (rhs - DGG_NULL_SLACK <? lhs) then Ret 0%Z
  else if is_sense c "L" && (lhs <? rhs + DGG_NULL_SLACK) then Ret 0%Z
  else if is_sense c "E" && (abs (lhs - rhs) <? DGG_NULL_SLACK) then Ret 0%Z
  else Ret 0%Z.

Definition transform_step (data : DGG_data_t) (i : Z)
    (st : transform_out * DGG_constraint_t)
    : outcome (transform_out * DGG_constraint_t) :=
  let '(o, constraint) := st in
  do idx <- rd (index constraint) i ;;
  do xv <- rd (x data) idx ;;
  do px <- wr (x_out o) i xv ;;
  do rcv <- rd (rc data) idx ;;
  do prc <- wr (rc_out o) i rcv ;;
  do flag <- DGG_isInteger data idx ;;
  do pi <- wr (isint_out o) i flag ;;
  do ubv <- rd (ub data) idx ;;
  do lbv <- rd (lb data) idx ;;
  let half := (ubv - lbv) / 2 in
  if ubv - xv <? half then
    do px <- wr px i (ubv - xv) ;;
    do p <- rd px i ;;
    do px <- (if abs p <=? DGG_BOUND_THRESH then wr px i 0 else Ret px) ;;
    do a <- rd (coeff constraint) i ;;
    let constraint := set_rhs constraint (rhs constraint - a * ubv) in
    do a <- rd (coeff constraint) i ;;
    do constraint <- coeff_set constraint i (a * -1) ;;
    Ret (mkOut px prc pi, constraint)
  else
    do px <- wr px i (xv - lbv) ;;
    do p <- rd px i ;;
    do px <- (if abs p <=? DGG_BOUND_THRESH then wr px i 0 else Ret px) ;;
    do a <- rd (coeff constraint) i ;;
    let constraint := set_rhs constraint (rhs constraint - a * lbv) in
    Ret (mkOut px prc pi, constraint).

Definition DGG_transformConstraint (data : DGG_data_t)
    (constraint : DGG_constraint_t)
    : outcome (Z * transform_out * DGG_constraint_t) :=
  let px := malloc 0 (max_nz constraint) in
  let rc := malloc 0 (max_nz constraint) in
  let pi := malloc false (max_nz constraint) in
  do st <- for_upto 0 (nz constraint) (transform_step data)
             (mkOut px rc pi, constraint) ;;
  let '(o, constraint) := st in
  do violated <- DGG_isConstraintViolated data constraint ;;
  if negb (violated =? 0)%Z then Ret (1%Z, o, constraint)
  else Ret (0%Z, o, constraint).

Definition untransform_step (data : DGG_data_t) (i : Z)
    (constraint : DGG_constraint_t) : outcome DGG_constraint_t :=
  do idx <- rd (index constraint) i ;;
  do ubv <- rd (ub data) idx ;;
  do lbv <- rd (lb data) idx ;;
  let half := (ubv - lbv) / 2 in
  do xv <- rd (x data) idx ;;
  if ubv - xv <? half then
    do a <- rd (coeff constraint) i ;;
    let constraint := set_rhs constraint (rhs constraint - a * ubv) in
    do a <- rd (coeff constraint) i ;;
    coeff_set constraint i (a * -1)
  else
    do a <- rd (coeff constraint) i ;;
    Ret (set_rhs constraint (rhs constraint + a * lbv)).

Definition DGG_unTransformConstraint (data : DGG_data_t)
    (constraint : DGG_constraint_t) : outcome (Z * DGG_constraint_t) :=
  do constraint <- for_upto 0 (nz constraint) (untransform_step data)
                     constraint ;;
  Ret (0%Z, constraint).

End Routines.

End B64.

(** ** Concrete inputs

    A choice of tolerances, a Snapshot with two structural variables and
    one slack, and a few constraints, on which the routines are run. *)

Definition sample_BOUND_THRESH : Q := 1 # 1000000.
Definition sample_MIN_RHO : Q := 1 # 10000000.
Definition sample_MIN_ALPHA : Q := 1 # 10000000.
Definition sample_NULL_SLACK : Q := 1 # 100000.
Definition sample_MIN_ABSVALUE : Q := 1 # 10000000000000.
Definition sample_MIN_FIX : Q := 1 # 10000000.
Definition sample_MAX_PADDING : Q := 1 # 1000000.

(** The integrality flag as the second bit of the flag word. *)
Definition sample_flag (w : Z) : bool := Z.testbit w 1.

(** Variable 0 is integer with bounds [0, 10] and value 7/2, variable 1
    is continuous and sits near its upper bound, variable 2 is the slack
    of the single row. *)
Definition sample_data : DGG_data_t :=
  mkData 2 1 [2%Z; 0%Z; 0%Z] [0; 0; 0] [10; 10; 10] [7 # 2; 9; 0] [0; 0; 0].

(** [2 x0 + 3 x1 >= 7/2], stored with one spare cell. *)
Definition sample_base : DGG_constraint_t :=
  mkConstraint 2 3 [2; 3; 0] [0%Z; 1%Z; 0%Z] (7 # 2) "G".

(** [(5/2) x0 - (1/3) x1 >= 7/2] with flags integer, continuous. *)
Definition sample_frac : DGG_constraint_t :=
  mkConstraint 2 2 [5 # 2; - (1 # 3)] [0%Z; 1%Z] (7 # 2) "G".

Definition sample_isint : list bool := [true; false].

(** A '>=' cut [x0 >= 1] and a Snapshot whose point puts its left-hand
    side exactly at [rhs - tol]. *)
Definition boundary_cut : DGG_constraint_t :=
  mkConstraint 1 1 [1] [0%Z] 1 "G".

Definition boundary_data : DGG_data_t :=
  mkData 1 0 [0%Z] [0] [10] [1 - sample_NULL_SLACK] [0].

(** A list of two cuts. *)
Definition sample_list : DGG_list_t :=
  mkList 2 [sample_base; boundary_cut] [1%Z; 2%Z] [0; 1 # 4].

(** The acceptance rule of the desirability filter in the words of the
    specification: every comparison strict but that of an equality. *)
Definition strict_rule (tol : Q) (c : DGG_constraint_t) (lhs : Q) : Prop :=
  (nz c <= 500)%Z /\
  (sense c = "G"%char -> lhs < rhs c - tol) /\
  (sense c = "L"%char -> rhs c + tol < lhs) /\
  (sense c = "E"%char -> tol <= Qabs (lhs - rhs c)).

(** A constraint with noise: an integer variable whose coefficient is a
    hair above 2 and a continuous variable with a tiny coefficient. *)
Definition sample_noisy : DGG_constraint_t :=
  mkConstraint 2 2 [2 + (1 # 100000000); 1 # 20000000] [0%Z; 1%Z] (7 # 2) "G".

(** Two generator objects over a base class without state: a default
    object and one configured otherwise. *)
Definition sample_store : list (CglTwomir unit) :=
  [ CglTwomir_default unit tt;
    mkTwomir unit tt (Some false) (Some true) (Some false) (Some true)
      (Some 2%Z) (Some 5%Z) (Some 1%Z) (Some 3%Z) (Some 4%Z) (Some 7%Z) ].

(** The left-hand side of [boundary_cut] as [DGG_cutLHS] accumulates it. *)
Definition boundary_lhs : Q := 0 + 1 * (1 - sample_NULL_SLACK).

(** The flags of a row as two further bits of the flag word, and two
    more tolerances. *)
Definition sample_above (w : Z) : bool := Z.testbit w 2.
Definition sample_equality (w : Z) : bool := Z.testbit w 3.
Definition sample_MIN_TABLEAU : Q := 1 # 1000000.
Definition sample_GOMORY_THRESH : Q := 1 # 200.

(** The single row [2 x0 + 3 x1 <= 7] of a formulation, and a Snapshot
    that flags it as bounded above; the point is [x0 = 7/2], [x1 = 0],
    where the slack of the row is 0. *)
Definition sample_rows : solver_rows :=
  mkRows [0%Z] [2%Z] [2; 3] [0%Z; 1%Z] [7] [- (100)].

Definition sample_row_data : DGG_data_t :=
  mkData 2 1 [2%Z; 0%Z; 4%Z] [0; 0; 0] [10; 10; 10] [7 # 2; 0; 0] [0; 0; 0].

Definition sample_point : list Q := [7 # 2; 0].

(** [x0 + s >= 8] over the unified indices, [s] the slack of the row, and
    a list that holds it behind an older entry. *)
Definition sample_unified : DGG_constraint_t :=
  mkConstraint 2 2 [1; 1] [0%Z; 2%Z] 8 "G".

Definition sample_new_list : DGG_list_t :=
  mkList 2 [sample_base; sample_unified] [1%Z; 2%Z] [0; 1 # 4].





(** A store of three constraints whose first has been released, and the
    list of pointers left by three appends and the deletion of the entry
    0: two entries in use, and a stale slot that still holds the pointer
    moved to the slot 0. *)
Definition sample_heap : list (option DGG_constraint_t) :=
  [None; Some boundary_cut; Some sample_frac].

Definition sample_ptr_list : Storage.DGG_list_t :=
  Storage.mkList 2 [Some 2%nat; Some 1%nat; Some 2%nat] [3%Z; 2%Z; 3%Z]
    [1 # 2; 1 # 4; 1 # 2].

(** ** The routines on constraints *)

Section Twomir.

(** Tolerances named by the source.  Their values are fixed by the
    header [CglTwomir.hpp]; the routines are embedded for arbitrary
    values. *)
Variable DGG_BOUND_THRESH : Q.
Variable DGG_MIN_RHO : Q.
Variable DGG_MIN_ALPHA : Q.
Variable DGG_NULL_SLACK : Q.
Variable DGG_NICEFY_MIN_ABSVALUE : Q.
Variable DGG_NICEFY_MIN_FIX : Q.
Variable DGG_NICEFY_MAX_PADDING : Q.

(** The macro [DGG_isInteger(data, idx)] tests one bit of the flag word
    [data->info[idx]]; which bit is fixed by the header, so the test of a
    flag word is a parameter. *)
Variable integer_flag : Z -> bool.

Definition DGG_isInteger (data : DGG_data_t) (idx : Z) : outcome bool :=
  do w <- rd (info data) idx ;;
  Ret (integer_flag w).

(** Modelled from the spec: the macro [ABOV] of the header, "the helper
    ABOV", computed as [b - floor(b)]. *)
Definition ABOV (v : Q) : Q := v - floor v.

(** Modelled from the spec: the macros [DGG_MIN] and [DGG_MAX] of the
    header, the minimum and the maximum of two doubles. *)
Definition DGG_MIN (a b : Q) : Q := if a <? b then a else b.
Definition DGG_MAX (a b : Q) : Q := if a >? b then a else b.

(** [DBL_MAX] and [DBL_MIN] of <cfloat> for IEEE binary64. *)
Definition DBL_MAX : Q := inject_Z ((2 ^ 53 - 1) * 2 ^ 971).
Definition DBL_MIN : Q := 1 / inject_Z (2 ^ 1022).

(** [malloc(sizeof(T) * n)]: a fresh array of [n] cells.  The cells are
    not initialised by the source; the embedding fills them with [v]. *)
Definition malloc {A : Type} (v : A) (n : Z) : list A :=
  replicate (Z.to_nat n) v.

(** [c->coeff[i] = v] and [c->index[i] = v]. *)
Definition coeff_set (c : DGG_constraint_t) (i : Z) (v : Q)
    : outcome DGG_constraint_t :=
  do l <- wr (coeff c) i v ;;
  Ret (set_coeff c l).

Definition index_set (c : DGG_constraint_t) (i : Z) (v : Z)
    : outcome DGG_constraint_t :=
  do l <- wr (index c) i v ;;
  Ret (mkConstraint (nz c) (max_nz c) (coeff c) l (rhs c) (sense c)).

Definition set_nz (c : DGG_constraint_t) (k : Z) : DGG_constraint_t :=
  mkConstraint k (max_nz c) (coeff c) (index c) (rhs c) (sense c).

(** [DGG_newConstraint]; [None] is the NULL pointer. *)
Definition DGG_newConstraint (max_arrays : Z) : option DGG_constraint_t :=
  if (max_arrays <=? 0)%Z then None
  else Some (mkConstraint 0 max_arrays (malloc 0 max_arrays)
               (malloc 0%Z max_arrays) 0 "?").

(** The three output arrays of [DGG_transformConstraint]. *)
Record transform_out : Type := mkOut {
  x_out : list Q;
  rc_out : list Q;
  isint_out : list bool
}.

(** [DGG_cutLHS]: the left-hand side of [c] at the point [xs]. *)
Definition DGG_cutLHS (c : DGG_constraint_t) (xs : list Q) : outcome Q :=
  for_upto 0 (nz c)
    (fun i lhs =>
       do a <- rd (coeff c) i ;;
       do idx <- rd (index c) i ;;
       do xv <- rd xs idx ;;
       Ret (lhs + a * xv))
    0.

(** [DGG_isConstraintViolated]. *)
Definition DGG_isConstraintViolated (d : DGG_data_t) (c : DGG_constraint_t)
    : outcome Z :=
  do lhs <- DGG_cutLHS c (x d) ;;
  let rhs := rhs c in
  if is_sense c "G" && (lhs >? rhs - DGG_NULL_SLACK) then Ret 0%Z
  else if is_sense c "L" && (lhs <? rhs + DGG_NULL_SLACK) then Ret 0%Z
  else if is_sense c "E" && (fabs (lhs - rhs) <? DGG_NULL_SLACK) then Ret 0%Z
  else Ret 0%Z.

(** [DGG_isCutDesirable]. *)
Definition DGG_isCutDesirable (c : DGG_constraint_t) (d : DGG_data_t)
    : outcome Z :=
  do lhs <- DGG_cutLHS c (x d) ;;
  let rhs := rhs c in
  if (nz c >? 500)%Z then Ret 0%Z
  else if is_sense c "G" && (lhs >? rhs - DGG_NULL_SLACK) then Ret 0%Z
  else if is_sense c "L" && (lhs <? rhs + DGG_NULL_SLACK) then Ret 0%Z
  else if is_sense c "E" && (fabs (lhs - rhs) <? DGG_NULL_SLACK) then Ret 0%Z
  else Ret 1%Z.

(** [DGG_transformConstraint].  The test that closes the routine is
    compiled in: the source sets [DGG_DEBUG_DGG] to 1, and [DGG_TEST]
    returns its second argument when its first holds.  The arithmetic
    is that of the source read over the reals; [B64.transform_step] is
    the same text on binary64 numbers, where a free column (bounds
    [-DBL_MAX] and [DBL_MAX]) overflows and a wide one absorbs the rhs. *)
Definition transform_step (data : DGG_data_t) (i : Z)
    (st : transform_out * DGG_constraint_t)
    : outcome (transform_out * DGG_constraint_t) :=
  let '(o, constraint) := st in
  do idx <- rd (index constraint) i ;;
  do xv <- rd (x data) idx ;;
  do px <- wr (x_out o) i xv ;;
  do rcv <- rd (rc data) idx ;;
  do prc <- wr (rc_out o) i rcv ;;
  do flag <- DGG_isInteger data idx ;;
  do pi <- wr (isint_out o) i flag ;;
  do ubv <- rd (ub data) idx ;;
  do lbv <- rd (lb data) idx ;;
  let half := (ubv - lbv) / 2 in
  if ubv - xv <? half then
    do px <- wr px i (ubv - xv) ;;
    do p <- rd px i ;;
    do px <- (if fabs p <=? DGG_BOUND_THRESH then wr px i 0 else Ret px) ;;
    do a <- rd (coeff constraint) i ;;
    let constraint := set_rhs constraint (rhs constraint - a * ubv) in
    do a <- rd (coeff constraint) i ;;
    do constraint <- coeff_set constraint i (a * -1) ;;
    Ret (mkOut px prc pi, constraint)
  else
    do px <- wr px i (xv - lbv) ;;
    do p <- rd px i ;;
    do px <- (if fabs p <=? DGG_BOUND_THRESH then wr px i 0 else Ret px) ;;
    do a <- rd (coeff constraint) i ;;
    let constraint := set_rhs constraint (rhs constraint - a * lbv) in
    Ret (mkOut px prc pi, constraint).

Definition DGG_transformConstraint (data : DGG_data_t)
    (constraint : DGG_constraint_t)
    : outcome (Z * transform_out * DGG_constraint_t) :=
  let px := malloc 0 (max_nz constraint) in
  let rc := malloc 0 (max_nz constraint) in
  let pi := malloc false (max_nz constraint) in
  do st <- for_upto 0 (nz constraint) (transform_step data)
             (mkOut px rc pi, constraint) ;;
  let '(o, constraint) := st in
  do violated <- DGG_isConstraintViolated data constraint ;;
  if negb (violated =? 0)%Z then Ret (1%Z, o, constraint)
  else Ret (0%Z, o, constraint).

(** [DGG_unTransformConstraint], its arithmetic read over the reals as
    that of [DGG_transformConstraint] above; [B64.untransform_step] is the
    same text on binary64 numbers. *)
Definition untransform_step (data : DGG_data_t) (i : Z)
    (constraint : DGG_constraint_t) : outcome DGG_constraint_t :=
  do idx <- rd (index constraint) i ;;
  do ubv <- rd (ub data) idx ;;
  do lbv <- rd (lb data) idx ;;
  let half := (ubv - lbv) / 2 in
  do xv <- rd (x data) idx ;;
  if ubv - xv <? half then
    do a <- rd (coeff constraint) i ;;
    let constraint := set_rhs constraint (rhs constraint - a * ubv) in
    do a <- rd (coeff constraint) i ;;
    coeff_set constraint i (a * -1)
  else
    do a <- rd (coeff constraint) i ;;
    Ret (set_rhs constraint (rhs constraint + a * lbv)).

Definition DGG_unTransformConstraint (data : DGG_data_t)
    (constraint : DGG_constraint_t) : outcome (Z * DGG_constraint_t) :=
  do constraint <- for_upto 0 (nz constraint) (untransform_step data)
                     constraint ;;
  Ret (0%Z, constraint).

(** [DGG_nicefyConstraint].  [solver_ptr] is not used by the routine. *)
Definition nicefy_noise_step (i : Z) (cut : DGG_constraint_t)
    : outcome DGG_constraint_t :=
  do a <- rd (coeff cut) i ;;
  if fabs a <? DGG_NICEFY_MIN_ABSVALUE then coeff_set cut i 0
  else Ret cut.

Definition nicefy_step (data : DGG_data_t) (i : Z)
    (st : DGG_constraint_t * Q * Q) : outcome (DGG_constraint_t * Q * Q) :=
  let '(cut, min_coef, max_coef) := st in
  do idx <- rd (index cut) i ;;
  do flag <- DGG_isInteger data idx ;;
  do cut <-
    (if flag then
       do a <- rd (coeff cut) i ;;
       let aht := ABOV a in
       do ubv <- rd (ub data) idx ;;
       if aht <? DGG_NICEFY_MIN_FIX then
         do cut <- coeff_set cut i (floor a) ;;
         let ahtu := aht * ubv in
         if ahtu <? DGG_NICEFY_MAX_PADDING then
           Ret (set_rhs cut (rhs cut - ahtu))
         else
           do a <- rd (coeff cut) i ;;
           coeff_set cut i (a + DGG_NICEFY_MIN_FIX)
       else if 1 - aht <? DGG_NICEFY_MIN_FIX then
         do a <- rd (coeff cut) i ;;
         coeff_set cut i (ceil a)
       else Ret cut
     else
       do a <- rd (coeff cut) i ;;
       if a <? DGG_NICEFY_MIN_ABSVALUE then coeff_set cut i 0
       else if a <? DGG_NICEFY_MIN_FIX then
         do ubv <- rd (ub data) idx ;;
         let au := a * ubv in
         if au <? DGG_NICEFY_MAX_PADDING then
           do cut <- coeff_set cut i 0 ;;
           Ret (set_rhs cut (rhs cut - au))
         else coeff_set cut i DGG_NICEFY_MIN_FIX
       else Ret cut) ;;
  do a <- rd (coeff cut) i ;;
  let abs_coef := fabs a in
  Ret (cut, DGG_MIN min_coef abs_coef, DGG_MAX max_coef abs_coef).

Definition DGG_nicefyConstraint (data : DGG_data_t) (cut : DGG_constraint_t)
    : outcome (Z * DGG_constraint_t) :=
  let min_coef := DBL_MAX in
  let max_coef := DBL_MIN in
  if is_sense cut "L" then Ret (1%Z, cut)
  else
    do cut <- for_upto 0 (nz cut) nicefy_noise_step cut ;;
    do st <- for_upto 0 (nz cut) (nicefy_step data) (cut, min_coef, max_coef) ;;
    let '(cut, _, _) := st in
    Ret (0%Z, set_sense cut "G").

(** [DGG_is_a_multiple_of_b]. *)
Definition DGG_is_a_multiple_of_b (a b : Q) : Z :=
  let c := b / a in
  if b - a * floor c <? DGG_MIN_RHO then 1%Z else 0%Z.

(** [DGG_buildMir]; the second component is [*cut_out], [None] while the
    routine has not assigned it.  [DGG_IF_EXIT] stops the process with its
    second argument when its first holds. *)
Definition buildMir_step (isint : list bool) (base : DGG_constraint_t)
    (bht : Q) (i : Z) (st : DGG_constraint_t * Z)
    : outcome (DGG_constraint_t * Z) :=
  let '(tmir, lnz) := st in
  do v <- rd (coeff base) i ;;
  do flag <- rd isint i ;;
  do tmir <-
    (if negb flag then
       if v >? 0 then coeff_set tmir lnz v
       else coeff_set tmir lnz 0
     else
       let vht := ABOV v in
       if vht <? 0 then Exit 1%Z
       else coeff_set tmir lnz (bht * floor v + DGG_MIN bht vht)) ;;
  do idx <- rd (index base) i ;;
  do tmir <- index_set tmir lnz idx ;;
  Ret (tmir, (lnz + 1)%Z).

Definition DGG_buildMir (isint : list bool) (base : DGG_constraint_t)
    : outcome (Z * option DGG_constraint_t) :=
  let b := rhs base in
  let bht := ABOV b in
  let bup := ceil b in
  if is_sense base "L" then Ret (1%Z, None)
  else if (nz base =? 0)%Z then Ret (1%Z, None)
  else
    match DGG_newConstraint (nz base) with
    | None => Undef
    | Some tmir =>
        let tmir := set_sense tmir "G" in
        let tmir := set_rhs tmir (bht * bup) in
        do st <- for_upto 0 (nz base) (buildMir_step isint base bht)
                   (tmir, 0%Z) ;;
        let '(tmir, lnz) := st in
        Ret (0%Z, Some (set_nz tmir lnz))
    end.

(** [DGG_build2step]. *)
Definition build2step_step (alpha : Q) (isint : list bool)
    (base : DGG_constraint_t) (rho tau : Q) (i : Z)
    (st : DGG_constraint_t * Z) : outcome (DGG_constraint_t * Z) :=
  let '(tmir, lnz) := st in
  do v <- rd (coeff base) i ;;
  do flag <- rd isint i ;;
  do tmir <-
    (if negb flag then
       if v >? 0 then coeff_set tmir lnz v
       else coeff_set tmir lnz 0
     else
       let vht := v - floor v in
       if vht <? 0 then Exit 1%Z
       else
         let k := DGG_MIN (tau - 1) (floor (vht / alpha)) in
         coeff_set tmir lnz
           (floor v * tau * rho + k * rho + DGG_MIN rho (vht - k * alpha))) ;;
  do idx <- rd (index base) i ;;
  do tmir <- index_set tmir lnz idx ;;
  Ret (tmir, (lnz + 1)%Z).

Definition DGG_build2step (alpha : Q) (isint : list bool)
    (base : DGG_constraint_t) : outcome (Z * option DGG_constraint_t) :=
  let b := rhs base in
  if is_sense base "L" then Ret (1%Z, None)
  else if (nz base =? 0)%Z then Ret (1%Z, None)
  else
    let bht := ABOV b in
    let bup := ceil b in
    let tau := ceil (bht / alpha) in
    let rho := bht - alpha * floor (bht / alpha) in
    if (bht <=? alpha) || (alpha <=? 0) then Ret (1%Z, None)
    else if negb (DGG_is_a_multiple_of_b alpha bht =? 0)%Z then Ret (1%Z, None)
    else if rho <? DGG_MIN_RHO then Ret (1%Z, None)
    else
      match DGG_newConstraint (nz base) with
      | None => Undef
      | Some tmir =>
          let tmir := set_rhs tmir (bup * tau * rho) in
          let tmir := set_sense tmir "G" in
          do st <- for_upto 0 (nz base)
                     (build2step_step alpha isint base rho tau) (tmir, 0%Z) ;;
          let '(tmir, lnz) := st in
          Ret (0%Z, Some (set_nz tmir lnz))
      end.

(** [DGG_is2stepValid]. *)
Definition DGG_is2stepValid (alpha bht : Q) : Z :=
  if alpha <? DGG_MIN_ALPHA then 0%Z
  else
    let tau := ceil (bht / alpha) in
    let tau_lim := ceil (1 / (1 - bht)) - 1 in
    if negb (DGG_is_a_multiple_of_b alpha bht =? 0)%Z then 0%Z
    else if (bht >? alpha) && (alpha >? 0) then
      if 1 / alpha >=? tau then 1%Z else 0%Z
    else 0%Z.

(** ** Further routines on constraints *)

Variable DGG_GOMORY_THRESH : Q.

(** The family tag [DGG_TMIR_CUT] that the header gives to a classic MIR
    cut. *)
Variable DGG_TMIR_CUT : Z.

(** [memcpy(dst, src, n * sizeof(T))]: the first [n] cells of [src]
    replace those of [dst]; both arrays must have them. *)
Definition memcpy {A : Type} (dst src : list A) (n : Z) : outcome (list A) :=
  if (n <? 0)%Z then Undef
  else if (Z.to_nat n <=? length dst)%nat && (Z.to_nat n <=? length src)%nat
  then Ret (take (Z.to_nat n) src ++ drop (Z.to_nat n) dst)
  else Undef.

(** [DGG_copyConstraint]; [None] is the NULL pointer, as argument and as
    result. *)
Definition DGG_copyConstraint (c : option DGG_constraint_t)
    : outcome (option DGG_constraint_t) :=
  match c with
  | None => Ret None
  | Some c =>
      if (max_nz c <=? 0)%Z then Ret None
      else
        match DGG_newConstraint (max_nz c) with
        | None => Ret None
        | Some nc =>
            let nc := set_nz nc (nz c) in
            let nc := set_rhs nc (rhs c) in
            let nc := set_sense nc (sense c) in
            do co <- memcpy (coeff nc) (coeff c) (nz nc) ;;
            let nc := set_coeff nc co in
            do ix <- memcpy (index nc) (index c) (nz nc) ;;
            Ret (Some (mkConstraint (nz nc) (max_nz nc) (coeff nc) ix
                         (rhs nc) (sense nc)))
        end
  end.

(** [DGG_scaleConstraint]. *)
Definition scale_step (t : Z) (i : Z) (c : DGG_constraint_t)
    : outcome DGG_constraint_t :=
  do a <- rd (coeff c) i ;;
  coeff_set c i (a * inject_Z t).

Definition DGG_scaleConstraint (c : DGG_constraint_t) (t : Z)
    : outcome DGG_constraint_t :=
  let c := set_rhs c (rhs c * inject_Z t) in
  let c :=
    if (t <? 0)%Z then
      if is_sense c "G" then set_sense c "L"
      else if is_sense c "L" then set_sense c "G"
      else c
    else c in
  for_upto 0 (nz c) (scale_step t) c.

(** [frac_part]. *)
Definition frac_part (value : Q) : Q := value - floor value.

(** [DGG_isBaseTrivial]; the Snapshot argument is not used. *)
Definition DGG_isBaseTrivial (d : DGG_data_t) (c : DGG_constraint_t) : Z :=
  if frac_part (ABOV (rhs c)) <? DGG_GOMORY_THRESH then 1%Z
  else if 1 - frac_part (ABOV (rhs c)) <? DGG_GOMORY_THRESH then 1%Z
  else 0%Z.

(** [DGG_cutsOffPoint].  The label [BAD] prints the two sides and ends
    with [DGG_TEST(1, 1, ...)], which returns 1. *)
Definition DGG_cutsOffPoint (xs : list Q) (cut : DGG_constraint_t)
    : outcome Z :=
  do LHS <- for_upto 0 (nz cut)
              (fun i LHS =>
                 do a <- rd (coeff cut) i ;;
                 do idx <- rd (index cut) i ;;
                 do xv <- rd xs idx ;;
                 Ret (LHS + a * xv))
              0 ;;
  if is_sense cut "E" && (fabs (LHS - rhs cut) >? DGG_NULL_SLACK) then Ret 1%Z
  else if is_sense cut "G" && (rhs cut - LHS >? DGG_NULL_SLACK) then Ret 1%Z
  else if is_sense cut "L" && (LHS - rhs cut >? DGG_NULL_SLACK) then Ret 1%Z
  else Ret 0%Z.

(** [DGG_addMirToList]; [x], [data] and [orig_base] are not used by the
    routine, and neither is the result of [DGG_list_addcut].
    [DGG_CHECKRVAL(rval, rval)] returns [rval] when it is not 0.  The
    builder returns 0 only together with a cut. *)
Definition DGG_addMirToList (base : DGG_constraint_t) (isint : list bool)
    (list : DGG_list_t) : outcome (Z * DGG_list_t) :=
  do r <- DGG_buildMir isint base ;;
  let '(rval, cut) := r in
  if negb (rval =? 0)%Z then Ret (rval, list)
  else
    match cut with
    | None => Undef
    | Some cut =>
        do r <- DGG_list_addcut list cut DGG_TMIR_CUT 0 ;;
        Ret (0%Z, snd r)
    end.

(** *** The rows of the formulation *)

(** The macros [DGG_isConstraintBoundedAbove(data, idx)] and
    [DGG_isEqualityConstraint(data, idx)] test one bit each of the flag
    word [data->info[idx]], as [DGG_isInteger] does. *)
Variable bounded_above_flag : Z -> bool.
Variable equality_flag : Z -> bool.

Variable DGG_MIN_TABLEAU_COEFFICIENT : Q.

Definition DGG_isConstraintBoundedAbove (data : DGG_data_t) (idx : Z)
    : outcome bool :=
  do w <- rd (info data) idx ;;
  Ret (bounded_above_flag w).

Definition DGG_isEqualityConstraint (data : DGG_data_t) (idx : Z)
    : outcome bool :=
  do w <- rd (info data) idx ;;
  Ret (equality_flag w).

(** One pass of the loop of [DGG_getSlackExpression]: [i] runs over the
    elements of the row from its start [beg], and [j = i - beg] over the
    cells of the expression. *)
Definition slack_step (si : solver_rows) (data : DGG_data_t)
    (row_index beg : Z) (i : Z) (row : DGG_constraint_t)
    : outcome DGG_constraint_t :=
  let j := (i - beg)%Z in
  do v <- rd (rowMat si) i ;;
  do row <- coeff_set row j v ;;
  do ind <- rd (rowInd si) i ;;
  do row <- index_set row j ind ;;
  do above <- DGG_isConstraintBoundedAbove data (ncol data + row_index) ;;
  if above then
    do a <- rd (coeff row) j ;;
    coeff_set row j (- a)
  else Ret row.

(** [DGG_getSlackExpression]; [DGG_DEBUG_DGG] is 1, so the range check is
    compiled in, and [DGG_THROW(0, ...)] leaves the routine with the NULL
    pointer, here [None]. *)
Definition DGG_getSlackExpression (si : solver_rows) (data : DGG_data_t)
    (row_index : Z) : outcome (option DGG_constraint_t) :=
  let row := DGG_newConstraint (ncol data) in
  if (row_index <? 0)%Z || (row_index >? nrow data)%Z then Ret None
  else
    match row with
    | None => Undef
    | Some row =>
        do cnt <- rd (rowCnt si) row_index ;;
        let row := set_nz row cnt in
        do beg <- rd (rowBeg si) row_index ;;
        do row <- for_upto beg (beg + cnt)
                    (slack_step si data row_index beg) row ;;
        let row := set_sense row "?" in
        do above <- DGG_isConstraintBoundedAbove data
                      (ncol data + row_index) ;;
        if above then
          do u <- rd (rowUpper si) row_index ;;
          Ret (Some (set_rhs row u))
        else
          do l <- rd (rowLower si) row_index ;;
          Ret (Some (set_rhs row (- l)))
    end.

(** [DGG_getFormulaConstraint]; [DGG_THROW(1, ...)] leaves the routine
    with 1.  The caller owns [form_row]; the routine returns its new
    contents beside the status. *)
Definition DGG_getFormulaConstraint (da_row : Z) (si : solver_rows)
    (data : DGG_data_t) (form_row : DGG_constraint_t)
    : outcome (Z * DGG_constraint_t) :=
  if (nrow data <=? da_row)%Z || (0 >? da_row)%Z then Ret (1%Z, form_row)
  else
    do nz0 <- rd (rowCnt si) da_row ;;
    let form_row :=
      mkConstraint nz0 (nz0 + 1) (coeff form_row) (index form_row)
        (rhs form_row) (sense form_row) in
    do form_row <- for_upto 0 nz0
                     (fun i f =>
                        do beg <- rd (rowBeg si) da_row ;;
                        do v <- rd (rowMat si) (beg + i) ;;
                        coeff_set f i v)
                     form_row ;;
    do form_row <- for_upto 0 nz0
                     (fun i f =>
                        do beg <- rd (rowBeg si) da_row ;;
                        do v <- rd (rowInd si) (beg + i) ;;
                        index_set f i v)
                     form_row ;;
    do above <- DGG_isConstraintBoundedAbove data (ncol data + da_row) ;;
    do form_row <-
      (if above then
         do u <- rd (rowUpper si) da_row ;;
         Ret (set_sense (set_rhs form_row u) "L")
       else
         do l <- rd (rowLower si) da_row ;;
         Ret (set_sense (set_rhs form_row l) "G")) ;;
    do eq <- DGG_isEqualityConstraint data (ncol data + da_row) ;;
    let form_row := if eq then set_sense form_row "E" else form_row in
    do eq <- DGG_isEqualityConstraint data (ncol data + da_row) ;;
    if negb eq then
      do form_row <- index_set form_row nz0 (ncol data + da_row) ;;
      do above <- DGG_isConstraintBoundedAbove data (ncol data + da_row) ;;
      do form_row <- coeff_set form_row nz0 (if above then 1 else - (1)) ;;
      Ret (0%Z, set_nz form_row (nz form_row + 1))
    else Ret (0%Z, form_row).

(** The inner loop of [DGG_substituteSlacks]: the term [j] of the slack
    expression [row], weighted by the coefficient [i] of the cut, is added
    to the dense row [lcut]. *)
Definition subst_row_step (cut row : DGG_constraint_t) (i j : Z)
    (lcut : list Q) : outcome (list Q) :=
  do rj <- rd (index row) j ;;
  do old <- rd lcut rj ;;
  do rc <- rd (coeff row) j ;;
  do a <- rd (coeff cut) i ;;
  wr lcut rj (old + rc * a).

(** The outer loop: the term [i] of the cut goes to the dense row as it
    is when its variable is structural, and through the slack expression
    of its row otherwise.  A NULL expression is dereferenced. *)
Definition subst_step (si : solver_rows) (data : DGG_data_t)
    (cut : DGG_constraint_t) (i : Z) (st : list Q * Q)
    : outcome (list Q * Q) :=
  let '(lcut, lrhs) := st in
  do idx <- rd (index cut) i ;;
  if (idx <? ncol data)%Z then
    do old <- rd lcut idx ;;
    do a <- rd (coeff cut) i ;;
    do lcut <- wr lcut idx (old + a) ;;
    Ret (lcut, lrhs)
  else
    do r <- DGG_getSlackExpression si data (idx - ncol data) ;;
    match r with
    | None => Undef
    | Some row =>
        do lcut <- for_upto 0 (nz row) (subst_row_step cut row i) lcut ;;
        do a <- rd (coeff cut) i ;;
        do _ <- DGG_freeConstraint row ;;
        Ret (lcut, lrhs - rhs row * a)
    end.

(** The two passes over the dense row: the count of the entries to keep,
    and their copy into the fresh arrays of the cut. *)
Definition count_step (lcut : list Q) (i : Z) (lnz : Z) : outcome Z :=
  do v <- rd lcut i ;;
  Ret (if fabs v >? DGG_MIN_TABLEAU_COEFFICIENT then (lnz + 1)%Z else lnz).

Definition compact_step (lcut : list Q) (i : Z)
    (st : DGG_constraint_t * Z) : outcome (DGG_constraint_t * Z) :=
  let '(cut, lnz) := st in
  do v <- rd lcut i ;;
  if fabs v >? DGG_MIN_TABLEAU_COEFFICIENT then
    do cut <- coeff_set cut lnz v ;;
    do cut <- index_set cut lnz i ;;
    Ret (cut, (lnz + 1)%Z)
  else Ret (cut, lnz).

(** [DGG_substituteSlacks].  A negative [ncol] makes the size passed to
    [malloc] wrap around, and the [memset] that follows is undefined.
    When no entry is kept the two arrays of the cut stay NULL. *)
Definition DGG_substituteSlacks (si : solver_rows) (data : DGG_data_t)
    (cut : DGG_constraint_t) : outcome (Z * DGG_constraint_t) :=
  if (ncol data <? 0)%Z then Undef
  else
    let lcut := malloc 0 (ncol data) in
    do st <- for_upto 0 (nz cut) (subst_step si data cut) (lcut, rhs cut) ;;
    let '(lcut, lrhs) := st in
    do lnz <- for_upto 0 (ncol data) (count_step lcut) 0%Z ;;
    let cut :=
      if (lnz =? 0)%Z then mkConstraint lnz lnz [] [] (rhs cut) (sense cut)
      else mkConstraint lnz lnz (malloc 0 lnz) (malloc 0%Z lnz)
             (rhs cut) (sense cut) in
    do st <- for_upto 0 (ncol data) (compact_step lcut) (cut, 0%Z) ;;
    Ret (0%Z, set_rhs (fst st) lrhs).

(** *** Back to the variables of the solver *)

(** The last loop of [DGG_generateCutsFromBase] takes every cut appended
    to the list since [new_pos] back to the variables of the solver,
    from the last entry down.  Its body for the entry [i]: the cut is
    untransformed, its slack variables are substituted, and it is deleted
    from the list when it is not desirable.  The two routines work on the
    constraint the entry points to, so the entry is written back after
    each of them.  [DGG_CHECKRVAL(rval, rval)] leaves the routine with
    [rval] when it is not 0: the result [Some rval] of the body, while
    [None] lets the loop go on. *)
Definition set_list_c (l : DGG_list_t) (c : list DGG_constraint_t)
    : DGG_list_t :=
  mkList (list_n l) c (list_ctype l) (list_alpha l).

Definition restore_step (si : solver_rows) (data : DGG_data_t) (i : Z)
    (cut_list : DGG_list_t) : outcome (option Z * DGG_list_t) :=
  do lcut <- rd (list_c cut_list) i ;;
  do r <- DGG_unTransformConstraint data lcut ;;
  do c <- wr (list_c cut_list) i (snd r) ;;
  let cut_list := set_list_c cut_list c in
  if negb (fst r =? 0)%Z then Ret (Some (fst r), cut_list)
  else
    do r <- DGG_substituteSlacks si data (snd r) ;;
    do c <- wr (list_c cut_list) i (snd r) ;;
    let cut_list := set_list_c cut_list c in
    if negb (fst r =? 0)%Z then Ret (Some (fst r), cut_list)
    else
      do des <- DGG_isCutDesirable (snd r) data ;;
      if (des =? 0)%Z then
        do cut_list <- DGG_list_delcut cut_list i ;;
        Ret (None, cut_list)
      else Ret (None, cut_list).

(** [for (i = cut_list->n - 1; i >= new_pos; i--)], with [n] passes left;
    after the loop the routine returns 0. *)
Fixpoint restore_loop (si : solver_rows) (data : DGG_data_t) (n : nat)
    (i : Z) (cut_list : DGG_list_t) : outcome (Z * DGG_list_t) :=
  match n with
  | O => Ret (0%Z, cut_list)
  | Datatypes.S n' =>
      do r <- restore_step si data i cut_list ;;
      match fst r with
      | Some rval => Ret (rval, snd r)
      | None => restore_loop si data n' (i - 1) (snd r)
      end
  end.

Definition restore_new_cuts (si : solver_rows) (data : DGG_data_t)
    (new_pos : Z) (cut_list : DGG_list_t) : outcome (Z * DGG_list_t) :=
  restore_loop si data (Z.to_nat (list_n cut_list - new_pos))
    (list_n cut_list - 1) cut_list.

(** ** Well-formed inputs *)

(** The first [nz] cells of the two arrays of a constraint exist. *)
Definition cells_ok (c : DGG_constraint_t) : Prop :=
  (0 <= nz c)%Z /\
  (nz c <= Z.of_nat (length (coeff c)))%Z /\
  (nz c <= Z.of_nat (length (index c)))%Z.

(** Every variable index in use lies in [0 .. m-1]. *)
Definition indices_below (c : DGG_constraint_t) (m : nat) : Prop :=
  forall (j : nat) (idx : Z),
    (Z.of_nat j < nz c)%Z -> index c !! j = Some idx ->
    (0 <= idx < Z.of_nat m)%Z.

(** The arrays of a Snapshot have one cell per unified index. *)
Definition data_ok (d : DGG_data_t) : Prop :=
  (0 <= ncol d)%Z /\ (0 <= nrow d)%Z /\
  Z.of_nat (length (info d)) = (ncol d + nrow d)%Z /\
  Z.of_nat (length (lb d)) = (ncol d + nrow d)%Z /\
  Z.of_nat (length (ub d)) = (ncol d + nrow d)%Z /\
  Z.of_nat (length (x d)) = (ncol d + nrow d)%Z /\
  Z.of_nat (length (rc d)) = (ncol d + nrow d)%Z.

(** ** Vocabulary of the statements *)

(** The coefficient a builder gives to one variable, as a function of its
    integrality flag and its base coefficient. *)
Definition mir_coeff (bht : Q) (flag : bool) (v : Q) : Q :=
  if negb flag then (if v >? 0 then v else 0)
  else bht * floor v + DGG_MIN bht (ABOV v).

Definition twostep_coeff (alpha rho tau : Q) (flag : bool) (v : Q) : Q :=
  if negb flag then (if v >? 0 then v else 0)
  else
    let vht := v - floor v in
    let k := DGG_MIN (tau - 1) (floor (vht / alpha)) in
    floor v * tau * rho + k * rho + DGG_MIN rho (vht - k * alpha).

(** A builder loop body that cannot stop the process. *)
Definition fill_step (F : bool -> Q -> Q) (isint : list bool)
    (base : DGG_constraint_t) (i : Z) (st : DGG_constraint_t * Z)
    : outcome (DGG_constraint_t * Z) :=
  let '(tmir, lnz) := st in
  do v <- rd (coeff base) i ;;
  do flag <- rd isint i ;;
  do tmir <- coeff_set tmir lnz (F flag v) ;;
  do idx <- rd (index base) i ;;
  do tmir <- index_set tmir lnz idx ;;
  Ret (tmir, (lnz + 1)%Z).

(** The state of a builder after [k] iterations. *)
Definition filled (F : bool -> Q -> Q) (isint : list bool)
    (base t0 : DGG_constraint_t) (k : nat) (st : DGG_constraint_t * Z) : Prop :=
  let tmir := fst st in
  let lnz := snd st in
  lnz = Z.of_nat k /\
  nz tmir = nz t0 /\ max_nz tmir = max_nz t0 /\
  rhs tmir = rhs t0 /\ sense tmir = sense t0 /\
  length (coeff tmir) = length (coeff t0) /\
  length (index tmir) = length (index t0) /\
  forall j : nat, (j < k)%nat ->
    exists v flag idx,
      coeff base !! j = Some v /\ isint !! j = Some flag /\
      index base !! j = Some idx /\
      coeff tmir !! j = Some (F flag v) /\ index tmir !! j = Some idx.

(** The value of cell [i] of an array of doubles, 0 outside of it. *)
Definition cell (l : list Q) (i : Z) : Q := nth (Z.to_nat i) l 0.

(** The closer-bound rule: the variable [idx] is complemented at its upper
    bound. *)
Definition upper_side (d : DGG_data_t) (idx : Z) : bool :=
  cell (ub d) idx - cell (x d) idx <? (cell (ub d) idx - cell (lb d) idx) / 2.

(** The coefficient after either substitution. *)
Definition flip (d : DGG_data_t) (idx : Z) (a : Q) : Q :=
  if upper_side d idx then a * -1 else a.

(** The rhs after one step of the transformation and of its inverse. *)
Definition shift_rhs (d : DGG_data_t) (idx : Z) (a r : Q) : Q :=
  if upper_side d idx then r - a * cell (ub d) idx
  else r - a * cell (lb d) idx.

Definition unshift_rhs (d : DGG_data_t) (idx : Z) (a r : Q) : Q :=
  if upper_side d idx then r - a * cell (ub d) idx
  else r + a * cell (lb d) idx.

(** The rhs after [k] steps of a loop that updates it by [G]. *)
Fixpoint rhs_after (G : Z -> Q -> Q -> Q) (co : list Q) (ix : list Z)
    (r0 : Q) (k : nat) : Q :=
  match k with
  | O => r0
  | Datatypes.S k' => G (nth k' ix 0%Z) (nth k' co 0) (rhs_after G co ix r0 k')
  end.

(** The constraint after [k] steps of such a loop started on [c0]. *)
Definition shifted (G : Z -> Q -> Q -> Q) (d : DGG_data_t)
    (c0 : DGG_constraint_t) (k : nat) (c : DGG_constraint_t) : Prop :=
  nz c = nz c0 /\ max_nz c = max_nz c0 /\ index c = index c0 /\
  sense c = sense c0 /\ length (coeff c) = length (coeff c0) /\
  rhs c = rhs_after G (coeff c0) (index c0) (rhs c0) k /\
  (forall j : nat, (j < k)%nat ->
     coeff c !! j = Some (flip d (nth j (index c0) 0%Z) (nth j (coeff c0) 0))) /\
  (forall j : nat, (k <= j)%nat -> coeff c !! j = coeff c0 !! j).

(** The output arrays have their [max_nz] cells. *)
Definition outputs_ok (m : Z) (o : transform_out) : Prop :=
  Z.of_nat (length (x_out o)) = m /\
  Z.of_nat (length (rc_out o)) = m /\
  Z.of_nat (length (isint_out o)) = m.

(** What [DGG_nicefyConstraint] makes of one coefficient: the noise
    filter of its first loop, then the rounding of its second loop for an
    integer and for a continuous variable with upper bound [ubv]. *)
Definition noise (a : Q) : Q :=
  if fabs a <? DGG_NICEFY_MIN_ABSVALUE then 0 else a.

Definition nice_int (ubv a : Q) : Q :=
  let aht := ABOV a in
  if aht <? DGG_NICEFY_MIN_FIX then
    if aht * ubv <? DGG_NICEFY_MAX_PADDING then floor a
    else floor a + DGG_NICEFY_MIN_FIX
  else if 1 - aht <? DGG_NICEFY_MIN_FIX then ceil a
  else a.

Definition nice_cont (ubv a : Q) : Q :=
  if a <? DGG_NICEFY_MIN_ABSVALUE then 0
  else if a <? DGG_NICEFY_MIN_FIX then
    if a * ubv <? DGG_NICEFY_MAX_PADDING then 0 else DGG_NICEFY_MIN_FIX
  else a.

Definition nice (d : DGG_data_t) (idx : Z) (a : Q) : Q :=
  if integer_flag (nth (Z.to_nat idx) (info d) 0%Z)
  then nice_int (cell (ub d) idx) a
  else nice_cont (cell (ub d) idx) a.

Definition nicefied (d : DGG_data_t) (idx : Z) (a : Q) : Q :=
  nice d idx (noise a).

(** The constraint after [k] steps of a loop that replaces the
    coefficient [a] of the variable [idx] by [F idx a] and leaves indices,
    count, capacity and sense alone. *)
Definition mapped (F : Z -> Q -> Q) (c0 : DGG_constraint_t) (k : nat)
    (c : DGG_constraint_t) : Prop :=
  nz c = nz c0 /\ max_nz c = max_nz c0 /\ index c = index c0 /\
  sense c = sense c0 /\ length (coeff c) = length (coeff c0) /\
  (forall j : nat, (j < k)%nat ->
     coeff c !! j = Some (F (nth j (index c0) 0%Z) (nth j (coeff c0) 0))) /\
  (forall j : nat, (k <= j)%nat -> coeff c !! j = coeff c0 !! j).

(** The relations between the tolerances of the clean-up pass under which
    a second pass finds nothing to do. *)
Definition nicefy_tolerances_ok : Prop :=
  0 < DGG_NICEFY_MIN_ABSVALUE /\
  DGG_NICEFY_MIN_ABSVALUE <= DGG_NICEFY_MIN_FIX /\
  DGG_NICEFY_MIN_FIX <= 1 # 2 /\
  0 < DGG_NICEFY_MAX_PADDING.

(** The left-hand side accumulated over the first [k] terms. *)
Fixpoint lhs_upto (co : list Q) (ix : list Z) (xs : list Q) (k : nat) : Q :=
  match k with
  | O => 0
  | Datatypes.S k' =>
      lhs_upto co ix xs k' + nth k' co 0 * cell xs (nth k' ix 0%Z)
  end.

(** A constraint holds at a point where its left-hand side is [lhs]. *)
Definition holds_at (c : DGG_constraint_t) (lhs : Q) : Prop :=
  (sense c = "G"%char -> rhs c <= lhs) /\
  (sense c = "L"%char -> lhs <= rhs c) /\
  (sense c = "E"%char -> lhs == rhs c).

(** The value of a variable after the substitution chosen for it. *)
Definition complemented (d : DGG_data_t) (idx : Z) (v : Q) : Q :=
  if upper_side d idx then cell (ub d) idx - v else v - cell (lb d) idx.

(** A transformed value within the bound threshold of 0 is stored as 0. *)
Definition snapped (v : Q) : Q :=
  if fabs v <=? DGG_BOUND_THRESH then 0 else v.

(** The first [k] cells of the output arrays describe the variables of
    the first [k] terms, position by position. *)
Definition outputs_upto (d : DGG_data_t) (c0 : DGG_constraint_t) (k : nat)
    (o : transform_out) : Prop :=
  forall j : nat, (j < k)%nat ->
    let idx := nth j (index c0) 0%Z in
    x_out o !! j = Some (snapped (complemented d idx (cell (x d) idx))) /\
    rc_out o !! j = Some (cell (rc d) idx) /\
    isint_out o !! j = Some (integer_flag (nth (Z.to_nat idx) (info d) 0%Z)).

(** What the second loop of [DGG_nicefyConstraint] makes of the rhs when
    it meets the coefficient [a] of the variable [idx]. *)
Definition nice_rhs (d : DGG_data_t) (idx : Z) (a r : Q) : Q :=
  let ubv := cell (ub d) idx in
  if integer_flag (nth (Z.to_nat idx) (info d) 0%Z) then
    if ABOV a <? DGG_NICEFY_MIN_FIX then
      if ABOV a * ubv <? DGG_NICEFY_MAX_PADDING then r - ABOV a * ubv else r
    else r
  else
    if a <? DGG_NICEFY_MIN_ABSVALUE then r
    else if a <? DGG_NICEFY_MIN_FIX then
      if a * ubv <? DGG_NICEFY_MAX_PADDING then r - a * ubv else r
    else r.

(** The rows of the solver fit the Snapshot: every row has its start, its
    length and its two bounds, its elements lie within the element arrays,
    it has at most one element per column, and its column indices are
    structural. *)
Definition rows_ok (si : solver_rows) (d : DGG_data_t) : Prop :=
  (nrow d <= Z.of_nat (length (rowBeg si)))%Z /\
  (nrow d <= Z.of_nat (length (rowCnt si)))%Z /\
  (nrow d <= Z.of_nat (length (rowUpper si)))%Z /\
  (nrow d <= Z.of_nat (length (rowLower si)))%Z /\
  forall r : nat, (Z.of_nat r < nrow d)%Z ->
    let beg := nth r (rowBeg si) 0%Z in
    let cnt := nth r (rowCnt si) 0%Z in
    (0 <= beg)%Z /\ (0 <= cnt <= ncol d)%Z /\
    (beg + cnt <= Z.of_nat (length (rowMat si)))%Z /\
    (beg + cnt <= Z.of_nat (length (rowInd si)))%Z /\
    forall k : nat, (Z.of_nat k < cnt)%Z ->
      (0 <= nth (Z.to_nat beg + k) (rowInd si) 0%Z < ncol d)%Z.

(** The activity of the row [r] at the structural point [xs]. *)
Definition row_activity (si : solver_rows) (r : nat) (xs : list Q) : Q :=
  let beg := Z.to_nat (nth r (rowBeg si) 0%Z) in
  lhs_upto (drop beg (rowMat si)) (drop beg (rowInd si)) xs
    (Z.to_nat (nth r (rowCnt si) 0%Z)).

(** Whether the Snapshot flags the row [r] as bounded above. *)
Definition row_above (d : DGG_data_t) (r : nat) : bool :=
  bounded_above_flag (nth (Z.to_nat (ncol d) + r) (info d) 0%Z).

(** The value of the slack variable of the row [r] at [xs]: the distance
    of the activity from the upper bound of a row bounded above, and from
    the lower bound of any other row. *)
Definition slack_value (si : solver_rows) (d : DGG_data_t) (xs : list Q)
    (r : nat) : Q :=
  if row_above d r then nth r (rowUpper si) 0 - row_activity si r xs
  else row_activity si r xs - nth r (rowLower si) 0.

(** A structural point, extended over the unified indices by the values
    of the slack variables. *)
Definition extended_point (si : solver_rows) (d : DGG_data_t)
    (xs : list Q) : list Q :=
  xs ++ map (slack_value si d xs) (seq 0 (Z.to_nat (nrow d))).

(** The inner product of the first [k] cells of two dense rows, the
    1-norm of the first [k] cells of a point, and the part of the inner
    product that the compaction keeps. *)
Fixpoint dot (l xs : list Q) (k : nat) : Q :=
  match k with
  | O => 0
  | Datatypes.S k' => dot l xs k' + nth k' l 0 * nth k' xs 0
  end.

Fixpoint norm1 (xs : list Q) (k : nat) : Q :=
  match k with
  | O => 0
  | Datatypes.S k' => norm1 xs k' + Qabs (nth k' xs 0)
  end.

Definition is_kept (v : Q) : bool := fabs v >? DGG_MIN_TABLEAU_COEFFICIENT.

Fixpoint kept (l : list Q) (k : nat) : nat :=
  match k with
  | O => O
  | Datatypes.S k' => if is_kept (nth k' l 0) then Datatypes.S (kept l k') else kept l k'
  end.

Fixpoint kept_dot (l xs : list Q) (k : nat) : Q :=
  match k with
  | O => 0
  | Datatypes.S k' =>
      if is_kept (nth k' l 0) then kept_dot l xs k' + nth k' l 0 * nth k' xs 0
      else kept_dot l xs k'
  end.

(** Whether the Snapshot flags the row [r] as an equality. *)
Definition row_equality (d : DGG_data_t) (r : nat) : bool :=
  equality_flag (nth (Z.to_nat (ncol d) + r) (info d) 0%Z).

(** The cut [c] is what untransforming and substituting make of [c0]. *)
Definition restored (si : solver_rows) (d : DGG_data_t)
    (c0 c : DGG_constraint_t) : Prop :=
  exists c2,
    DGG_unTransformConstraint d c0 = Ret (0%Z, c2) /\
    DGG_substituteSlacks si d c2 = Ret (0%Z, c).

(** An entry [(c, t, a)] that survives the last loop of
    [DGG_generateCutsFromBase]: it comes from an entry of the list [l0]
    at or after [new_pos], restored, with the tag and the parameter of
    that entry, and it is desirable. *)
Definition survivor (si : solver_rows) (d : DGG_data_t) (new_pos : Z)
    (l0 : DGG_list_t) (c : DGG_constraint_t) (t : Z) (a : Q) : Prop :=
  exists (j0 : nat) (c0 : DGG_constraint_t),
    (new_pos <= Z.of_nat j0 < list_n l0)%Z /\
    list_c l0 !! j0 = Some c0 /\
    list_ctype l0 !! j0 = Some t /\
    list_alpha l0 !! j0 = Some a /\
    restored si d c0 c /\
    DGG_isCutDesirable c d = Ret 1%Z.

(** The state of the list when the loop is about to visit the entry [i]:
    the entries up to [i] are those of [l0], the entries after [i] are
    survivors. *)
Definition restore_inv (si : solver_rows) (d : DGG_data_t) (new_pos : Z)
    (l0 : DGG_list_t) (i : Z) (l : DGG_list_t) : Prop :=
  list_ok l /\ (i < list_n l <= list_n l0)%Z /\
  (forall j : nat, (Z.of_nat j <= i)%Z ->
     list_c l !! j = list_c l0 !! j /\
     list_ctype l !! j = list_ctype l0 !! j /\
     list_alpha l !! j = list_alpha l0 !! j) /\
  (forall j : nat, (i < Z.of_nat j < list_n l)%Z ->
     exists c t a,
       list_c l !! j = Some c /\ list_ctype l !! j = Some t /\
       list_alpha l !! j = Some a /\
       survivor si d new_pos l0 c t a).

(** ** Reasoning principles *)

Lemma Qltb_lt (a b : Q) : (a <? b) = true <-> a < b.
Proof.
  unfold Qltb. rewrite negb_true_iff, <- not_true_iff_false, Qle_bool_iff.
  split; [apply Qnot_le_lt | apply Qlt_not_le].
Qed.

Lemma Qltb_ge (a b : Q) : (a <? b) = false <-> b <= a.
Proof.
  unfold Qltb. rewrite negb_false_iff. apply Qle_bool_iff.
Qed.

Lemma Qleb_gt (a b : Q) : (a <=? b) = false <-> b < a.
Proof.
  rewrite <- not_true_iff_false, Qle_bool_iff.
  split; [apply Qnot_le_lt | apply Qlt_not_le].
Qed.

(** Case analysis on a comparison of doubles, leaving its meaning in the
    context. *)
Ltac qcase a b :=
  let E := fresh "Hcmp" in
  destruct (Qltb a b) eqn:E;
  [apply Qltb_lt in E | apply Qltb_ge in E].

Ltac qcase_le a b :=
  let E := fresh "Hcmp" in
  destruct (Qle_bool a b) eqn:E;
  [apply Qle_bool_iff in E | apply Qleb_gt in E].

Lemma bind_Ret {A B : Type} (m : outcome A) (k : A -> outcome B) (b : B) :
  bind m k = Ret b -> exists a, m = Ret a /\ k a = Ret b.
Proof. destruct m; simpl; intros H; try discriminate. eauto. Qed.

Lemma rd_Ret {A : Type} (a : list A) (i : Z) (v : A) :
  rd a i = Ret v <-> (0 <= i)%Z /\ a !! Z.to_nat i = Some v.
Proof.
  unfold rd. destruct (Z.ltb_spec i 0).
  - split; [discriminate | lia].
  - destruct (a !! Z.to_nat i) eqn:E.
    + split; [intros [= ->]; auto | intros [_ [= ->]]; auto].
    + split; [discriminate | intros [_ [=]]].
Qed.

Lemma rd_nat {A : Type} (a : list A) (k : nat) (v : A) :
  a !! k = Some v -> rd a (Z.of_nat k) = Ret v.
Proof. intros H. apply rd_Ret. rewrite Nat2Z.id. split; [lia | done]. Qed.

Lemma rd_Undef {A : Type} (a : list A) (i : Z) :
  ~ (0 <= i < Z.of_nat (length a))%Z -> rd a i = Undef.
Proof.
  intros H. unfold rd. destruct (Z.ltb_spec i 0); [done |].
  rewrite (lookup_ge_None_2 a (Z.to_nat i)); [done | lia].
Qed.

Lemma rd_defined {A : Type} (a : list A) (i : Z) :
  (0 <= i < Z.of_nat (length a))%Z -> exists v, rd a i = Ret v.
Proof.
  intros H. destruct (lookup_lt_is_Some_2 a (Z.to_nat i)) as [v Hv]; [lia |].
  exists v. apply rd_Ret. split; [lia | done].
Qed.

Lemma wr_nat {A : Type} (a : list A) (k : nat) (v : A) :
  (k < length a)%nat -> wr a (Z.of_nat k) v = Ret (<[k := v]> a).
Proof.
  intros H. unfold wr. destruct (Z.ltb_spec (Z.of_nat k) 0); [lia |].
  rewrite Nat2Z.id. destruct (Nat.ltb_spec k (length a)); [done | lia].
Qed.

Lemma wr_Ret {A : Type} (a : list A) (i : Z) (v : A) :
  (0 <= i < Z.of_nat (length a))%Z -> wr a i v = Ret (<[Z.to_nat i := v]> a).
Proof.
  intros H. rewrite <- (Z2Nat.id i) at 1 by lia. apply wr_nat. lia.
Qed.

Lemma wr_Undef {A : Type} (a : list A) (i : Z) (v : A) :
  ~ (0 <= i < Z.of_nat (length a))%Z -> wr a i v = Undef.
Proof.
  intros H. unfold wr. destruct (Z.ltb_spec i 0); [done |].
  destruct (Nat.ltb_spec (Z.to_nat i) (length a)); [lia | done].
Qed.

(** Total correctness of a counted loop from an invariant indexed by the
    number of iterations done. *)
Lemma for_loop_inv {S : Type} (P : nat -> S -> Prop)
    (body : Z -> S -> outcome S) (n : nat) (i0 : Z) (s : S) :
  P 0%nat s ->
  (forall k t, (k < n)%nat -> P k t ->
     exists t', body (i0 + Z.of_nat k)%Z t = Ret t' /\ P (Datatypes.S k) t') ->
  exists t, for_loop body n i0 s = Ret t /\ P n t.
Proof.
  revert P i0 s. induction n as [|n IH]; intros P i0 s H0 Hstep.
  - exists s. split; [reflexivity | exact H0].
  - destruct (Hstep 0%nat s) as (s1 & Hb & H1); [lia | exact H0 |].
    rewrite Z.add_0_r in Hb.
    destruct (IH (fun k t => P (Datatypes.S k) t) (i0 + 1)%Z s1) as (t & Ht & HP).
    + exact H1.
    + intros k t Hk HPk. destruct (Hstep (Datatypes.S k) t) as (t' & Hb' & HP');
        [lia | exact HPk |].
      exists t'. split; [| exact HP'].
      rewrite <- Hb'. f_equal. lia.
    + exists t. split; [| exact HP]. simpl. rewrite Hb. simpl. exact Ht.
Qed.

Lemma for_upto_inv {S : Type} (P : nat -> S -> Prop)
    (body : Z -> S -> outcome S) (hi : Z) (s : S) :
  (0 <= hi)%Z ->
  P 0%nat s ->
  (forall k t, (Z.of_nat k < hi)%Z -> P k t ->
     exists t', body (Z.of_nat k) t = Ret t' /\ P (Datatypes.S k) t') ->
  exists t, for_upto 0 hi body s = Ret t /\ P (Z.to_nat hi) t.
Proof.
  intros Hhi H0 Hstep. unfold for_upto. rewrite Z.sub_0_r.
  apply for_loop_inv; [exact H0 |].
  intros k t Hk HP. rewrite Z.add_0_l. apply Hstep; [lia | exact HP].
Qed.

Lemma cells_coeff (c : DGG_constraint_t) (k : nat) :
  cells_ok c -> (Z.of_nat k < nz c)%Z -> exists a, coeff c !! k = Some a.
Proof.
  intros (_ & H & _) Hk. apply lookup_lt_is_Some_2. lia.
Qed.

Lemma cells_index (c : DGG_constraint_t) (k : nat) :
  cells_ok c -> (Z.of_nat k < nz c)%Z -> exists a, index c !! k = Some a.
Proof.
  intros (_ & _ & H) Hk. apply lookup_lt_is_Some_2. lia.
Qed.

(** ** The left-hand side and the two violation tests *)

Lemma DGG_cutLHS_defined (c : DGG_constraint_t) (xs : list Q) :
  cells_ok c -> indices_below c (length xs) ->
  exists lhs, DGG_cutLHS c xs = Ret lhs.
Proof.
  intros Hc Hi. unfold DGG_cutLHS.
  destruct (for_upto_inv (fun _ _ => True)
              (fun i lhs =>
                 do a <- rd (coeff c) i ;;
                 do idx <- rd (index c) i ;;
                 do xv <- rd xs idx ;;
                 Ret (lhs + a * xv)) (nz c) 0) as (t & Ht & _).
  - apply Hc.
  - exact I.
  - intros k t Hk _.
    destruct (cells_coeff c k Hc Hk) as [a Ha].
    destruct (cells_index c k Hc Hk) as [idx Hidx].
    destruct (rd_defined xs idx) as [xv Hxv]; [eapply Hi; eauto |].
    exists (t + a * xv). split; [| exact I].
    rewrite (rd_nat _ _ _ Ha). simpl. rewrite (rd_nat _ _ _ Hidx). simpl.
    rewrite Hxv. reflexivity.
  - eauto.
Qed.

Lemma DGG_isConstraintViolated_unfold (d : DGG_data_t) (c : DGG_constraint_t) :
  DGG_isConstraintViolated d c = (do _ <- DGG_cutLHS c (x d) ;; Ret 0%Z).
Proof.
  unfold DGG_isConstraintViolated. destruct (DGG_cutLHS c (x d)); simpl; auto.
  repeat match goal with |- context [if ?b then _ else _] => destruct b end;
    reflexivity.
Qed.

(** C8. [DGG_isConstraintViolated] returns 0 for every Snapshot and every
    constraint, whatever the sense and whatever the relation between the
    two sides: on a constraint whose cells exist and whose indices lie in
    the range of the Snapshot it returns, and its result is 0; and no run
    of it returns anything else. *)
Theorem DGG_isConstraintViolated_always_0 (d : DGG_data_t) (c : DGG_constraint_t) :
  (forall r, DGG_isConstraintViolated d c = Ret r -> r = 0%Z) /\
  (cells_ok c -> indices_below c (length (x d)) ->
   DGG_isConstraintViolated d c = Ret 0%Z).
Proof.
  rewrite DGG_isConstraintViolated_unfold. split.
  - intros r H. apply bind_Ret in H as (_ & _ & [= <-]). reflexivity.
  - intros Hc Hi. destruct (DGG_cutLHS_defined c (x d) Hc Hi) as [lhs ->].
    reflexivity.
Qed.

Lemma is_sense_true (c : DGG_constraint_t) (s : ascii) :
  is_sense c s = true <-> sense c = s.
Proof. apply Ascii.eqb_eq. Qed.

Lemma is_sense_false (c : DGG_constraint_t) (s : ascii) :
  is_sense c s = false <-> sense c <> s.
Proof. apply Ascii.eqb_neq. Qed.

(** C5, as the code has it. For a cut whose left-hand side at the
    Snapshot point is [lhs], [DGG_isCutDesirable] returns 1 or 0, and it
    returns 1 exactly when the cut has at most 500 nonzeros and: a '>='
    cut has [lhs <= rhs - tol], a '<=' cut has [lhs >= rhs + tol], an '='
    cut has [|lhs - rhs| >= tol].  The comparisons of the source reject on
    a strict inequality, so a cut on the boundary is accepted. *)
Theorem DGG_isCutDesirable_rule (c : DGG_constraint_t) (d : DGG_data_t) (lhs : Q) :
  DGG_cutLHS c (x d) = Ret lhs ->
  (DGG_isCutDesirable c d = Ret 1%Z \/ DGG_isCutDesirable c d = Ret 0%Z) /\
  (DGG_isCutDesirable c d = Ret 1%Z <->
     (nz c <= 500)%Z /\
     (sense c = "G"%char -> lhs <= rhs c - DGG_NULL_SLACK) /\
     (sense c = "L"%char -> rhs c + DGG_NULL_SLACK <= lhs) /\
     (sense c = "E"%char -> DGG_NULL_SLACK <= Qabs (lhs - rhs c))).
Proof.
  intros Hl. unfold DGG_isCutDesirable. rewrite Hl. cbn [bind]. unfold fabs.
  destruct (Z.gtb_spec (nz c) 500).
  { split; [right; reflexivity |]. split; [discriminate | lia]. }
  unfold is_sense. destruct c as [n m co ix r s]; cbn [nz rhs sense] in *.
  destruct (Ascii.eqb_spec s "G") as [->|HG]; cbn [andb].
  { qcase (r - DGG_NULL_SLACK) lhs; (split; [auto |]); split;
      try discriminate; try reflexivity.
    - intros (_ & HH & _). specialize (HH eq_refl). exfalso. lra.
    - intros _. repeat split; try lia; try discriminate. intros _. lra. }
  destruct (Ascii.eqb_spec s "L") as [->|HL]; cbn [andb].
  { qcase lhs (r + DGG_NULL_SLACK); (split; [auto |]); split;
      try discriminate; try reflexivity.
    - intros (_ & _ & HH & _). specialize (HH eq_refl). exfalso. lra.
    - intros _. repeat split; try lia; try discriminate. intros _. lra. }
  destruct (Ascii.eqb_spec s "E") as [->|HE]; cbn [andb].
  { qcase (Qabs (lhs - r)) DGG_NULL_SLACK; (split; [auto |]); split;
      try discriminate; try reflexivity.
    - intros (_ & _ & _ & HH). specialize (HH eq_refl). exfalso. lra.
    - intros _. repeat split; try lia; try discriminate. intros _. lra. }
  split; [auto |]. split; [| reflexivity].
  intros _. repeat split; try lia; intros; congruence.
Qed.

(** ** The two builders *)

Lemma ABOV_nonneg (v : Q) : 0 <= ABOV v.
Proof. unfold ABOV, floor. pose proof (Qfloor_le v). lra. Qed.

Lemma DGG_MIN_Qmin (a b : Q) : DGG_MIN a b == Qmin a b.
Proof.
  unfold DGG_MIN. qcase a b.
  - rewrite Q.min_l; [reflexivity | lra].
  - rewrite Q.min_r; [reflexivity | lra].
Qed.

Lemma coeff_set_nat (c : DGG_constraint_t) (k : nat) (v : Q) :
  (k < length (coeff c))%nat ->
  coeff_set c (Z.of_nat k) v = Ret (set_coeff c (<[k := v]> (coeff c))).
Proof. intros H. unfold coeff_set. rewrite wr_nat by exact H. reflexivity. Qed.

Lemma index_set_nat (c : DGG_constraint_t) (k : nat) (v : Z) :
  (k < length (index c))%nat ->
  index_set c (Z.of_nat k) v =
  Ret (mkConstraint (nz c) (max_nz c) (coeff c) (<[k := v]> (index c))
         (rhs c) (sense c)).
Proof. intros H. unfold index_set. rewrite wr_nat by exact H. reflexivity. Qed.

Lemma buildMir_step_fill (isint : list bool) (base : DGG_constraint_t)
    (bht : Q) (i : Z) (st : DGG_constraint_t * Z) :
  buildMir_step isint base bht i st = fill_step (mir_coeff bht) isint base i st.
Proof.
  unfold buildMir_step, fill_step, mir_coeff. destruct st as [tmir lnz].
  destruct (rd (coeff base) i) as [v| |]; cbn [bind]; try reflexivity.
  destruct (rd isint i) as [flag| |]; cbn [bind]; try reflexivity.
  destruct flag; cbn [negb].
  - qcase (ABOV v) 0; [| reflexivity].
    pose proof (ABOV_nonneg v). lra.
  - destruct (v >? 0); reflexivity.
Qed.

Lemma build2step_step_fill (alpha : Q) (isint : list bool)
    (base : DGG_constraint_t) (rho tau : Q) (i : Z)
    (st : DGG_constraint_t * Z) :
  build2step_step alpha isint base rho tau i st =
  fill_step (twostep_coeff alpha rho tau) isint base i st.
Proof.
  unfold build2step_step, fill_step, twostep_coeff. destruct st as [tmir lnz].
  destruct (rd (coeff base) i) as [v| |]; cbn [bind]; try reflexivity.
  destruct (rd isint i) as [flag| |]; cbn [bind]; try reflexivity.
  destruct flag; cbn [negb].
  - qcase (v - floor v) 0; [| reflexivity].
    pose proof (ABOV_nonneg v) as H. unfold ABOV in H. lra.
  - destruct (v >? 0); reflexivity.
Qed.

Lemma for_loop_ext {S : Type} (f g : Z -> S -> outcome S) (n : nat) (i : Z) (s : S) :
  (forall j t, f j t = g j t) -> for_loop f n i s = for_loop g n i s.
Proof.
  intros H. revert i s. induction n as [|n IH]; intros i s; [reflexivity |].
  simpl. rewrite H. destruct (g i s); simpl; auto.
Qed.

Lemma for_upto_ext {S : Type} (f g : Z -> S -> outcome S) (lo hi : Z) (s : S) :
  (forall j t, f j t = g j t) -> for_upto lo hi f s = for_upto lo hi g s.
Proof. intros H. unfold for_upto. apply for_loop_ext. exact H. Qed.

(** One iteration of a builder extends the filled prefix by one cell. *)
Lemma fill_step_filled (F : bool -> Q -> Q) (isint : list bool)
    (base t0 : DGG_constraint_t) (k : nat) (st : DGG_constraint_t * Z) :
  cells_ok base ->
  (nz base <= Z.of_nat (length isint))%Z ->
  Z.of_nat (length (coeff t0)) = nz base ->
  Z.of_nat (length (index t0)) = nz base ->
  (Z.of_nat k < nz base)%Z ->
  filled F isint base t0 k st ->
  exists st', fill_step F isint base (Z.of_nat k) st = Ret st' /\
              filled F isint base t0 (Datatypes.S k) st'.
Proof.
  intros Hc Hi Hlc Hli Hk. destruct st as [tmir lnz].
  intros (Hl & Hnz & Hmx & Hr & Hs & Hlen1 & Hlen2 & Hpre). cbn [fst snd] in *.
  subst lnz.
  destruct (cells_coeff base k Hc Hk) as [v Hv].
  destruct (cells_index base k Hc Hk) as [idx Hidx].
  destruct (lookup_lt_is_Some_2 isint k) as [flag Hflag]; [lia |].
  unfold fill_step.
  rewrite (rd_nat _ _ _ Hv). cbn [bind].
  rewrite (rd_nat _ _ _ Hflag). cbn [bind].
  rewrite coeff_set_nat by lia. cbn [bind].
  rewrite (rd_nat _ _ _ Hidx). cbn [bind].
  rewrite index_set_nat by (cbn [set_coeff index]; lia). cbn [bind].
  eexists. split; [reflexivity |].
  unfold filled. cbn [fst snd set_coeff nz max_nz rhs sense coeff index].
  rewrite !length_insert.
  repeat split; try assumption; try lia.
  intros j Hj. destruct (decide (j = k)) as [->|Hne].
  - exists v, flag, idx. repeat split; try assumption.
    + apply list_lookup_insert_eq. lia.
    + apply list_lookup_insert_eq. lia.
  - destruct (Hpre j) as (v' & f' & i' & H1 & H2 & H3 & H4 & H5); [lia |].
    exists v', f', i'. repeat split; try assumption.
    + rewrite list_lookup_insert_ne by auto. exact H4.
    + rewrite list_lookup_insert_ne by auto. exact H5.
Qed.

Lemma fill_loop (F : bool -> Q -> Q) (isint : list bool)
    (base t0 : DGG_constraint_t) :
  cells_ok base ->
  (nz base <= Z.of_nat (length isint))%Z ->
  Z.of_nat (length (coeff t0)) = nz base ->
  Z.of_nat (length (index t0)) = nz base ->
  exists st, for_upto 0 (nz base) (fill_step F isint base) (t0, 0%Z) = Ret st /\
             filled F isint base t0 (Z.to_nat (nz base)) st.
Proof.
  intros Hc Hi Hlc Hli.
  apply (for_upto_inv (filled F isint base t0)).
  - apply Hc.
  - unfold filled. cbn [fst snd]. repeat split; try reflexivity. intros j Hj. lia.
  - intros k t Hk HP. eapply fill_step_filled; eauto.
Qed.

Lemma DGG_newConstraint_pos (m : Z) :
  (0 < m)%Z ->
  DGG_newConstraint m =
  Some (mkConstraint 0 m (malloc 0 m) (malloc 0%Z m) 0 "?").
Proof. intros H. unfold DGG_newConstraint. destruct (Z.leb_spec m 0); [lia | done]. Qed.

Lemma length_malloc {A : Type} (v : A) (m : Z) :
  (0 <= m)%Z -> Z.of_nat (length (malloc v m)) = m.
Proof. intros H. unfold malloc. rewrite length_replicate. lia. Qed.

(** C1. [DGG_buildMir] on a base constraint whose sense is not '<=' and
    that has at least one nonzero, with one integrality flag per variable:
    the routine returns 0 and a '>=' cut with as many terms as the base,
    whose rhs is [f * ceil(b)] for [f = b - floor(b)], whose variable
    indices are those of the base, whose coefficient for a continuous
    variable is the base coefficient when that is positive and 0 otherwise,
    and whose coefficient for an integer variable with base coefficient
    [c] is [f * floor(c) + min(f, c - floor(c))]. *)
Theorem DGG_buildMir_cut (isint : list bool) (base : DGG_constraint_t) :
  sense base <> "L"%char ->
  nz base <> 0%Z ->
  cells_ok base ->
  (nz base <= Z.of_nat (length isint))%Z ->
  let b := rhs base in
  let f := b - floor b in
  exists cut,
    DGG_buildMir isint base = Ret (0%Z, Some cut) /\
    sense cut = "G"%char /\
    rhs cut == f * ceil b /\
    nz cut = nz base /\
    forall i : nat, (Z.of_nat i < nz base)%Z ->
      exists c flag idx c',
        coeff base !! i = Some c /\ isint !! i = Some flag /\
        index base !! i = Some idx /\
        index cut !! i = Some idx /\
        coeff cut !! i = Some c' /\
        (flag = false -> 0 < c -> c' == c) /\
        (flag = false -> c <= 0 -> c' == 0) /\
        (flag = true -> c' == f * floor c + Qmin f (c - floor c)).
Proof.
  intros Hs Hnz Hc Hi b f.
  assert (Hpos : (0 < nz base)%Z) by (destruct Hc; lia).
  unfold DGG_buildMir.
  apply is_sense_false in Hs. rewrite Hs.
  destruct (Z.eqb_spec (nz base) 0) as [|_]; [contradiction |].
  rewrite DGG_newConstraint_pos by exact Hpos.
  set (t0 := set_rhs (set_sense _ "G") _).
  rewrite (for_upto_ext _ (fill_step (mir_coeff (ABOV (rhs base))) isint base))
    by (intros; apply buildMir_step_fill).
  destruct (fill_loop (mir_coeff (ABOV (rhs base))) isint base t0 Hc Hi)
    as ([tmir lnz] & Hloop & HP).
  { subst t0. cbn [set_rhs set_sense coeff]. apply length_malloc. lia. }
  { subst t0. cbn [set_rhs set_sense index]. apply length_malloc. lia. }
  rewrite Hloop. cbn [bind].
  destruct HP as (Hl & _ & _ & Hr & Hse & _ & _ & Hpre). cbn [fst snd] in *.
  exists (set_nz tmir lnz). split; [reflexivity |].
  cbn [set_nz sense rhs nz coeff index].
  split; [rewrite Hse; reflexivity |].
  split; [rewrite Hr; subst t0; cbn [set_rhs rhs]; reflexivity |].
  split; [lia |].
  intros i Hlt. destruct (Hpre i) as (v & flag & idx & H1 & H2 & H3 & H4 & H5);
    [lia |].
  exists v, flag, idx, (mir_coeff (ABOV (rhs base)) flag v).
  repeat split; try assumption.
  - intros -> Hv. unfold mir_coeff. cbn [negb].
    qcase 0 v; [reflexivity | lra].
  - intros -> Hv. unfold mir_coeff. cbn [negb].
    qcase 0 v; [lra | reflexivity].
  - intros ->. unfold mir_coeff. cbn [negb].
    rewrite DGG_MIN_Qmin. reflexivity.
Qed.



(** ** The admissibility test of the two-step split *)

Lemma DGG_is_a_multiple_of_b_0 (a b : Q) :
  DGG_is_a_multiple_of_b a b = 0%Z <-> DGG_MIN_RHO <= b - a * floor (b / a).
Proof.
  unfold DGG_is_a_multiple_of_b.
  qcase (b - a * floor (b / a)) DGG_MIN_RHO.
  - split; [discriminate | intros; lra].
  - split; [intros; assumption | reflexivity].
Qed.




(** ** The transformation and its inverse *)

Lemma rd_cell (l : list Q) (i : Z) (v : Q) : rd l i = Ret v -> cell l i = v.
Proof.
  intros H. apply rd_Ret in H as [_ H]. unfold cell.
  rewrite nth_lookup, H. reflexivity.
Qed.

Lemma data_reads (d : DGG_data_t) (idx : Z) :
  data_ok d -> (0 <= idx < ncol d + nrow d)%Z ->
  rd (x d) idx = Ret (cell (x d) idx) /\
  rd (rc d) idx = Ret (cell (rc d) idx) /\
  rd (ub d) idx = Ret (cell (ub d) idx) /\
  rd (lb d) idx = Ret (cell (lb d) idx) /\
  exists w, rd (info d) idx = Ret w.
Proof.
  intros (_ & _ & Hi & Hl & Hu & Hx & Hr) Hidx.
  destruct (rd_defined (x d) idx) as [v1 H1]; [lia |].
  destruct (rd_defined (rc d) idx) as [v2 H2]; [lia |].
  destruct (rd_defined (ub d) idx) as [v3 H3]; [lia |].
  destruct (rd_defined (lb d) idx) as [v4 H4]; [lia |].
  destruct (rd_defined (info d) idx) as [v5 H5]; [lia |].
  rewrite (rd_cell _ _ _ H1), (rd_cell _ _ _ H2), (rd_cell _ _ _ H3),
    (rd_cell _ _ _ H4). eauto 10.
Qed.

Lemma nth_Some {A : Type} (l : list A) (j : nat) (v dflt : A) :
  l !! j = Some v -> nth j l dflt = v.
Proof. intros H. rewrite nth_lookup, H. reflexivity. Qed.

Lemma untransform_step_shifted (d : DGG_data_t) (c0 c : DGG_constraint_t) (k : nat) :
  data_ok d -> cells_ok c0 ->
  indices_below c0 (Z.to_nat (ncol d + nrow d)) ->
  (Z.of_nat k < nz c0)%Z ->
  shifted (unshift_rhs d) d c0 k c ->
  exists c', untransform_step d (Z.of_nat k) c = Ret c' /\
             shifted (unshift_rhs d) d c0 (Datatypes.S k) c'.
Proof.
  intros Hd Hc Hi Hk (Hnz & Hmx & Hix & Hs & Hlen & Hr & Hlo & Hhi).
  destruct (cells_coeff c0 k Hc Hk) as [a Ha].
  destruct (cells_index c0 k Hc Hk) as [idx Hidx].
  assert (Hin : (0 <= idx < ncol d + nrow d)%Z).
  { pose proof (Hi k idx Hk Hidx). destruct Hd. lia. }
  destruct (data_reads d idx Hd Hin) as (Hx & _ & Hu & Hl & _).
  assert (Hak : coeff c !! k = Some a) by (rewrite Hhi by lia; exact Ha).
  assert (Hlt : (k < length (coeff c))%nat)
    by (apply lookup_lt_is_Some_1; eauto).
  unfold untransform_step. rewrite Hix, (rd_nat _ _ _ Hidx). cbn [bind].
  rewrite Hu, Hl, Hx. cbn [bind].
  fold (upper_side d idx).
  assert (Hrhs : rhs_after (unshift_rhs d) (coeff c0) (index c0) (rhs c0) (Datatypes.S k)
                 = unshift_rhs d idx a (rhs c)).
  { cbn [rhs_after]. rewrite (nth_Some _ _ _ _ Ha), (nth_Some _ _ _ _ Hidx), Hr.
    reflexivity. }
  destruct (upper_side d idx) eqn:Hup.
  - rewrite (rd_nat _ _ _ Hak). cbn [bind set_rhs coeff].
    rewrite (rd_nat _ _ _ Hak). cbn [bind].
    rewrite coeff_set_nat by (cbn [set_rhs coeff]; exact Hlt).
    eexists. split; [reflexivity |].
    unfold shifted. cbn [set_coeff set_rhs nz max_nz index sense coeff rhs].
    rewrite length_insert, Hrhs. unfold unshift_rhs. rewrite Hup.
    repeat split; try assumption.
    + intros j Hj. destruct (decide (j = k)) as [->|Hne].
      * rewrite list_lookup_insert_eq by exact Hlt.
        rewrite (nth_Some _ _ _ _ Ha), (nth_Some _ _ _ _ Hidx).
        unfold flip. rewrite Hup. reflexivity.
      * rewrite list_lookup_insert_ne by auto. apply Hlo. lia.
    + intros j Hj. rewrite list_lookup_insert_ne by lia. apply Hhi. lia.
  - rewrite (rd_nat _ _ _ Hak). cbn [bind].
    eexists. split; [reflexivity |].
    unfold shifted. cbn [set_rhs nz max_nz index sense coeff rhs].
    rewrite Hrhs. unfold unshift_rhs. rewrite Hup.
    repeat split; try assumption.
    + intros j Hj. destruct (decide (j = k)) as [->|Hne].
      * rewrite Hak, (nth_Some _ _ _ _ Ha), (nth_Some _ _ _ _ Hidx).
        unfold flip. rewrite Hup. reflexivity.
      * apply Hlo. lia.
    + intros j Hj. apply Hhi. lia.
Qed.

Lemma shifted_start (G : Z -> Q -> Q -> Q) (d : DGG_data_t) (c0 : DGG_constraint_t) :
  shifted G d c0 0 c0.
Proof. unfold shifted. repeat split; try reflexivity. intros j Hj. lia. Qed.

Lemma untransform_loop (d : DGG_data_t) (c0 : DGG_constraint_t) :
  data_ok d -> cells_ok c0 ->
  indices_below c0 (Z.to_nat (ncol d + nrow d)) ->
  exists c, DGG_unTransformConstraint d c0 = Ret (0%Z, c) /\
            shifted (unshift_rhs d) d c0 (Z.to_nat (nz c0)) c.
Proof.
  intros Hd Hc Hi. unfold DGG_unTransformConstraint.
  destruct (for_upto_inv (shifted (unshift_rhs d) d c0) (untransform_step d)
              (nz c0) c0) as (c & Hloop & HP).
  - apply Hc.
  - apply shifted_start.
  - intros k t Hk HP. eapply untransform_step_shifted; eauto.
  - rewrite Hloop. cbn [bind]. eauto.
Qed.

Lemma transform_step_shifted (d : DGG_data_t) (c0 c : DGG_constraint_t)
    (o : transform_out) (k : nat) :
  data_ok d -> cells_ok c0 -> (nz c0 <= max_nz c0)%Z ->
  indices_below c0 (Z.to_nat (ncol d + nrow d)) ->
  (Z.of_nat k < nz c0)%Z ->
  outputs_ok (max_nz c0) o /\ shifted (shift_rhs d) d c0 k c ->
  exists o' c', transform_step d (Z.of_nat k) (o, c) = Ret (o', c') /\
    outputs_ok (max_nz c0) o' /\
    shifted (shift_rhs d) d c0 (Datatypes.S k) c'.
Proof.
  intros Hd Hc Hcap Hi Hk ((Ho1 & Ho2 & Ho3) &
    (Hnz & Hmx & Hix & Hs & Hlen & Hr & Hlo & Hhi)).
  destruct (cells_coeff c0 k Hc Hk) as [a Ha].
  destruct (cells_index c0 k Hc Hk) as [idx Hidx].
  assert (Hin : (0 <= idx < ncol d + nrow d)%Z).
  { pose proof (Hi k idx Hk Hidx). destruct Hd. lia. }
  destruct (data_reads d idx Hd Hin) as (Hx & Hrc & Hu & Hl & w & Hw).
  assert (Hak : coeff c !! k = Some a) by (rewrite Hhi by lia; exact Ha).
  assert (Hlt : (k < length (coeff c))%nat)
    by (apply lookup_lt_is_Some_1; eauto).
  assert (Hrhs : rhs_after (shift_rhs d) (coeff c0) (index c0) (rhs c0) (Datatypes.S k)
                 = shift_rhs d idx a (rhs c)).
  { cbn [rhs_after]. rewrite (nth_Some _ _ _ _ Ha), (nth_Some _ _ _ _ Hidx), Hr.
    reflexivity. }
  unfold transform_step. rewrite Hix, (rd_nat _ _ _ Hidx). cbn [bind].
  rewrite Hx. cbn [bind]. rewrite wr_nat by lia. cbn [bind].
  rewrite Hrc. cbn [bind]. rewrite wr_nat by lia. cbn [bind].
  unfold DGG_isInteger. rewrite Hw. cbn [bind]. rewrite wr_nat by lia.
  cbn [bind]. rewrite Hu, Hl. cbn [bind].
  fold (upper_side d idx).
  destruct (upper_side d idx) eqn:Hup.
  - rewrite wr_nat by (rewrite length_insert; lia). cbn [bind].
    rewrite (rd_nat _ _ (cell (ub d) idx - cell (x d) idx))
      by (apply list_lookup_insert_eq; rewrite length_insert; lia).
    cbn [bind].
    destruct (fabs _ <=? DGG_BOUND_THRESH);
      [rewrite wr_nat by (rewrite !length_insert; lia) |]; cbn [bind];
      rewrite (rd_nat _ _ _ Hak); cbn [bind set_rhs coeff];
      rewrite (rd_nat _ _ _ Hak); cbn [bind];
      rewrite coeff_set_nat by (cbn [coeff]; exact Hlt); cbn [bind];
      (do 2 eexists; split; [reflexivity |]; split;
       [unfold outputs_ok; cbn [x_out rc_out isint_out];
        rewrite !length_insert; auto |]).
    all: unfold shifted; cbn [set_coeff set_rhs nz max_nz index sense coeff rhs];
      rewrite length_insert, Hrhs; unfold shift_rhs; rewrite Hup;
      repeat split; try assumption.
    all: intros j Hj; destruct (decide (j = k)) as [->|Hne];
      try (rewrite list_lookup_insert_ne by lia; first [apply Hlo | apply Hhi]; lia);
      try lia.
    all: rewrite list_lookup_insert_eq by exact Hlt;
      rewrite (nth_Some _ _ _ _ Ha), (nth_Some _ _ _ _ Hidx);
      unfold flip; rewrite Hup; reflexivity.
  - rewrite wr_nat by (rewrite length_insert; lia). cbn [bind].
    rewrite (rd_nat _ _ (cell (x d) idx - cell (lb d) idx))
      by (apply list_lookup_insert_eq; rewrite length_insert; lia).
    cbn [bind].
    destruct (fabs _ <=? DGG_BOUND_THRESH);
      [rewrite wr_nat by (rewrite !length_insert; lia) |]; cbn [bind];
      rewrite (rd_nat _ _ _ Hak); cbn [bind];
      (do 2 eexists; split; [reflexivity |]; split;
       [unfold outputs_ok; cbn [x_out rc_out isint_out];
        rewrite !length_insert; auto |]).
    all: unfold shifted; cbn [set_rhs nz max_nz index sense coeff rhs];
      rewrite Hrhs; unfold shift_rhs; rewrite Hup;
      repeat split; try assumption.
    all: intros j Hj; destruct (decide (j = k)) as [->|Hne];
      try (first [apply Hlo | apply Hhi]; lia); try lia.
    all: rewrite Hak, (nth_Some _ _ _ _ Ha), (nth_Some _ _ _ _ Hidx);
      unfold flip; rewrite Hup; reflexivity.
Qed.

Lemma shifted_cells (G : Z -> Q -> Q -> Q) (d : DGG_data_t)
    (c0 c : DGG_constraint_t) (k m : nat) :
  shifted G d c0 k c -> cells_ok c0 -> indices_below c0 m ->
  cells_ok c /\ indices_below c m.
Proof.
  intros (Hnz & _ & Hix & _ & Hlen & _) (H0 & H1 & H2) Hi.
  unfold cells_ok, indices_below. rewrite Hnz, Hix, Hlen. auto.
Qed.





(** ** The clean-up pass *)

Lemma mapped_start (F : Z -> Q -> Q) (c0 : DGG_constraint_t) : mapped F c0 0 c0.
Proof. unfold mapped. repeat split; try reflexivity. intros j Hj. lia. Qed.

(** A step that overwrites cell [k] with [F idx a] extends the mapped
    prefix. *)
Lemma mapped_step (F : Z -> Q -> Q) (c0 c c' : DGG_constraint_t) (k : nat)
    (a : Q) (idx : Z) :
  mapped F c0 k c ->
  coeff c0 !! k = Some a -> index c0 !! k = Some idx ->
  nz c' = nz c -> max_nz c' = max_nz c -> index c' = index c ->
  sense c' = sense c ->
  coeff c' = <[k := F idx a]> (coeff c) ->
  mapped F c0 (Datatypes.S k) c'.
Proof.
  intros (Hnz & Hmx & Hix & Hs & Hlen & Hlo & Hhi) Ha Hidx H1 H2 H3 H4 H5.
  assert (Hlt : (k < length (coeff c))%nat).
  { rewrite Hlen. apply lookup_lt_is_Some_1. eauto. }
  unfold mapped. rewrite H1, H2, H3, H4, H5, length_insert.
  repeat split; try assumption.
  - intros j Hj. destruct (decide (j = k)) as [->|Hne].
    + rewrite list_lookup_insert_eq by exact Hlt.
      rewrite (nth_Some _ _ _ _ Ha), (nth_Some _ _ _ _ Hidx). reflexivity.
    + rewrite list_lookup_insert_ne by auto. apply Hlo. lia.
  - intros j Hj. rewrite list_lookup_insert_ne by lia. apply Hhi. lia.
Qed.

Lemma mapped_cells (F : Z -> Q -> Q) (c0 c : DGG_constraint_t) (k m : nat) :
  mapped F c0 k c -> cells_ok c0 -> indices_below c0 m ->
  cells_ok c /\ indices_below c m.
Proof.
  intros (Hnz & _ & Hix & _ & Hlen & _) (H0 & H1 & H2) Hi.
  unfold cells_ok, indices_below. rewrite Hnz, Hix, Hlen. auto.
Qed.

Lemma nicefy_noise_step_eq (c : DGG_constraint_t) (k : nat) (a : Q) :
  coeff c !! k = Some a ->
  exists c', nicefy_noise_step (Z.of_nat k) c = Ret c' /\
    nz c' = nz c /\ max_nz c' = max_nz c /\ index c' = index c /\
    sense c' = sense c /\ rhs c' = rhs c /\
    coeff c' = <[k := noise a]> (coeff c).
Proof.
  intros Ha.
  assert (Hlt : (k < length (coeff c))%nat) by (apply lookup_lt_is_Some_1; eauto).
  unfold nicefy_noise_step, noise. rewrite (rd_nat _ _ _ Ha). cbn [bind].
  destruct (fabs a <? DGG_NICEFY_MIN_ABSVALUE).
  - rewrite coeff_set_nat by exact Hlt. eexists. split; [reflexivity |].
    cbn. auto 10.
  - eexists. split; [reflexivity |]. rewrite list_insert_id by exact Ha. auto 10.
Qed.

Lemma nicefy_step_eq (d : DGG_data_t) (c : DGG_constraint_t) (mn mx : Q)
    (k : nat) (a : Q) (idx : Z) :
  data_ok d -> (0 <= idx < ncol d + nrow d)%Z ->
  coeff c !! k = Some a -> index c !! k = Some idx ->
  exists c' mn' mx',
    nicefy_step d (Z.of_nat k) (c, mn, mx) = Ret (c', mn', mx') /\
    nz c' = nz c /\ max_nz c' = max_nz c /\ index c' = index c /\
    sense c' = sense c /\
    coeff c' = <[k := nice d idx a]> (coeff c).
Proof.
  intros Hd Hin Ha Hidx.
  assert (Hlt : (k < length (coeff c))%nat) by (apply lookup_lt_is_Some_1; eauto).
  destruct (data_reads d idx Hd Hin) as (_ & _ & Hu & _ & w & Hw).
  assert (Hwn : nth (Z.to_nat idx) (info d) 0%Z = w).
  { apply rd_Ret in Hw as [_ Hw]. apply nth_Some. exact Hw. }
  unfold nicefy_step, nice, DGG_isInteger.
  rewrite (rd_nat _ _ _ Hidx). cbn [bind]. rewrite Hw, Hwn. cbn [bind].
  destruct (integer_flag w).
  - unfold nice_int. rewrite (rd_nat _ _ _ Ha). cbn [bind]. rewrite Hu.
    cbn [bind].
    destruct (ABOV a <? DGG_NICEFY_MIN_FIX).
    + rewrite coeff_set_nat by exact Hlt. cbn [bind].
      destruct (ABOV a * cell (ub d) idx <? DGG_NICEFY_MAX_PADDING).
      * cbn [bind set_rhs set_coeff coeff].
        rewrite (rd_nat _ _ (floor a)) by (apply list_lookup_insert_eq; exact Hlt).
        cbn [bind]. do 3 eexists. split; [reflexivity |]. cbn. auto 10.
      * cbn [set_coeff coeff].
        rewrite (rd_nat _ _ (floor a)) by (apply list_lookup_insert_eq; exact Hlt).
        cbn [bind].
        rewrite coeff_set_nat
          by (cbn [coeff set_coeff]; rewrite length_insert; exact Hlt).
        cbn [bind set_coeff coeff].
        rewrite (rd_nat _ _ (floor a + DGG_NICEFY_MIN_FIX))
          by (apply list_lookup_insert_eq; rewrite length_insert; exact Hlt).
        cbn [bind]. do 3 eexists. split; [reflexivity |].
        cbn [nz max_nz index sense coeff]. rewrite list_insert_insert_eq.
        auto 10.
    + destruct (1 - ABOV a <? DGG_NICEFY_MIN_FIX).
      * rewrite coeff_set_nat by exact Hlt. cbn [bind set_coeff coeff].
        rewrite (rd_nat _ _ (ceil a)) by (apply list_lookup_insert_eq; exact Hlt).
        cbn [bind]. do 3 eexists. split; [reflexivity |]. cbn. auto 10.
      * cbn [bind]. rewrite (rd_nat _ _ _ Ha). cbn [bind].
        do 3 eexists. split; [reflexivity |].
        rewrite list_insert_id by exact Ha. auto 10.
  - unfold nice_cont. rewrite (rd_nat _ _ _ Ha). cbn [bind].
    destruct (a <? DGG_NICEFY_MIN_ABSVALUE).
    + rewrite coeff_set_nat by exact Hlt. cbn [bind set_coeff coeff].
      rewrite (rd_nat _ _ 0) by (apply list_lookup_insert_eq; exact Hlt).
      cbn [bind]. do 3 eexists. split; [reflexivity |]. cbn. auto 10.
    + destruct (a <? DGG_NICEFY_MIN_FIX).
      * rewrite Hu. cbn [bind].
        destruct (a * cell (ub d) idx <? DGG_NICEFY_MAX_PADDING).
        -- rewrite coeff_set_nat by exact Hlt. cbn [bind set_rhs set_coeff coeff].
           rewrite (rd_nat _ _ 0) by (apply list_lookup_insert_eq; exact Hlt).
           cbn [bind]. do 3 eexists. split; [reflexivity |]. cbn. auto 10.
        -- rewrite coeff_set_nat by exact Hlt. cbn [bind set_coeff coeff].
           rewrite (rd_nat _ _ DGG_NICEFY_MIN_FIX)
             by (apply list_lookup_insert_eq; exact Hlt).
           cbn [bind]. do 3 eexists. split; [reflexivity |]. cbn. auto 10.
      * cbn [bind]. rewrite (rd_nat _ _ _ Ha). cbn [bind].
        do 3 eexists. split; [reflexivity |].
        rewrite list_insert_id by exact Ha. auto 10.
Qed.

(** What an accepted constraint becomes. *)
Lemma DGG_nicefyConstraint_mapped (d : DGG_data_t) (cut : DGG_constraint_t) :
  data_ok d -> cells_ok cut ->
  indices_below cut (Z.to_nat (ncol d + nrow d)) ->
  sense cut <> "L"%char ->
  exists cut',
    DGG_nicefyConstraint d cut = Ret (0%Z, cut') /\
    sense cut' = "G"%char /\
    nz cut' = nz cut /\ max_nz cut' = max_nz cut /\ index cut' = index cut /\
    length (coeff cut') = length (coeff cut) /\
    (forall j : nat, (j < Z.to_nat (nz cut))%nat ->
       coeff cut' !! j =
       Some (nicefied d (nth j (index cut) 0%Z) (nth j (coeff cut) 0))) /\
    (forall j : nat, (Z.to_nat (nz cut) <= j)%nat ->
       coeff cut' !! j = coeff cut !! j).
Proof.
  intros Hd Hc Hi Hs. unfold DGG_nicefyConstraint.
  apply is_sense_false in Hs. rewrite Hs.
  destruct (for_upto_inv (mapped (fun _ => noise) cut) nicefy_noise_step
              (nz cut) cut) as (c1 & Hloop1 & HP1).
  { apply Hc. }
  { apply mapped_start. }
  { intros k t Hk HP.
    destruct (cells_coeff cut k Hc Hk) as [a Ha].
    destruct (cells_index cut k Hc Hk) as [idx Hidx].
    assert (Hak : coeff t !! k = Some a).
    { destruct HP as (_ & _ & _ & _ & _ & _ & Hhi). rewrite Hhi by lia. exact Ha. }
    destruct (nicefy_noise_step_eq t k a Hak)
      as (c' & Hstep & H1 & H2 & H3 & H4 & _ & H5).
    exists c'. split; [exact Hstep |].
    eapply (mapped_step (fun _ => noise)); eauto. }
  rewrite Hloop1. cbn [bind].
  destruct (mapped_cells _ cut c1 _ _ HP1 Hc Hi) as [Hc1 Hi1].
  destruct HP1 as (Hnz1 & Hmx1 & Hix1 & Hs1 & Hlen1 & Hlo1 & Hhi1).
  destruct (for_upto_inv (fun k st => mapped (nice d) c1 k (fst (fst st)))
              (nicefy_step d) (nz c1) (c1, DBL_MAX, DBL_MIN))
    as ([[c2 mn] mx] & Hloop2 & HP2).
  { apply Hc1. }
  { apply mapped_start. }
  { intros k [[t mn] mx] Hk HP. cbn [fst] in HP.
    destruct (cells_coeff c1 k Hc1 Hk) as [a Ha].
    destruct (cells_index c1 k Hc1 Hk) as [idx Hidx].
    assert (Hak : coeff t !! k = Some a).
    { destruct HP as (_ & _ & _ & _ & _ & _ & Hhi). rewrite Hhi by lia. exact Ha. }
    assert (Hik : index t !! k = Some idx).
    { destruct HP as (_ & _ & Hix & _). rewrite Hix. exact Hidx. }
    assert (Hin : (0 <= idx < ncol d + nrow d)%Z).
    { pose proof (Hi1 k idx Hk Hidx). destruct Hd. lia. }
    destruct (nicefy_step_eq d t mn mx k a idx Hd Hin Hak Hik)
      as (c' & mn' & mx' & Hstep & H1 & H2 & H3 & H4 & H5).
    exists (c', mn', mx'). split; [exact Hstep |]. cbn [fst].
    eapply (mapped_step (nice d)); eauto. }
  rewrite Hloop2. cbn [bind fst] in *.
  destruct HP2 as (Hnz2 & Hmx2 & Hix2 & Hs2 & Hlen2 & Hlo2 & Hhi2).
  eexists. split; [reflexivity |]. cbn [set_sense sense nz max_nz index coeff].
  rewrite Hnz1 in *. rewrite Hix1 in *.
  repeat split; try congruence.
  - intros j Hj. rewrite (Hlo2 j Hj). unfold nicefied.
    rewrite (nth_Some _ _ _ _ (Hlo1 j Hj)). reflexivity.
  - intros j Hj. rewrite (Hhi2 j Hj). apply Hhi1. exact Hj.
Qed.

(** C7. [DGG_nicefyConstraint] refuses every '<=' constraint: it returns
    the error code 1 and leaves the constraint as it was.  Every
    constraint of another sense, with its cells in use and its indices in
    the range of the Snapshot, is accepted, and its sense on return is
    '>='. *)
Theorem DGG_nicefyConstraint_sense (d : DGG_data_t) (cut : DGG_constraint_t) :
  (sense cut = "L"%char -> DGG_nicefyConstraint d cut = Ret (1%Z, cut)) /\
  (sense cut <> "L"%char ->
   data_ok d -> cells_ok cut ->
   indices_below cut (Z.to_nat (ncol d + nrow d)) ->
   exists cut', DGG_nicefyConstraint d cut = Ret (0%Z, cut') /\
                sense cut' = "G"%char).
Proof.
  split.
  - intros Hs. unfold DGG_nicefyConstraint.
    apply is_sense_true in Hs. rewrite Hs. reflexivity.
  - intros Hs Hd Hc Hi.
    destruct (DGG_nicefyConstraint_mapped d cut Hd Hc Hi Hs)
      as (cut' & H & Hs' & _).
    eauto.
Qed.

Lemma Qfloor_shift (n : Z) (e : Q) :
  0 <= e -> e < 1 -> Qfloor (inject_Z n + e) = n.
Proof.
  intros H0 H1. set (v := inject_Z n + e).
  pose proof (Qfloor_le v) as Hlo. pose proof (Qlt_floor v) as Hhi.
  assert (Ha : (Qfloor v < n + 1)%Z).
  { rewrite Zlt_Qlt, inject_Z_plus. change (inject_Z 1) with 1.
    unfold v in *. lra. }
  assert (Hb : (n < Qfloor v + 1)%Z).
  { rewrite Zlt_Qlt. unfold v in *. lra. }
  lia.
Qed.

Lemma floor_inject (n : Z) : floor (inject_Z n) = inject_Z n.
Proof. unfold floor. rewrite Qfloor_Z. reflexivity. Qed.

Lemma ABOV_inject (n : Z) : ABOV (inject_Z n) == 0.
Proof. unfold ABOV. rewrite floor_inject. ring. Qed.

Section Stable.

Hypothesis Htol : nicefy_tolerances_ok.

(** A whole number is left alone by both loops. *)
Lemma noise_inject (n : Z) : noise (inject_Z n) = inject_Z n.
Proof.
  destruct Htol as (H1 & H2 & H3 & _). unfold noise, fabs.
  qcase (Qabs (inject_Z n)) DGG_NICEFY_MIN_ABSVALUE; [| reflexivity].
  change (Qabs (inject_Z n)) with (inject_Z (Z.abs n)) in Hcmp.
  assert (Hn : (Z.abs n < 1)%Z).
  { rewrite Zlt_Qlt. change (inject_Z 1) with 1. lra. }
  replace n with 0%Z by lia. reflexivity.
Qed.

Lemma nice_int_inject (ubv : Q) (n : Z) : nice_int ubv (inject_Z n) = inject_Z n.
Proof.
  destruct Htol as (H1 & H2 & H3 & H4). unfold nice_int.
  pose proof (ABOV_inject n) as H0.
  qcase (ABOV (inject_Z n)) DGG_NICEFY_MIN_FIX; [| lra].
  qcase (ABOV (inject_Z n) * ubv) DGG_NICEFY_MAX_PADDING.
  - apply floor_inject.
  - exfalso. rewrite H0 in Hcmp0. lra.
Qed.

(** So is a whole number inflated by the minimum fix. *)
Lemma noise_inflated (n : Z) :
  noise (inject_Z n + DGG_NICEFY_MIN_FIX) = inject_Z n + DGG_NICEFY_MIN_FIX.
Proof.
  destruct Htol as (H1 & H2 & H3 & _). unfold noise, fabs.
  qcase (Qabs (inject_Z n + DGG_NICEFY_MIN_FIX)) DGG_NICEFY_MIN_ABSVALUE;
    [| reflexivity].
  exfalso. set (v := inject_Z n + DGG_NICEFY_MIN_FIX) in *.
  pose proof (Qle_Qabs v) as Ha. pose proof (Qle_Qabs (- v)) as Hb.
  rewrite Qabs_opp in Hb.
  destruct (Z.le_gt_cases 0 n) as [Hn|Hn].
  - rewrite Zle_Qle in Hn. change (inject_Z 0) with 0 in Hn. unfold v in *. lra.
  - assert (Hn' : (n <= -1)%Z) by lia.
    rewrite Zle_Qle in Hn'. change (inject_Z (-1)) with (-1) in Hn'.
    unfold v in *. lra.
Qed.

Lemma nice_int_inflated (ubv : Q) (n : Z) :
  nice_int ubv (inject_Z n + DGG_NICEFY_MIN_FIX) =
  inject_Z n + DGG_NICEFY_MIN_FIX.
Proof.
  destruct Htol as (H1 & H2 & H3 & H4). unfold nice_int.
  assert (H0 : ABOV (inject_Z n + DGG_NICEFY_MIN_FIX) == DGG_NICEFY_MIN_FIX).
  { unfold ABOV, floor. rewrite Qfloor_shift by lra. ring. }
  qcase (ABOV (inject_Z n + DGG_NICEFY_MIN_FIX)) DGG_NICEFY_MIN_FIX; [lra |].
  qcase (1 - ABOV (inject_Z n + DGG_NICEFY_MIN_FIX)) DGG_NICEFY_MIN_FIX; [lra |].
  reflexivity.
Qed.

Lemma noise_noise (a : Q) : noise (noise a) = noise a.
Proof.
  destruct Htol as (H1 & _). unfold noise at 2 3.
  destruct (fabs a <? DGG_NICEFY_MIN_ABSVALUE) eqn:E.
  - apply (noise_inject 0).
  - unfold noise. rewrite E. reflexivity.
Qed.

Lemma nice_int_cases (ubv v : Q) :
  (exists n, nice_int ubv v = inject_Z n) \/
  (exists n, nice_int ubv v = inject_Z n + DGG_NICEFY_MIN_FIX) \/
  (nice_int ubv v = v /\
   (ABOV v <? DGG_NICEFY_MIN_FIX) = false /\
   (1 - ABOV v <? DGG_NICEFY_MIN_FIX) = false).
Proof.
  unfold nice_int, floor, ceil.
  destruct (ABOV v <? DGG_NICEFY_MIN_FIX).
  - destruct (ABOV v * ubv <? DGG_NICEFY_MAX_PADDING); eauto.
  - destruct (1 - ABOV v <? DGG_NICEFY_MIN_FIX); eauto.
Qed.

Lemma nice_int_stable (ubv a : Q) :
  let b := nice_int ubv (noise a) in
  noise b = b /\ nice_int ubv b = b.
Proof.
  intros b. subst b.
  destruct (nice_int_cases ubv (noise a))
    as [[n ->] | [[n ->] | (-> & E1 & E2)]].
  - split; [apply noise_inject | apply nice_int_inject].
  - split; [apply noise_inflated | apply nice_int_inflated].
  - split; [apply noise_noise |].
    unfold nice_int. rewrite E1, E2. reflexivity.
Qed.

Lemma nice_cont_cases (ubv v : Q) :
  nice_cont ubv v = 0 \/
  (nice_cont ubv v = DGG_NICEFY_MIN_FIX) \/
  (nice_cont ubv v = v /\ DGG_NICEFY_MIN_FIX <= v).
Proof.
  unfold nice_cont.
  qcase v DGG_NICEFY_MIN_ABSVALUE; [auto |].
  qcase v DGG_NICEFY_MIN_FIX; [| auto].
  destruct (v * ubv <? DGG_NICEFY_MAX_PADDING); auto.
Qed.

Lemma nice_cont_stable (ubv a : Q) :
  let b := nice_cont ubv (noise a) in
  noise b = b /\ nice_cont ubv b = b.
Proof.
  destruct Htol as (H1 & H2 & H3 & H4).
  assert (Hz : noise 0 = 0 /\ nice_cont ubv 0 = 0).
  { split; [apply (noise_inject 0) |]. unfold nice_cont.
    qcase 0 DGG_NICEFY_MIN_ABSVALUE; [reflexivity | lra]. }
  assert (Hbig : forall v, DGG_NICEFY_MIN_FIX <= v ->
                           noise v = v /\ nice_cont ubv v = v).
  { intros v Hv. split.
    - unfold noise, fabs. pose proof (Qle_Qabs v).
      qcase (Qabs v) DGG_NICEFY_MIN_ABSVALUE; [lra | reflexivity].
    - unfold nice_cont.
      qcase v DGG_NICEFY_MIN_ABSVALUE; [lra |].
      qcase v DGG_NICEFY_MIN_FIX; [lra | reflexivity]. }
  intros b. subst b.
  destruct (nice_cont_cases ubv (noise a)) as [-> | [-> | (-> & Hv)]].
  - exact Hz.
  - apply Hbig. lra.
  - apply Hbig. exact Hv.
Qed.

Lemma nicefied_idempotent (d : DGG_data_t) (idx : Z) (a : Q) :
  nicefied d idx (nicefied d idx a) = nicefied d idx a.
Proof.
  unfold nicefied, nice.
  destruct (integer_flag (nth (Z.to_nat idx) (info d) 0%Z)).
  - destruct (nice_int_stable (cell (ub d) idx) a) as [-> ->]. reflexivity.
  - destruct (nice_cont_stable (cell (ub d) idx) a) as [-> ->]. reflexivity.
Qed.

End Stable.

(** C6. With the tolerances of the clean-up pass related as
    [nicefy_tolerances_ok] says, for every Snapshot and every constraint
    that [DGG_nicefyConstraint] accepts, the result of the pass is a '>='
    constraint on which a second pass succeeds and leaves every
    coefficient as the first pass made it. *)
Theorem DGG_nicefyConstraint_idempotent (d : DGG_data_t) (cut : DGG_constraint_t) :
  nicefy_tolerances_ok ->
  data_ok d -> cells_ok cut ->
  indices_below cut (Z.to_nat (ncol d + nrow d)) ->
  sense cut <> "L"%char ->
  exists cut1 cut2,
    DGG_nicefyConstraint d cut = Ret (0%Z, cut1) /\
    sense cut1 = "G"%char /\
    DGG_nicefyConstraint d cut1 = Ret (0%Z, cut2) /\
    coeff cut2 = coeff cut1.
Proof.
  intros Htol Hd Hc Hi Hs.
  destruct (DGG_nicefyConstraint_mapped d cut Hd Hc Hi Hs)
    as (cut1 & H1 & Hs1 & Hnz1 & Hmx1 & Hix1 & Hlen1 & Hlo1 & Hhi1).
  assert (Hc1 : cells_ok cut1).
  { unfold cells_ok. rewrite Hnz1, Hix1, Hlen1. exact Hc. }
  assert (Hi1 : indices_below cut1 (Z.to_nat (ncol d + nrow d))).
  { unfold indices_below. rewrite Hnz1, Hix1. exact Hi. }
  assert (HnL : sense cut1 <> "L"%char) by (rewrite Hs1; discriminate).
  destruct (DGG_nicefyConstraint_mapped d cut1 Hd Hc1 Hi1 HnL)
    as (cut2 & H2 & _ & _ & _ & _ & Hlen2 & Hlo2 & Hhi2).
  exists cut1, cut2. repeat split; try assumption.
  apply list_eq. intros j. rewrite Hnz1, Hix1 in *.
  destruct (Nat.lt_ge_cases j (Z.to_nat (nz cut))) as [Hj|Hj].
  - rewrite (Hlo2 j Hj), (Hlo1 j Hj).
    rewrite (nth_Some _ _ _ _ (Hlo1 j Hj)).
    rewrite nicefied_idempotent by exact Htol. reflexivity.
  - apply Hhi2. exact Hj.
Qed.

(** ** The left-hand side as a sum *)

Lemma DGG_cutLHS_sum (c : DGG_constraint_t) (xs : list Q) :
  cells_ok c -> indices_below c (length xs) ->
  DGG_cutLHS c xs =
  Ret (lhs_upto (coeff c) (index c) xs (Z.to_nat (nz c))).
Proof.
  intros Hc Hi. unfold DGG_cutLHS.
  destruct (for_upto_inv
              (fun k lhs => lhs = lhs_upto (coeff c) (index c) xs k)
              (fun i lhs =>
                 do a <- rd (coeff c) i ;;
                 do idx <- rd (index c) i ;;
                 do xv <- rd xs idx ;;
                 Ret (lhs + a * xv)) (nz c) 0) as (t & Ht & HP).
  - apply Hc.
  - reflexivity.
  - intros k t Hk ->.
    destruct (cells_coeff c k Hc Hk) as [a Ha].
    destruct (cells_index c k Hc Hk) as [idx Hidx].
    destruct (rd_defined xs idx) as [xv Hxv]; [eapply Hi; eauto |].
    eexists. split.
    + rewrite (rd_nat _ _ _ Ha). cbn [bind]. rewrite (rd_nat _ _ _ Hidx).
      cbn [bind]. rewrite Hxv. reflexivity.
    + cbn [lhs_upto]. rewrite (nth_Some _ _ _ _ Ha), (nth_Some _ _ _ _ Hidx).
      rewrite (rd_cell _ _ _ Hxv). reflexivity.
  - rewrite Ht, HP. reflexivity.
Qed.

(** The sum reads the first [k] cells only. *)
Lemma lhs_upto_ext (co co' : list Q) (ix ix' : list Z) (xs : list Q) (k : nat) :
  (forall j : nat, (j < k)%nat -> nth j co' 0 = nth j co 0) ->
  (forall j : nat, (j < k)%nat -> nth j ix' 0%Z = nth j ix 0%Z) ->
  lhs_upto co' ix' xs k = lhs_upto co ix xs k.
Proof.
  induction k as [|k IH]; intros Hco Hix; [reflexivity |].
  cbn [lhs_upto]. rewrite Hco, Hix by lia. rewrite IH; [reflexivity | |];
    intros j Hj; [apply Hco | apply Hix]; lia.
Qed.

Lemma lhs_upto_scaled (q : Q) (co co' : list Q) (ix : list Z) (xs : list Q)
    (k : nat) :
  (forall j : nat, (j < k)%nat -> nth j co' 0 = nth j co 0 * q) ->
  lhs_upto co' ix xs k == q * lhs_upto co ix xs k.
Proof.
  induction k as [|k IH]; intros Hco.
  - cbn [lhs_upto]. ring.
  - cbn [lhs_upto]. rewrite Hco by lia. rewrite IH by (intros; apply Hco; lia).
    ring.
Qed.

(** ** Copies and multiples of a constraint *)

Lemma scale_le_pos (q a b : Q) : 0 < q -> (q * a <= q * b <-> a <= b).
Proof. intros H. apply Qmult_le_l. exact H. Qed.

Lemma scale_le_neg (q a b : Q) : q < 0 -> (q * a <= q * b <-> b <= a).
Proof.
  intros H. assert (Hp : 0 < - q) by lra.
  rewrite <- (Qmult_le_l b a (- q) Hp). split; intros; lra.
Qed.

Lemma scale_eq (q a b : Q) : ~ q == 0 -> (q * a == q * b <-> a == b).
Proof. intros H. apply Qmult_inj_l. exact H. Qed.

Lemma scale_loop (t : Z) (c0 : DGG_constraint_t) :
  cells_ok c0 ->
  exists c, for_upto 0 (nz c0) (scale_step t) c0 = Ret c /\
            rhs c = rhs c0 /\
            mapped (fun _ a => a * inject_Z t) c0 (Z.to_nat (nz c0)) c.
Proof.
  intros Hc.
  destruct (for_upto_inv
              (fun k c => rhs c = rhs c0 /\
                          mapped (fun _ a => a * inject_Z t) c0 k c)
              (scale_step t) (nz c0) c0) as (c & Hloop & HP).
  - apply Hc.
  - split; [reflexivity | apply mapped_start].
  - intros k c Hk [Hr HP].
    destruct (cells_coeff c0 k Hc Hk) as [a Ha].
    destruct (cells_index c0 k Hc Hk) as [idx Hidx].
    assert (Hak : coeff c !! k = Some a).
    { destruct HP as (_ & _ & _ & _ & _ & _ & Hhi). rewrite Hhi by lia. exact Ha. }
    assert (Hlt : (k < length (coeff c))%nat)
      by (apply lookup_lt_is_Some_1; eauto).
    unfold scale_step. rewrite (rd_nat _ _ _ Hak). cbn [bind].
    rewrite coeff_set_nat by exact Hlt.
    eexists. split; [reflexivity |]. split; [exact Hr |].
    eapply (mapped_step (fun _ a => a * inject_Z t)); eauto.
  - eauto.
Qed.

(** X1. [DGG_scaleConstraint] multiplies both sides of a constraint by [t]
    at every point, and for [t <> 0] the scaled constraint holds at
    exactly the points where the constraint holds: a negative [t] turns
    '>=' into '<=' and back. *)
Theorem DGG_scaleConstraint_same_solutions (c : DGG_constraint_t) (t : Z)
    (xs : list Q) :
  cells_ok c -> indices_below c (length xs) ->
  exists c' lhs lhs',
    DGG_scaleConstraint c t = Ret c' /\
    DGG_cutLHS c xs = Ret lhs /\ DGG_cutLHS c' xs = Ret lhs' /\
    lhs' == inject_Z t * lhs /\ rhs c' == inject_Z t * rhs c /\
    nz c' = nz c /\ index c' = index c /\
    (t <> 0%Z -> (holds_at c' lhs' <-> holds_at c lhs)).
Proof.
  intros Hc Hi. unfold DGG_scaleConstraint.
  set (c1 := if (t <? 0)%Z then _ else _).
  assert (H1 : nz c1 = nz c /\ index c1 = index c /\ coeff c1 = coeff c /\
               rhs c1 = rhs c * inject_Z t).
  { subst c1. destruct (t <? 0)%Z; [| cbn; auto].
    destruct (is_sense _ "G"); [cbn; auto |].
    destruct (is_sense _ "L"); cbn; auto. }
  destruct H1 as (Hnz1 & Hix1 & Hco1 & Hr1).
  assert (Hc1 : cells_ok c1).
  { unfold cells_ok. rewrite Hnz1, Hix1, Hco1. exact Hc. }
  destruct (scale_loop t c1 Hc1) as (c' & Hloop & Hr' & HP).
  pose proof HP as (Hnz' & _ & Hix' & Hs' & Hlen' & Hlo' & _).
  assert (Hi1 : indices_below c1 (length xs)).
  { unfold indices_below. rewrite Hnz1, Hix1. exact Hi. }
  destruct (mapped_cells _ c1 c' _ _ HP Hc1 Hi1) as [Hc' Hi'].
  exists c', (lhs_upto (coeff c) (index c) xs (Z.to_nat (nz c))),
    (lhs_upto (coeff c') (index c') xs (Z.to_nat (nz c'))).
  split; [exact Hloop |]. split; [apply DGG_cutLHS_sum; assumption |].
  split; [apply DGG_cutLHS_sum; assumption |].
  assert (Hlhs : lhs_upto (coeff c') (index c') xs (Z.to_nat (nz c')) ==
                 inject_Z t * lhs_upto (coeff c) (index c) xs (Z.to_nat (nz c))).
  { rewrite Hnz', Hix', Hnz1, Hix1. apply lhs_upto_scaled.
    intros j Hj. rewrite Hnz1 in Hlo'. rewrite (nth_Some _ _ _ _ (Hlo' j Hj)).
    rewrite Hco1. reflexivity. }
  assert (Hrhs : rhs c' == inject_Z t * rhs c) by (rewrite Hr', Hr1; ring).
  split; [exact Hlhs |]. split; [exact Hrhs |].
  split; [congruence |]. split; [congruence |].
  intros Ht. unfold holds_at. rewrite Hs', Hlhs, Hrhs.
  set (L := lhs_upto (coeff c) (index c) xs (Z.to_nat (nz c))).
  subst c1. destruct (Z.ltb_spec t 0) as [Hneg|Hpos].
  - assert (Hq : inject_Z t < 0).
    { change 0 with (inject_Z 0). rewrite <- Zlt_Qlt. exact Hneg. }
    assert (Hq0 : ~ inject_Z t == 0) by lra.
    pose proof (scale_le_neg _ (rhs c) L Hq) as E1.
    pose proof (scale_le_neg _ L (rhs c) Hq) as E2.
    pose proof (scale_eq _ L (rhs c) Hq0) as E3.
    unfold is_sense. cbn [set_rhs sense].
    destruct (Ascii.eqb_spec (sense c) "G") as [HG|HG];
      [| destruct (Ascii.eqb_spec (sense c) "L") as [HL|HL]];
      cbn [set_sense set_rhs sense]; try rewrite HG; try rewrite HL;
      (split; intros (A & B & C); (split; [| split]); intros HS;
       try discriminate HS; try contradiction;
       first [ apply E1; auto | apply E2; auto | apply E3; auto ]).
  - assert (Hq : 0 < inject_Z t).
    { change 0 with (inject_Z 0). rewrite <- Zlt_Qlt. lia. }
    assert (Hq0 : ~ inject_Z t == 0) by lra.
    pose proof (scale_le_pos _ (rhs c) L Hq) as E1.
    pose proof (scale_le_pos _ L (rhs c) Hq) as E2.
    pose proof (scale_eq _ L (rhs c) Hq0) as E3.
    cbn [set_rhs sense].
    split; intros (A & B & C); (split; [| split]); intros HS;
      first [ apply E1; auto | apply E2; auto | apply E3; auto ].
Qed.

Lemma memcpy_Ret {A : Type} (dst src : list A) (n : nat) :
  (n <= length dst)%nat -> (n <= length src)%nat ->
  memcpy dst src (Z.of_nat n) = Ret (take n src ++ drop n dst).
Proof.
  intros Hd Hs. unfold memcpy. rewrite Nat2Z.id.
  destruct (Z.ltb_spec (Z.of_nat n) 0); [lia |].
  destruct (Nat.leb_spec n (length dst)); [| lia].
  destruct (Nat.leb_spec n (length src)); [| lia]. reflexivity.
Qed.

Lemma take_copied {A : Type} (dst src : list A) (n : nat) :
  (n <= length src)%nat -> take n (take n src ++ drop n dst) = take n src.
Proof.
  intros Hs. rewrite take_app_le by (rewrite length_take; lia).
  rewrite take_take. f_equal. lia.
Qed.

Lemma length_copied {A : Type} (dst src : list A) (n : nat) :
  (n <= length dst)%nat -> (n <= length src)%nat ->
  length (take n src ++ drop n dst) = length dst.
Proof.
  intros Hd Hs. rewrite length_app, length_take, length_drop. lia.
Qed.

Lemma nth_take {A : Type} (l : list A) (n j : nat) (dflt : A) :
  (j < n)%nat -> nth j (take n l) dflt = nth j l dflt.
Proof. intros H. rewrite !nth_lookup, lookup_take_lt by exact H. reflexivity. Qed.

Lemma nth_of_take_eq {A : Type} (l l' : list A) (n j : nat) (dflt : A) :
  take n l' = take n l -> (j < n)%nat -> nth j l' dflt = nth j l dflt.
Proof.
  intros H Hj. rewrite <- (nth_take l' n j dflt Hj), H. apply nth_take. exact Hj.
Qed.

(** X2. [DGG_copyConstraint] gives NULL for NULL and for a constraint without
    capacity.  Of any other constraint whose cells in use lie within its
    capacity it gives a constraint of that capacity with the same count,
    rhs, sense and cells in use, hence with the same left-hand side at
    every point. *)
Theorem DGG_copyConstraint_agrees (c : DGG_constraint_t) (xs : list Q) :
  DGG_copyConstraint None = Ret None /\
  ((max_nz c <= 0)%Z -> DGG_copyConstraint (Some c) = Ret None) /\
  ((0 < max_nz c)%Z -> cells_ok c -> (nz c <= max_nz c)%Z ->
   exists nc,
     DGG_copyConstraint (Some c) = Ret (Some nc) /\
     nz nc = nz c /\ max_nz nc = max_nz c /\
     rhs nc = rhs c /\ sense nc = sense c /\
     Z.of_nat (length (coeff nc)) = max_nz c /\
     Z.of_nat (length (index nc)) = max_nz c /\
     take (Z.to_nat (nz c)) (coeff nc) = take (Z.to_nat (nz c)) (coeff c) /\
     take (Z.to_nat (nz c)) (index nc) = take (Z.to_nat (nz c)) (index c) /\
     (indices_below c (length xs) -> DGG_cutLHS nc xs = DGG_cutLHS c xs)).
Proof.
  split; [reflexivity |]. split.
  { intros H. unfold DGG_copyConstraint.
    destruct (Z.leb_spec (max_nz c) 0); [reflexivity | lia]. }
  intros Hm Hc Hcap. pose proof Hc as (H0 & H1 & H2).
  unfold DGG_copyConstraint.
  destruct (Z.leb_spec (max_nz c) 0); [lia |].
  rewrite DGG_newConstraint_pos by exact Hm.
  cbn [set_nz set_rhs set_sense set_coeff nz max_nz coeff index rhs sense].
  set (n := Z.to_nat (nz c)).
  assert (Hn : nz c = Z.of_nat n) by (unfold n; lia).
  assert (Hl1 : Z.of_nat (length (malloc 0 (max_nz c))) = max_nz c)
    by (apply length_malloc; lia).
  assert (Hl2 : Z.of_nat (length (malloc 0%Z (max_nz c))) = max_nz c)
    by (apply length_malloc; lia).
  rewrite Hn. rewrite !memcpy_Ret by lia. cbn [bind].
  eexists. split; [reflexivity |].
  cbn [nz max_nz coeff index rhs sense].
  assert (Hco : take n (take n (coeff c) ++ drop n (malloc 0 (max_nz c))) =
                take n (coeff c)) by (apply take_copied; lia).
  assert (Hix : take n (take n (index c) ++ drop n (malloc 0%Z (max_nz c))) =
                take n (index c)) by (apply take_copied; lia).
  repeat split; try reflexivity; try assumption.
  - rewrite length_copied by lia. exact Hl1.
  - rewrite length_copied by lia. exact Hl2.
  - intros Hi.
    rewrite (DGG_cutLHS_sum c xs Hc Hi).
    rewrite DGG_cutLHS_sum.
    + cbn [nz coeff index]. rewrite Nat2Z.id. f_equal.
      apply lhs_upto_ext; intros j Hj.
      * apply (nth_of_take_eq _ _ n); assumption.
      * apply (nth_of_take_eq _ _ n); assumption.
    + unfold cells_ok. cbn [nz coeff index]. rewrite !length_copied by lia. lia.
    + intros j idx Hj Hidx. cbn [nz index] in *.
      apply (Hi j idx); [lia |].
      rewrite lookup_app_l in Hidx by (rewrite length_take; lia).
      rewrite lookup_take_lt in Hidx by lia. exact Hidx.
Qed.

(** ** The triviality test of a base *)

Lemma Qfloor_unique (v : Q) (m : Z) :
  inject_Z m <= v -> v < inject_Z (m + 1) -> Qfloor v = m.
Proof.
  intros Hlo Hhi.
  pose proof (Qfloor_le v) as H1. pose proof (Qlt_floor v) as H2.
  assert (Ha : (Qfloor v < m + 1)%Z) by (rewrite Zlt_Qlt; lra).
  assert (Hb : (m < Qfloor v + 1)%Z) by (rewrite Zlt_Qlt; lra).
  lia.
Qed.

Lemma ABOV_lt_one (v : Q) : ABOV v < 1.
Proof.
  unfold ABOV, floor. pose proof (Qlt_floor v) as H.
  rewrite inject_Z_plus in H. change (inject_Z 1) with 1 in H. lra.
Qed.

Lemma frac_part_ABOV (v : Q) : frac_part (ABOV v) == ABOV v.
Proof.
  unfold frac_part, floor.
  rewrite (Qfloor_unique (ABOV v) 0).
  - change (inject_Z 0) with 0. ring.
  - change (inject_Z 0) with 0. apply ABOV_nonneg.
  - change (inject_Z (0 + 1)) with 1. apply ABOV_lt_one.
Qed.

Lemma ABOV_shift (v w : Q) (n : Z) : w == v + inject_Z n -> ABOV w == ABOV v.
Proof.
  intros H. unfold ABOV, floor.
  assert (Hf : Qfloor w = (Qfloor v + n)%Z).
  { apply Qfloor_unique.
    - pose proof (Qfloor_le v). rewrite inject_Z_plus. lra.
    - pose proof (Qlt_floor v) as H2. rewrite !inject_Z_plus in *. lra. }
  rewrite Hf, inject_Z_plus. lra.
Qed.

Lemma DGG_isBaseTrivial_1 (d : DGG_data_t) (c : DGG_constraint_t) :
  DGG_isBaseTrivial d c = 1%Z <->
  ABOV (rhs c) < DGG_GOMORY_THRESH \/ 1 - DGG_GOMORY_THRESH < ABOV (rhs c).
Proof.
  unfold DGG_isBaseTrivial. pose proof (frac_part_ABOV (rhs c)) as Hf.
  qcase (frac_part (ABOV (rhs c))) DGG_GOMORY_THRESH.
  { split; [intros _; left; lra | reflexivity]. }
  qcase (1 - frac_part (ABOV (rhs c))) DGG_GOMORY_THRESH.
  { split; [intros _; right; lra | reflexivity]. }
  split; [discriminate |]. intros [H|H]; exfalso; lra.
Qed.

Lemma DGG_isBaseTrivial_01 (d : DGG_data_t) (c : DGG_constraint_t) :
  DGG_isBaseTrivial d c = 1%Z \/ DGG_isBaseTrivial d c = 0%Z.
Proof.
  unfold DGG_isBaseTrivial.
  repeat match goal with |- context [if ?b then _ else _] => destruct b end;
    auto.
Qed.

(** X3. [DGG_isBaseTrivial] looks at the fractional part [f] of the rhs only:
    it returns 1 when [f] is below the threshold or above 1 minus the
    threshold and 0 otherwise, it gives the same answer for two rhs that
    differ by a whole number, and with a positive threshold it returns 1
    for every whole rhs. *)
Theorem DGG_isBaseTrivial_fractional (d : DGG_data_t) (c : DGG_constraint_t) :
  let f := rhs c - floor (rhs c) in
  (DGG_isBaseTrivial d c = 1%Z <->
     f < DGG_GOMORY_THRESH \/ 1 - DGG_GOMORY_THRESH < f) /\
  (DGG_isBaseTrivial d c <> 1%Z -> DGG_isBaseTrivial d c = 0%Z) /\
  (forall (d' : DGG_data_t) (c' : DGG_constraint_t) (n : Z),
     rhs c' == rhs c + inject_Z n ->
     DGG_isBaseTrivial d' c' = DGG_isBaseTrivial d c) /\
  (0 < DGG_GOMORY_THRESH -> (exists n : Z, rhs c == inject_Z n) ->
   DGG_isBaseTrivial d c = 1%Z).
Proof.
  intros f. split; [apply DGG_isBaseTrivial_1 |]. split; [| split].
  - intros H. destruct (DGG_isBaseTrivial_01 d c); [contradiction | assumption].
  - intros d' c' n Hn.
    pose proof (ABOV_shift (rhs c) (rhs c') n Hn) as Hs.
    pose proof (DGG_isBaseTrivial_1 d c) as H1.
    pose proof (DGG_isBaseTrivial_1 d' c') as H2.
    rewrite Hs in H2.
    destruct (DGG_isBaseTrivial_01 d c) as [E|E];
      destruct (DGG_isBaseTrivial_01 d' c') as [E'|E']; try congruence.
    + apply H1 in E. apply H2 in E. congruence.
    + apply H2 in E'. apply H1 in E'. congruence.
  - intros Ht [n Hn]. apply DGG_isBaseTrivial_1. left.
    assert (Hz : ABOV (rhs c) == ABOV (inject_Z 0)).
    { apply (ABOV_shift _ _ n). rewrite Hn. change (inject_Z 0) with 0. ring. }
    rewrite Hz. rewrite (ABOV_inject 0). exact Ht.
Qed.

(** ** Points cut off and desirable cuts *)

(** X4. [DGG_cutsOffPoint] and [DGG_isCutDesirable] on the same cut,
    point and tolerance.  A cut that is reported as cutting off the point
    is desirable unless it has more than 500 nonzeros.  For a cut whose
    sense is '>=', '<=' or '=', a desirable cut that is not reported lies
    exactly on the boundary, its two sides one tolerance apart.  A cut of
    any other sense (the '?' a fresh constraint carries) is never
    reported, and it is desirable whenever it has at most 500 nonzeros,
    whatever its two sides are. *)
Theorem DGG_cutsOffPoint_desirable (cut : DGG_constraint_t) (d : DGG_data_t) :
  cells_ok cut -> indices_below cut (length (x d)) ->
  exists off des lhs,
    DGG_cutsOffPoint (x d) cut = Ret off /\
    DGG_isCutDesirable cut d = Ret des /\
    DGG_cutLHS cut (x d) = Ret lhs /\
    (off = 1%Z \/ off = 0%Z) /\
    (off = 1%Z -> (nz cut <= 500)%Z -> des = 1%Z) /\
    (des = 1%Z -> off = 0%Z ->
       (sense cut = "G"%char -> rhs cut - lhs == DGG_NULL_SLACK) /\
       (sense cut = "L"%char -> lhs - rhs cut == DGG_NULL_SLACK) /\
       (sense cut = "E"%char -> Qabs (lhs - rhs cut) == DGG_NULL_SLACK)) /\
    (sense cut <> "G"%char -> sense cut <> "L"%char ->
     sense cut <> "E"%char ->
       off = 0%Z /\ ((nz cut <= 500)%Z -> des = 1%Z) /\
       ((500 < nz cut)%Z -> des = 0%Z)).
Proof.
  intros Hc Hi. destruct (DGG_cutLHS_defined cut (x d) Hc Hi) as [lhs Hl].
  unfold DGG_cutsOffPoint, DGG_isCutDesirable.
  change (for_upto 0 (nz cut) _ 0) with (DGG_cutLHS cut (x d)).
  rewrite Hl. cbn [bind]. unfold fabs, is_sense.
  destruct cut as [n m co ix r s]; cbn [nz rhs sense] in *.
  destruct (Z.gtb_spec n 500) as [Hn|Hn].
  { destruct (Ascii.eqb_spec s "E") as [->|HE]; cbn [andb].
    - qcase DGG_NULL_SLACK (Qabs (lhs - r)); do 3 eexists;
        repeat split; try reflexivity; auto; intros; first [lia | congruence].
    - destruct (Ascii.eqb_spec s "G") as [->|HG]; cbn [andb].
      + qcase DGG_NULL_SLACK (r - lhs); do 3 eexists;
          repeat split; try reflexivity; auto; intros;
          first [lia | congruence].
      + destruct (Ascii.eqb_spec s "L") as [->|HL]; cbn [andb].
        * qcase DGG_NULL_SLACK (lhs - r); do 3 eexists;
            repeat split; try reflexivity; auto; intros;
            first [lia | congruence].
        * do 3 eexists; repeat split; try reflexivity; auto; intros; lia. }
  destruct (Ascii.eqb_spec s "E") as [->|HE]; cbn [andb].
  { qcase DGG_NULL_SLACK (Qabs (lhs - r));
      qcase (Qabs (lhs - r)) DGG_NULL_SLACK;
      do 3 eexists; repeat split; try reflexivity; auto;
      try (intros; discriminate); try (intros; lia); try (intros; lra);
      try (intros; congruence). }
  destruct (Ascii.eqb_spec s "G") as [->|HG]; cbn [andb].
  { qcase DGG_NULL_SLACK (r - lhs);
      qcase (r - DGG_NULL_SLACK) lhs;
      do 3 eexists; repeat split; try reflexivity; auto;
      try (intros; discriminate); try (intros; lia); try (intros; lra);
      try (intros; congruence). }
  destruct (Ascii.eqb_spec s "L") as [->|HL]; cbn [andb].
  { qcase DGG_NULL_SLACK (lhs - r);
      qcase lhs (r + DGG_NULL_SLACK);
      do 3 eexists; repeat split; try reflexivity; auto;
      try (intros; discriminate); try (intros; lia); try (intros; lra);
      try (intros; congruence). }
  do 3 eexists; repeat split; try reflexivity; auto;
    try (intros; discriminate); try (intros; lia); intros; congruence.
Qed.

(** ** The cut list: growth and removal *)

Lemma realloc_grow {A : Type} (v w : A) (a : list A) (n : nat) :
  (n <= length a)%nat ->
  wr (realloc v a (Z.of_nat n + 1)) (Z.of_nat n + 1 - 1) w =
  Ret (<[n := w]> (resize (Datatypes.S n) v a)) /\
  length (<[n := w]> (resize (Datatypes.S n) v a)) = Datatypes.S n /\
  take n (<[n := w]> (resize (Datatypes.S n) v a)) = take n a /\
  <[n := w]> (resize (Datatypes.S n) v a) !! n = Some w.
Proof.
  intros Hn. unfold realloc.
  replace (Z.to_nat (Z.of_nat n + 1)) with (Datatypes.S n) by lia.
  replace (Z.of_nat n + 1 - 1)%Z with (Z.of_nat n) by lia.
  rewrite wr_nat by (rewrite length_resize; lia).
  split; [reflexivity |]. split; [| split].
  - rewrite length_insert, length_resize. reflexivity.
  - rewrite take_insert_ge by lia. rewrite take_resize.
    rewrite Nat.min_l by lia. apply resize_le. exact Hn.
  - apply list_lookup_insert_eq. rewrite length_resize. lia.
Qed.

(** The list after [DGG_list_addcut]. *)
Lemma addcut_grows (l : DGG_list_t) (cut : DGG_constraint_t)
    (ctype : Z) (alpha : Q) :
  list_ok l ->
  let n := Z.to_nat (list_n l) in
  exists l',
    DGG_list_addcut l cut ctype alpha = Ret (0%Z, l') /\
    list_n l' = (list_n l + 1)%Z /\ list_ok l' /\ list_exact l' /\
    take n (list_c l') = take n (list_c l) /\
    take n (list_ctype l') = take n (list_ctype l) /\
    take n (list_alpha l') = take n (list_alpha l) /\
    list_c l' !! n = Some cut /\
    list_ctype l' !! n = Some ctype /\
    list_alpha l' !! n = Some alpha.
Proof.
  intros (Hn & Ht & Ha) n.
  assert (Hnn : list_n l = Z.of_nat n) by (unfold n; lia).
  unfold DGG_list_addcut. rewrite Hnn.
  destruct (realloc_grow cut cut (list_c l) n) as (-> & L1 & T1 & E1); [lia |].
  destruct (realloc_grow 0%Z ctype (list_ctype l) n) as (-> & L2 & T2 & E2);
    [lia |].
  destruct (realloc_grow 0 alpha (list_alpha l) n) as (-> & L3 & T3 & E3);
    [lia |].
  cbn [bind]. eexists. split; [reflexivity |].
  unfold list_ok, list_exact. cbn [list_n list_c list_ctype list_alpha].
  rewrite L1, L2, L3. repeat split; try assumption; lia.
Qed.

(** X5. [DGG_list_addcut] on a well-formed list returns 0 and a list with one
    entry more, the new cut with its tag and its parameter; the entries
    in use before are kept, and the arrays of the result hold exactly as
    many cells as it has entries. *)
Theorem DGG_list_addcut_appends (l : DGG_list_t) (cut : DGG_constraint_t)
    (ctype : Z) (alpha : Q) :
  list_ok l ->
  let n := Z.to_nat (list_n l) in
  exists l',
    DGG_list_addcut l cut ctype alpha = Ret (0%Z, l') /\
    list_n l' = (list_n l + 1)%Z /\ list_ok l' /\ list_exact l' /\
    take n (list_c l') = take n (list_c l) /\
    take n (list_ctype l') = take n (list_ctype l) /\
    take n (list_alpha l') = take n (list_alpha l) /\
    list_c l' !! n = Some cut /\
    list_ctype l' !! n = Some ctype /\
    list_alpha l' !! n = Some alpha.
Proof. apply addcut_grows. Qed.

Lemma delcut_in_range (l : DGG_list_t) (i : Z) :
  list_ok l -> (0 <= i < list_n l)%Z ->
  exists e t a,
    list_c l !! Z.to_nat (list_n l - 1) = Some e /\
    list_ctype l !! Z.to_nat (list_n l - 1) = Some t /\
    list_alpha l !! Z.to_nat (list_n l - 1) = Some a /\
    DGG_list_delcut l i =
    Ret (mkList (list_n l - 1)
           (<[Z.to_nat i := e]> (list_c l))
           (<[Z.to_nat i := t]> (list_ctype l))
           (<[Z.to_nat i := a]> (list_alpha l))).
Proof.
  intros (Hn & Ht & Ha) Hi.
  assert (Hg : delcut_guard l i = false).
  { unfold delcut_guard. destruct (Z.ltb_spec i 0); [lia | apply andb_false_r]. }
  unfold DGG_list_delcut. rewrite Hg.
  set (k := Z.to_nat i). set (m := Z.to_nat (list_n l - 1)).
  assert (Hk : i = Z.of_nat k) by (unfold k; lia).
  assert (Hm : (list_n l - 1)%Z = Z.of_nat m) by (unfold m; lia).
  destruct (lookup_lt_is_Some_2 (list_c l) m) as [e He]; [lia |].
  destruct (lookup_lt_is_Some_2 (list_ctype l) m) as [t Het]; [lia |].
  destruct (lookup_lt_is_Some_2 (list_alpha l) m) as [a Hea]; [lia |].
  destruct (lookup_lt_is_Some_2 (list_c l) k) as [ei Hei]; [lia |].
  exists e, t, a. repeat split; try assumption.
  unfold delcut_body. rewrite Hm, Hk.
  rewrite (rd_nat _ _ _ Hei). cbn [bind DGG_freeConstraint].
  rewrite (rd_nat _ _ _ He). cbn [bind]. rewrite wr_nat by lia. cbn [bind].
  rewrite (rd_nat _ _ _ Het). cbn [bind]. rewrite wr_nat by lia. cbn [bind].
  rewrite (rd_nat _ _ _ Hea). cbn [bind]. rewrite wr_nat by lia. cbn [bind].
  reflexivity.
Qed.

(** Overwriting cell [i] of the first [m+1] cells with the last of them
    and dropping the last leaves the other cells, in some order. *)
Lemma swap_remove_Permutation {A : Type} (a : list A) (i m : nat) (e : A) :
  (i <= m)%nat -> a !! m = Some e ->
  take m (<[i := e]> a) ≡ₚ delete i (take (Datatypes.S m) a).
Proof.
  intros Hi He. rewrite (take_S_r a m e He).
  assert (Hlen : length (take m a) = m).
  { apply length_take_le. apply Nat.lt_le_incl.
    apply lookup_lt_is_Some_1. eauto. }
  destruct (decide (i = m)) as [->|Hne].
  - rewrite take_insert_ge by lia.
    rewrite <- Hlen at 2. rewrite delete_middle, app_nil_r. reflexivity.
  - rewrite take_insert_lt by lia.
    destruct (lookup_lt_is_Some_2 (take m a) i) as [y Hy]; [lia |].
    rewrite (insert_take_drop (take m a) i e) by lia.
    rewrite delete_take_drop.
    rewrite take_app_le by lia.
    rewrite drop_app_le by lia.
    apply Permutation_app_head. apply Permutation_cons_append.
Qed.

(** X6. [DGG_list_delcut] at an index in use keeps the list well formed and
    removes exactly the entry of that index: the entries in use after
    the call are those in use before it without the entry [i], in some
    order, and the three arrays stay aligned: what stands at [i]
    afterwards is the former last entry with its tag and parameter, and
    every other cell is as before. *)
Theorem DGG_list_delcut_removes_one (l : DGG_list_t) (i : Z) :
  list_ok l -> (0 <= i < list_n l)%Z ->
  let n := Z.to_nat (list_n l) in
  exists l',
    DGG_list_delcut l i = Ret l' /\
    list_n l' = (list_n l - 1)%Z /\ list_ok l' /\
    take (n - 1) (list_c l') ≡ₚ delete (Z.to_nat i) (take n (list_c l)) /\
    (forall j : nat,
       list_c l' !! j = list_c l !! (if decide (j = Z.to_nat i) then (n - 1)%nat else j) /\
       list_ctype l' !! j = list_ctype l !! (if decide (j = Z.to_nat i) then (n - 1)%nat else j) /\
       list_alpha l' !! j = list_alpha l !! (if decide (j = Z.to_nat i) then (n - 1)%nat else j)).
Proof.
  intros Hok Hi n. pose proof Hok as (Hn & Ht & Ha).
  destruct (delcut_in_range l i Hok Hi) as (e & t & a & He & Het & Hea & ->).
  assert (Hm : Z.to_nat (list_n l - 1) = (n - 1)%nat) by (unfold n; lia).
  rewrite Hm in *.
  eexists. split; [reflexivity |].
  cbn [list_n list_c list_ctype list_alpha].
  split; [reflexivity |]. split; [| split].
  - unfold list_ok. cbn [list_n list_c list_ctype list_alpha].
    rewrite !length_insert. repeat split; try assumption; lia.
  - replace n with (Datatypes.S (n - 1)) at 2 by (unfold n; lia).
    apply swap_remove_Permutation; [unfold n; lia | exact He].
  - intros j. destruct (decide (j = Z.to_nat i)) as [->|Hne].
    + rewrite !list_lookup_insert_eq by lia. rewrite He, Het, Hea. auto.
    + rewrite !list_lookup_insert_ne by auto. auto.
Qed.

(** X7. Appending a cut and removing the entry at the index it was given
    restores the list: the count and the entries in use are those before
    the two calls. *)
Theorem DGG_list_addcut_delcut (l : DGG_list_t) (cut : DGG_constraint_t)
    (ctype : Z) (alpha : Q) :
  list_ok l ->
  let n := Z.to_nat (list_n l) in
  exists l1 l2,
    DGG_list_addcut l cut ctype alpha = Ret (0%Z, l1) /\
    DGG_list_delcut l1 (list_n l) = Ret l2 /\
    list_n l2 = list_n l /\ list_ok l2 /\
    take n (list_c l2) = take n (list_c l) /\
    take n (list_ctype l2) = take n (list_ctype l) /\
    take n (list_alpha l2) = take n (list_alpha l).
Proof.
  intros Hok n. pose proof Hok as (Hn & _).
  destruct (addcut_grows l cut ctype alpha Hok)
    as (l1 & H1 & Hn1 & Hok1 & Hex1 & T1 & T2 & T3 & _).
  fold n in T1, T2, T3.
  assert (Hi : (0 <= list_n l < list_n l1)%Z) by lia.
  destruct (delcut_in_range l1 (list_n l) Hok1 Hi)
    as (e & t & a & He & Het & Hea & H2).
  exists l1. eexists. split; [exact H1 |]. split; [exact H2 |].
  pose proof Hok1 as (Hn1' & Ht1 & Ha1).
  unfold list_ok. cbn [list_n list_c list_ctype list_alpha].
  rewrite !length_insert. fold n.
  rewrite !take_insert_ge by (unfold n; lia).
  repeat split; try assumption; lia.
Qed.

(** ** The classic MIR cut: appended to the list, and valid *)

Lemma DGG_buildMir_runs (isint : list bool) (base : DGG_constraint_t) :
  sense base <> "L"%char -> nz base <> 0%Z -> cells_ok base ->
  (nz base <= Z.of_nat (length isint))%Z ->
  exists cut,
    DGG_buildMir isint base = Ret (0%Z, Some cut) /\
    sense cut = "G"%char /\
    rhs cut = ABOV (rhs base) * ceil (rhs base) /\
    nz cut = nz base /\
    Z.of_nat (length (coeff cut)) = nz base /\
    Z.of_nat (length (index cut)) = nz base /\
    forall j : nat, (j < Z.to_nat (nz base))%nat ->
      exists v flag idx,
        coeff base !! j = Some v /\ isint !! j = Some flag /\
        index base !! j = Some idx /\
        coeff cut !! j = Some (mir_coeff (ABOV (rhs base)) flag v) /\
        index cut !! j = Some idx.
Proof.
  intros Hs Hnz Hc Hi.
  assert (Hpos : (0 < nz base)%Z) by (destruct Hc; lia).
  unfold DGG_buildMir.
  apply is_sense_false in Hs. rewrite Hs.
  destruct (Z.eqb_spec (nz base) 0) as [|_]; [contradiction |].
  rewrite DGG_newConstraint_pos by exact Hpos.
  set (t0 := set_rhs (set_sense _ "G") _).
  rewrite (for_upto_ext _ (fill_step (mir_coeff (ABOV (rhs base))) isint base))
    by (intros; apply buildMir_step_fill).
  assert (L1 : Z.of_nat (length (coeff t0)) = nz base).
  { subst t0. cbn [set_rhs set_sense coeff]. apply length_malloc. lia. }
  assert (L2 : Z.of_nat (length (index t0)) = nz base).
  { subst t0. cbn [set_rhs set_sense index]. apply length_malloc. lia. }
  destruct (fill_loop (mir_coeff (ABOV (rhs base))) isint base t0 Hc Hi L1 L2)
    as ([tmir lnz] & Hloop & HP).
  rewrite Hloop. cbn [bind].
  destruct HP as (Hl & _ & _ & Hr & Hse & Hl1 & Hl2 & Hpre). cbn [fst snd] in *.
  exists (set_nz tmir lnz). split; [reflexivity |].
  cbn [set_nz sense rhs nz coeff index].
  rewrite Hse, Hr, Hl1, Hl2. subst t0. cbn [set_rhs set_sense rhs sense] in *.
  repeat split; try assumption; try lia.
Qed.

(** X8. [DGG_addMirToList] hands on the failure of the builder (a '<=' base,
    a base without terms): it returns 1 and the list is untouched.  On
    every other base with its cells and flags it returns 0 and the list
    has one entry more, the cut of [DGG_buildMir] under the tag of the
    classic MIR family with parameter 0, behind the former entries. *)
Theorem DGG_addMirToList_appends (base : DGG_constraint_t) (isint : list bool)
    (l : DGG_list_t) :
  (sense base = "L"%char \/ nz base = 0%Z ->
   DGG_addMirToList base isint l = Ret (1%Z, l)) /\
  (sense base <> "L"%char -> nz base <> 0%Z -> cells_ok base ->
   (nz base <= Z.of_nat (length isint))%Z -> list_ok l ->
   let n := Z.to_nat (list_n l) in
   exists cut l',
     DGG_buildMir isint base = Ret (0%Z, Some cut) /\
     DGG_addMirToList base isint l = Ret (0%Z, l') /\
     list_n l' = (list_n l + 1)%Z /\ list_ok l' /\
     take n (list_c l') = take n (list_c l) /\
     list_c l' !! n = Some cut /\
     list_ctype l' !! n = Some DGG_TMIR_CUT /\
     list_alpha l' !! n = Some 0).
Proof.
  split.
  - intros H. unfold DGG_addMirToList, DGG_buildMir.
    destruct (is_sense base "L") eqn:E; [reflexivity |].
    apply is_sense_false in E. destruct H as [H|H]; [contradiction |].
    rewrite H. reflexivity.
  - intros Hs Hnz Hc Hi Hok n.
    destruct (DGG_buildMir_runs isint base Hs Hnz Hc Hi) as (cut & Hb & _).
    destruct (addcut_grows l cut DGG_TMIR_CUT 0 Hok)
      as (l' & Ha & Hn' & Hok' & _ & T1 & _ & _ & E1 & E2 & E3).
    exists cut, l'. unfold DGG_addMirToList. rewrite Hb. cbn [bind negb Z.eqb].
    rewrite Ha. cbn [bind snd]. auto 10.
Qed.

Lemma Qmult_le_mono_l (q a b : Q) : a <= b -> 0 <= q -> q * a <= q * b.
Proof.
  intros H Hq. rewrite (Qmult_comm q a), (Qmult_comm q b).
  apply Qmult_le_compat_r; assumption.
Qed.

(** The rounding argument: a whole number [z] and a nonnegative [s] with
    [z + s >= b] satisfy [s + f*z >= f*ceil(b)] for the fractional part
    [f] of [b]. *)
Lemma mir_rounding (b s : Q) (z : Z) :
  0 <= s -> b <= inject_Z z + s ->
  ABOV b * ceil b <= s + ABOV b * inject_Z z.
Proof.
  intros Hs Hb. pose proof (ABOV_nonneg b) as Hf0.
  pose proof (ABOV_lt_one b) as Hf1.
  unfold ceil. set (f := ABOV b) in *.
  destruct (Z.le_gt_cases (Qceiling b) z) as [Hz|Hz].
  - rewrite Zle_Qle in Hz.
    assert (f * inject_Z (Qceiling b) <= f * inject_Z z)
      by (apply Qmult_le_mono_l; assumption).
    lra.
  - pose proof (Qceiling_lt b) as Hc. pose proof (Qlt_floor b) as Hfl.
    assert (Hcf : (Qceiling b <= Qfloor b + 1)%Z).
    { assert (Qceiling b - 1 < Qfloor b + 1)%Z; [| lia].
      rewrite Zlt_Qlt. lra. }
    assert (Hzf : (z <= Qfloor b)%Z) by lia.
    assert (Hfb : b == inject_Z (Qfloor b) + f) by (unfold f, ABOV, floor; ring).
    assert (Hc1 : f * inject_Z (Qceiling b) <= f * inject_Z (Qfloor b + 1)).
    { apply Qmult_le_mono_l; [| exact Hf0]. rewrite <- Zle_Qle. exact Hcf. }
    rewrite inject_Z_plus in Hc1. change (inject_Z 1) with 1 in Hc1.
    set (g := inject_Z (Qfloor b) - inject_Z z).
    assert (Hg : 0 <= g).
    { unfold g. rewrite Zle_Qle in Hzf. lra. }
    assert (Hp : 0 <= g * (1 - f)) by (apply Qmult_le_0_compat; lra).
    unfold g in *. lra.
Qed.

(** The coefficient of a continuous variable in a cut bounds the base
    term from above and keeps it nonnegative. *)
Lemma continuous_term (v xv : Q) :
  0 <= xv ->
  v * xv <= (if v >? 0 then v else 0) * xv /\
  0 <= (if v >? 0 then v else 0) * xv.
Proof.
  intros Hx. qcase 0 v.
  - split; [lra |]. apply Qmult_le_0_compat; lra.
  - split; [| lra].
    assert (0 <= (- v) * xv) by (apply Qmult_le_0_compat; lra). lra.
Qed.

(** The terms of the base and of its MIR cut, summed side by side. *)
Lemma mir_sums (f : Q) (co co' : list Q) (ix : list Z) (flags : list bool)
    (xs : list Q) (k : nat) :
  0 <= f ->
  (forall j : nat, (j < k)%nat -> 0 <= cell xs (nth j ix 0%Z)) ->
  (forall j : nat, (j < k)%nat -> nth j flags false = true ->
     exists z : Z, cell xs (nth j ix 0%Z) == inject_Z z) ->
  (forall j : nat, (j < k)%nat ->
     nth j co' 0 = mir_coeff f (nth j flags false) (nth j co 0)) ->
  exists (z : Z) (s : Q),
    0 <= s /\
    lhs_upto co ix xs k <= inject_Z z + s /\
    lhs_upto co' ix xs k == s + f * inject_Z z.
Proof.
  intros Hf. induction k as [|k IH]; intros Hx Hint Hco.
  - exists 0%Z, 0. cbn [lhs_upto]. change (inject_Z 0) with 0.
    repeat split; lra.
  - destruct IH as (z & s & Hs & Hlo & Heq).
    { intros; apply Hx; lia. }
    { intros j Hj; apply Hint; lia. }
    { intros; apply Hco; lia. }
    cbn [lhs_upto]. rewrite (Hco k) by lia.
    set (v := nth k co 0). set (xv := cell xs (nth k ix 0%Z)).
    assert (Hxv : 0 <= xv) by (apply Hx; lia).
    unfold mir_coeff. destruct (nth k flags false) eqn:Hflag; cbn [negb].
    + destruct (Hint k) as [zx Hzx]; [lia | exact Hflag |]. fold xv in Hzx.
      pose proof (ABOV_nonneg v) as Hv0.
      assert (Hv : v == floor v + ABOV v) by (unfold ABOV; ring).
      unfold DGG_MIN. qcase f (ABOV v).
      * exists (z + (Qfloor v + 1) * zx)%Z, s.
        rewrite inject_Z_plus, inject_Z_mult, inject_Z_plus.
        change (inject_Z 1) with 1. fold (floor v). rewrite <- Hzx.
        assert (Hup : v * xv <= (floor v + 1) * xv).
        { apply Qmult_le_compat_r; [| exact Hxv].
          pose proof (ABOV_lt_one v). lra. }
        split; [exact Hs |]. split; [lra |]. rewrite Heq. ring.
      * exists (z + Qfloor v * zx)%Z, (s + ABOV v * xv).
        rewrite inject_Z_plus, inject_Z_mult. fold (floor v). rewrite <- Hzx.
        assert (Hp : 0 <= ABOV v * xv) by (apply Qmult_le_0_compat; lra).
        assert (Hsplit : v * xv == floor v * xv + ABOV v * xv)
          by (unfold ABOV; ring).
        split; [lra |]. split; [lra |]. rewrite Heq. ring.
    + destruct (continuous_term v xv Hxv) as [H1 H2].
      exists z, (s + (if v >? 0 then v else 0) * xv).
      split; [lra |]. split; [lra |]. rewrite Heq. ring.
Qed.

(** X9. Validity of the classic MIR cut.  At every point that gives the
    variables of the base nonnegative values, whole ones to those
    flagged integer, and at which the left-hand side of the base reaches
    its rhs, the cut of [DGG_buildMir] holds. *)
Theorem DGG_buildMir_valid (isint : list bool) (base : DGG_constraint_t)
    (xs : list Q) (lhs : Q) :
  sense base <> "L"%char -> nz base <> 0%Z -> cells_ok base ->
  (nz base <= Z.of_nat (length isint))%Z ->
  indices_below base (length xs) ->
  (forall (j : nat) (idx : Z),
     (Z.of_nat j < nz base)%Z -> index base !! j = Some idx ->
     0 <= cell xs idx) ->
  (forall (j : nat) (idx : Z),
     (Z.of_nat j < nz base)%Z -> isint !! j = Some true ->
     index base !! j = Some idx -> exists z : Z, cell xs idx == inject_Z z) ->
  DGG_cutLHS base xs = Ret lhs -> rhs base <= lhs ->
  exists cut lhs',
    DGG_buildMir isint base = Ret (0%Z, Some cut) /\
    DGG_cutLHS cut xs = Ret lhs' /\
    rhs cut <= lhs'.
Proof.
  intros Hs Hnz Hc Hi Hidx Hx Hint Hl Hb.
  destruct (DGG_buildMir_runs isint base Hs Hnz Hc Hi)
    as (cut & Hrun & _ & Hr & Hn & L1 & L2 & Hcells).
  assert (Hixeq : forall j : nat, (j < Z.to_nat (nz base))%nat ->
                  nth j (index cut) 0%Z = nth j (index base) 0%Z).
  { intros j Hj. destruct (Hcells j Hj) as (v & fl & idx & _ & _ & H3 & _ & H5).
    rewrite (nth_Some _ _ _ _ H3), (nth_Some _ _ _ _ H5). reflexivity. }
  assert (Hcc : cells_ok cut).
  { unfold cells_ok. rewrite Hn, L1, L2. destruct Hc. lia. }
  assert (Hic : indices_below cut (length xs)).
  { intros j idx Hj Hjx. rewrite Hn in Hj.
    destruct (Hcells j) as (v & fl & idx' & _ & _ & H3 & _ & H5); [lia |].
    rewrite H5 in Hjx. injection Hjx as <-. apply (Hidx j); assumption. }
  rewrite (DGG_cutLHS_sum base xs Hc Hidx) in Hl. injection Hl as <-.
  exists cut. eexists. split; [exact Hrun |].
  split; [apply DGG_cutLHS_sum; assumption |].
  rewrite Hn.
  rewrite (lhs_upto_ext (coeff cut) (coeff cut) (index base) (index cut) xs)
    by (intros; auto).
  destruct (mir_sums (ABOV (rhs base)) (coeff base) (coeff cut) (index base)
              isint xs (Z.to_nat (nz base))) as (z & s & Hs0 & Hlo & Heq).
  - apply ABOV_nonneg.
  - intros j Hj. destruct (Hcells j Hj) as (v & fl & idx & _ & _ & H3 & _).
    rewrite (nth_Some _ _ _ _ H3). apply (Hx j); [lia | exact H3].
  - intros j Hj Hfl. destruct (Hcells j Hj) as (v & fl & idx & _ & H2 & H3 & _).
    rewrite (nth_Some _ _ _ _ H3). apply (Hint j); [lia | | exact H3].
    rewrite (nth_Some _ _ _ _ H2) in Hfl. rewrite H2, Hfl. reflexivity.
  - intros j Hj. destruct (Hcells j Hj) as (v & fl & idx & H1 & H2 & _ & H4 & _).
    rewrite (nth_Some _ _ _ _ H1), (nth_Some _ _ _ _ H2), (nth_Some _ _ _ _ H4).
    reflexivity.
  - rewrite Heq, Hr. apply mir_rounding; [exact Hs0 | lra].
Qed.

(** ** The transformation: its output arrays *)

(** One iteration of the transformation also fills cell [k] of the three
    output arrays. *)
Lemma transform_step_outputs (d : DGG_data_t) (c0 c : DGG_constraint_t)
    (o : transform_out) (k : nat) :
  data_ok d -> cells_ok c0 -> (nz c0 <= max_nz c0)%Z ->
  indices_below c0 (Z.to_nat (ncol d + nrow d)) ->
  (Z.of_nat k < nz c0)%Z ->
  outputs_ok (max_nz c0) o -> shifted (shift_rhs d) d c0 k c ->
  outputs_upto d c0 k o ->
  forall o' c', transform_step d (Z.of_nat k) (o, c) = Ret (o', c') ->
  outputs_upto d c0 (Datatypes.S k) o'.
Proof.
  intros Hd Hc Hcap Hi Hk (Ho1 & Ho2 & Ho3)
    (Hnz & Hmx & Hix & Hs & Hlen & Hr & Hlo & Hhi) Hup0 o' c'.
  destruct (cells_coeff c0 k Hc Hk) as [a Ha].
  destruct (cells_index c0 k Hc Hk) as [idx Hidx].
  assert (Hin : (0 <= idx < ncol d + nrow d)%Z).
  { pose proof (Hi k idx Hk Hidx). destruct Hd. lia. }
  destruct (data_reads d idx Hd Hin) as (Hx & Hrc & Hu & Hl & w & Hw).
  assert (Hwn : nth (Z.to_nat idx) (info d) 0%Z = w).
  { apply rd_Ret in Hw as [_ Hw']. apply nth_Some. exact Hw'. }
  assert (Hak : coeff c !! k = Some a) by (rewrite Hhi by lia; exact Ha).
  assert (Hlt : (k < length (coeff c))%nat)
    by (apply lookup_lt_is_Some_1; eauto).
  assert (Hfin : forall (xo : list Q) (v : Q),
            length xo = length (x_out o) ->
            xo !! k = Some (snapped v) ->
            (forall j, j <> k -> xo !! j = x_out o !! j) ->
            complemented d idx (cell (x d) idx) = v ->
            outputs_upto d c0 (Datatypes.S k)
              (mkOut xo (<[k := cell (rc d) idx]> (rc_out o))
                 (<[k := integer_flag w]> (isint_out o)))).
  { intros xo v Hxl Hxk Hxj Hv j Hj. cbn [x_out rc_out isint_out].
    destruct (decide (j = k)) as [->|Hne].
    - rewrite (nth_Some _ _ _ _ Hidx), Hwn, Hv.
      rewrite !list_lookup_insert_eq by lia. auto.
    - rewrite !list_lookup_insert_ne by auto. rewrite Hxj by exact Hne.
      apply Hup0. lia. }
  unfold transform_step. rewrite Hix, (rd_nat _ _ _ Hidx). cbn [bind].
  rewrite Hx. cbn [bind]. rewrite wr_nat by lia. cbn [bind].
  rewrite Hrc. cbn [bind]. rewrite wr_nat by lia. cbn [bind].
  unfold DGG_isInteger. rewrite Hw. cbn [bind]. rewrite wr_nat by lia.
  cbn [bind]. rewrite Hu, Hl. cbn [bind].
  fold (upper_side d idx).
  destruct (upper_side d idx) eqn:Hup.
  - rewrite wr_nat by (rewrite length_insert; lia). cbn [bind].
    rewrite (rd_nat _ _ (cell (ub d) idx - cell (x d) idx))
      by (apply list_lookup_insert_eq; rewrite length_insert; lia).
    cbn [bind].
    destruct (fabs (cell (ub d) idx - cell (x d) idx) <=? DGG_BOUND_THRESH)
      eqn:Hsnap;
      [rewrite wr_nat by (rewrite !length_insert; lia) |]; cbn [bind];
      rewrite (rd_nat _ _ _ Hak); cbn [bind set_rhs coeff];
      rewrite (rd_nat _ _ _ Hak); cbn [bind];
      rewrite coeff_set_nat by (cbn [coeff]; exact Hlt); cbn [bind];
      intros [= <- <-];
      apply (Hfin _ (cell (ub d) idx - cell (x d) idx));
      try (rewrite !length_insert; reflexivity);
      try (unfold snapped; rewrite Hsnap; apply list_lookup_insert_eq;
           rewrite !length_insert; lia);
      try (intros j Hj; rewrite !list_lookup_insert_ne by auto; reflexivity);
      try (unfold complemented; rewrite Hup; reflexivity).
  - rewrite wr_nat by (rewrite length_insert; lia). cbn [bind].
    rewrite (rd_nat _ _ (cell (x d) idx - cell (lb d) idx))
      by (apply list_lookup_insert_eq; rewrite length_insert; lia).
    cbn [bind].
    destruct (fabs (cell (x d) idx - cell (lb d) idx) <=? DGG_BOUND_THRESH)
      eqn:Hsnap;
      [rewrite wr_nat by (rewrite !length_insert; lia) |]; cbn [bind];
      rewrite (rd_nat _ _ _ Hak); cbn [bind];
      intros [= <- <-];
      apply (Hfin _ (cell (x d) idx - cell (lb d) idx));
      try (rewrite !length_insert; reflexivity);
      try (unfold snapped; rewrite Hsnap; apply list_lookup_insert_eq;
           rewrite !length_insert; lia);
      try (intros j Hj; rewrite !list_lookup_insert_ne by auto; reflexivity);
      try (unfold complemented; rewrite Hup; reflexivity).
Qed.

Lemma transform_loop_outputs (d : DGG_data_t) (c0 : DGG_constraint_t) :
  data_ok d -> cells_ok c0 -> (nz c0 <= max_nz c0)%Z ->
  indices_below c0 (Z.to_nat (ncol d + nrow d)) ->
  exists o c, DGG_transformConstraint d c0 = Ret (0%Z, o, c) /\
              outputs_ok (max_nz c0) o /\
              outputs_upto d c0 (Z.to_nat (nz c0)) o.
Proof.
  intros Hd Hc Hcap Hi. unfold DGG_transformConstraint.
  assert (Hm : (0 <= max_nz c0)%Z) by (destruct Hc; lia).
  destruct (for_upto_inv
              (fun k st => (outputs_ok (max_nz c0) (fst st) /\
                            shifted (shift_rhs d) d c0 k (snd st)) /\
                           outputs_upto d c0 k (fst st))
              (transform_step d) (nz c0)
              (mkOut (malloc 0 (max_nz c0)) (malloc 0 (max_nz c0))
                 (malloc false (max_nz c0)), c0))
    as ([o c] & Hloop & (Ho & HP) & Hout).
  - apply Hc.
  - cbn [fst snd]. split; [split; [| apply shifted_start] |].
    + unfold outputs_ok. cbn [x_out rc_out isint_out].
      rewrite !length_malloc by exact Hm. auto.
    + intros j Hj. lia.
  - intros k [o c] Hk [HP Hout]. cbn [fst snd] in HP, Hout.
    destruct (transform_step_shifted d c0 c o k Hd Hc Hcap Hi Hk HP)
      as (o' & c' & Hs & Ho' & HP').
    exists (o', c'). cbn [fst snd]. split; [exact Hs |].
    split; [auto |].
    destruct HP as [Ho HPs].
    apply (transform_step_outputs d c0 c o k Hd Hc Hcap Hi Hk Ho HPs Hout
             o' c' Hs).
  - rewrite Hloop. cbn [bind fst snd] in *.
    destruct (shifted_cells _ d c0 c _ (length (x d)) HP Hc) as [Hc1 Hi1].
    { intros j idx Hj Hidx. pose proof (Hi j idx Hj Hidx).
      destruct Hd as (? & ? & _ & _ & _ & Hx & _). lia. }
    rewrite DGG_isConstraintViolated_unfold.
    destruct (DGG_cutLHS_defined c (x d) Hc1 Hi1) as [lhs ->]. cbn [bind].
    cbn. eauto.
Qed.

(** X12. The three arrays that [DGG_transformConstraint] hands out describe
    the variables of the constraint position by position: cell [j] holds
    the integrality flag and the reduced cost of the variable of term
    [j], and its value after the substitution, stored as 0 when within
    the bound threshold of 0.  For a variable within its bounds that
    value lies between 0 and half the distance of the bounds: the
    substitution is made at the closer bound. *)
Theorem DGG_transformConstraint_outputs (d : DGG_data_t) (c : DGG_constraint_t) :
  data_ok d -> cells_ok c -> (nz c <= max_nz c)%Z ->
  indices_below c (Z.to_nat (ncol d + nrow d)) ->
  exists o c1,
    DGG_transformConstraint d c = Ret (0%Z, o, c1) /\
    forall (j : nat) (idx : Z),
      (Z.of_nat j < nz c)%Z -> index c !! j = Some idx ->
      exists xv,
        x_out o !! j = Some xv /\
        rc_out o !! j = Some (cell (rc d) idx) /\
        (exists w, info d !! Z.to_nat idx = Some w /\
                   isint_out o !! j = Some (integer_flag w)) /\
        xv = snapped (complemented d idx (cell (x d) idx)) /\
        (cell (lb d) idx <= cell (x d) idx <= cell (ub d) idx ->
         0 <= xv <= (cell (ub d) idx - cell (lb d) idx) / 2).
Proof.
  intros Hd Hc Hcap Hi.
  destruct (transform_loop_outputs d c Hd Hc Hcap Hi) as (o & c1 & Ht & _ & Hout).
  exists o, c1. split; [exact Ht |].
  intros j idx Hj Hidx.
  destruct (Hout j) as (H1 & H2 & H3); [lia |].
  rewrite (nth_Some _ _ _ _ Hidx) in H1, H2, H3.
  assert (Hin : (0 <= idx < ncol d + nrow d)%Z).
  { pose proof (Hi j idx Hj Hidx). destruct Hd. lia. }
  destruct (data_reads d idx Hd Hin) as (_ & _ & _ & _ & w & Hw).
  apply rd_Ret in Hw as [_ Hw].
  eexists. split; [exact H1 |]. split; [exact H2 |]. split.
  { exists w. split; [exact Hw |]. rewrite H3, (nth_Some _ _ _ _ Hw).
    reflexivity. }
  split; [reflexivity |].
  intros [Hlo Hhi]. unfold snapped, complemented, upper_side.
  set (u := cell (ub d) idx) in *. set (l := cell (lb d) idx) in *.
  set (v := cell (x d) idx) in *.
  assert (Hhalf : (u - l) / 2 == (u - l) * (1 # 2)) by (field).
  qcase (u - v) ((u - l) / 2).
  - destruct (fabs (u - v) <=? DGG_BOUND_THRESH); lra.
  - destruct (fabs (v - l) <=? DGG_BOUND_THRESH); lra.
Qed.

(** ** The clean-up pass: what it does to the rhs, and its validity *)

Lemma nicefy_step_full (d : DGG_data_t) (c : DGG_constraint_t) (mn mx : Q)
    (k : nat) (a : Q) (idx : Z) :
  data_ok d -> (0 <= idx < ncol d + nrow d)%Z ->
  coeff c !! k = Some a -> index c !! k = Some idx ->
  exists c' mn' mx',
    nicefy_step d (Z.of_nat k) (c, mn, mx) = Ret (c', mn', mx') /\
    nz c' = nz c /\ max_nz c' = max_nz c /\ index c' = index c /\
    sense c' = sense c /\
    coeff c' = <[k := nice d idx a]> (coeff c) /\
    rhs c' = nice_rhs d idx a (rhs c).
Proof.
  intros Hd Hin Ha Hidx.
  assert (Hlt : (k < length (coeff c))%nat) by (apply lookup_lt_is_Some_1; eauto).
  destruct (data_reads d idx Hd Hin) as (_ & _ & Hu & _ & w & Hw).
  assert (Hwn : nth (Z.to_nat idx) (info d) 0%Z = w).
  { apply rd_Ret in Hw as [_ Hw]. apply nth_Some. exact Hw. }
  unfold nicefy_step, nice, nice_rhs, DGG_isInteger.
  rewrite (rd_nat _ _ _ Hidx). cbn [bind]. rewrite Hw, Hwn. cbn [bind].
  destruct (integer_flag w).
  - unfold nice_int. rewrite (rd_nat _ _ _ Ha). cbn [bind]. rewrite Hu.
    cbn [bind].
    destruct (ABOV a <? DGG_NICEFY_MIN_FIX).
    + rewrite coeff_set_nat by exact Hlt. cbn [bind].
      destruct (ABOV a * cell (ub d) idx <? DGG_NICEFY_MAX_PADDING).
      * cbn [bind set_rhs set_coeff coeff].
        rewrite (rd_nat _ _ (floor a)) by (apply list_lookup_insert_eq; exact Hlt).
        cbn [bind]. do 3 eexists. split; [reflexivity |]. cbn. auto 10.
      * cbn [set_coeff coeff].
        rewrite (rd_nat _ _ (floor a)) by (apply list_lookup_insert_eq; exact Hlt).
        cbn [bind].
        rewrite coeff_set_nat
          by (cbn [coeff set_coeff]; rewrite length_insert; exact Hlt).
        cbn [bind set_coeff coeff].
        rewrite (rd_nat _ _ (floor a + DGG_NICEFY_MIN_FIX))
          by (apply list_lookup_insert_eq; rewrite length_insert; exact Hlt).
        cbn [bind]. do 3 eexists. split; [reflexivity |].
        cbn [nz max_nz index sense coeff rhs]. rewrite list_insert_insert_eq.
        auto 10.
    + destruct (1 - ABOV a <? DGG_NICEFY_MIN_FIX).
      * rewrite coeff_set_nat by exact Hlt. cbn [bind set_coeff coeff].
        rewrite (rd_nat _ _ (ceil a)) by (apply list_lookup_insert_eq; exact Hlt).
        cbn [bind]. do 3 eexists. split; [reflexivity |]. cbn. auto 10.
      * cbn [bind]. rewrite (rd_nat _ _ _ Ha). cbn [bind].
        do 3 eexists. split; [reflexivity |].
        rewrite list_insert_id by exact Ha. auto 10.
  - unfold nice_cont. rewrite (rd_nat _ _ _ Ha). cbn [bind].
    destruct (a <? DGG_NICEFY_MIN_ABSVALUE).
    + rewrite coeff_set_nat by exact Hlt. cbn [bind set_coeff coeff].
      rewrite (rd_nat _ _ 0) by (apply list_lookup_insert_eq; exact Hlt).
      cbn [bind]. do 3 eexists. split; [reflexivity |]. cbn. auto 10.
    + destruct (a <? DGG_NICEFY_MIN_FIX).
      * rewrite Hu. cbn [bind].
        destruct (a * cell (ub d) idx <? DGG_NICEFY_MAX_PADDING).
        -- rewrite coeff_set_nat by exact Hlt. cbn [bind set_rhs set_coeff coeff].
           rewrite (rd_nat _ _ 0) by (apply list_lookup_insert_eq; exact Hlt).
           cbn [bind]. do 3 eexists. split; [reflexivity |]. cbn. auto 10.
        -- rewrite coeff_set_nat by exact Hlt. cbn [bind set_coeff coeff].
           rewrite (rd_nat _ _ DGG_NICEFY_MIN_FIX)
             by (apply list_lookup_insert_eq; exact Hlt).
           cbn [bind]. do 3 eexists. split; [reflexivity |]. cbn. auto 10.
      * cbn [bind]. rewrite (rd_nat _ _ _ Ha). cbn [bind].
        do 3 eexists. split; [reflexivity |].
        rewrite list_insert_id by exact Ha. auto 10.
Qed.

(** The whole pass: coefficients and rhs of the result. *)
Lemma DGG_nicefyConstraint_full (d : DGG_data_t) (cut : DGG_constraint_t) :
  data_ok d -> cells_ok cut ->
  indices_below cut (Z.to_nat (ncol d + nrow d)) ->
  sense cut <> "L"%char ->
  exists c1 cut',
    DGG_nicefyConstraint d cut = Ret (0%Z, cut') /\
    sense cut' = "G"%char /\
    nz cut' = nz cut /\ index cut' = index cut /\
    length (coeff cut') = length (coeff cut) /\
    (forall j : nat, (j < Z.to_nat (nz cut))%nat ->
       nth j c1 0 = noise (nth j (coeff cut) 0) /\
       coeff cut' !! j =
       Some (nice d (nth j (index cut) 0%Z) (nth j c1 0))) /\
    rhs cut' = rhs_after (nice_rhs d) c1 (index cut) (rhs cut)
                 (Z.to_nat (nz cut)).
Proof.
  intros Hd Hc Hi Hs. unfold DGG_nicefyConstraint.
  apply is_sense_false in Hs. rewrite Hs.
  destruct (for_upto_inv
              (fun k t => rhs t = rhs cut /\ mapped (fun _ => noise) cut k t)
              nicefy_noise_step (nz cut) cut) as (c1 & Hloop1 & Hr1 & HP1).
  { apply Hc. }
  { split; [reflexivity | apply mapped_start]. }
  { intros k t Hk [Hr HP].
    destruct (cells_coeff cut k Hc Hk) as [a Ha].
    destruct (cells_index cut k Hc Hk) as [idx Hidx].
    assert (Hak : coeff t !! k = Some a).
    { destruct HP as (_ & _ & _ & _ & _ & _ & Hhi). rewrite Hhi by lia. exact Ha. }
    destruct (nicefy_noise_step_eq t k a Hak)
      as (c' & Hstep & H1 & H2 & H3 & H4 & H6 & H5).
    exists c'. split; [exact Hstep |]. split; [congruence |].
    eapply (mapped_step (fun _ => noise)); eauto. }
  rewrite Hloop1. cbn [bind].
  destruct (mapped_cells _ cut c1 _ _ HP1 Hc Hi) as [Hc1 Hi1].
  destruct HP1 as (Hnz1 & Hmx1 & Hix1 & Hs1 & Hlen1 & Hlo1 & Hhi1).
  destruct (for_upto_inv
              (fun k st =>
                 rhs (fst (fst st)) =
                 rhs_after (nice_rhs d) (coeff c1) (index c1) (rhs c1) k /\
                 mapped (nice d) c1 k (fst (fst st)))
              (nicefy_step d) (nz c1) (c1, DBL_MAX, DBL_MIN))
    as ([[c2 mn] mx] & Hloop2 & Hr2 & HP2).
  { apply Hc1. }
  { split; [reflexivity | apply mapped_start]. }
  { intros k [[t mn] mx] Hk [Hr HP]. cbn [fst] in Hr, HP.
    destruct (cells_coeff c1 k Hc1 Hk) as [a Ha].
    destruct (cells_index c1 k Hc1 Hk) as [idx Hidx].
    assert (Hak : coeff t !! k = Some a).
    { destruct HP as (_ & _ & _ & _ & _ & _ & Hhi). rewrite Hhi by lia. exact Ha. }
    assert (Hik : index t !! k = Some idx).
    { destruct HP as (_ & _ & Hix & _). rewrite Hix. exact Hidx. }
    assert (Hin : (0 <= idx < ncol d + nrow d)%Z).
    { pose proof (Hi1 k idx Hk Hidx). destruct Hd. lia. }
    destruct (nicefy_step_full d t mn mx k a idx Hd Hin Hak Hik)
      as (c' & mn' & mx' & Hstep & H1 & H2 & H3 & H4 & H5 & H6).
    exists (c', mn', mx'). split; [exact Hstep |]. cbn [fst]. split.
    - cbn [rhs_after]. rewrite (nth_Some _ _ _ _ Ha), (nth_Some _ _ _ _ Hidx).
      rewrite <- Hr. exact H6.
    - eapply (mapped_step (nice d)); eauto. }
  rewrite Hloop2. cbn [bind fst] in *.
  destruct HP2 as (Hnz2 & Hmx2 & Hix2 & Hs2 & Hlen2 & Hlo2 & Hhi2).
  exists (coeff c1). eexists. split; [reflexivity |].
  cbn [set_sense sense nz max_nz index coeff rhs].
  rewrite Hnz1 in *. rewrite Hix1 in *. rewrite Hr1 in Hr2.
  repeat split; try congruence.
  - apply nth_Some. apply Hlo1. assumption.
  - apply Hlo2. assumption.
Qed.

(** One term of the pass: the new term, less what was taken from the
    rhs, is at least the old term. *)
Lemma nicefied_term (d : DGG_data_t) (idx : Z) (a xv r : Q) :
  0 <= DGG_NICEFY_MIN_ABSVALUE ->
  0 <= xv -> xv <= cell (ub d) idx ->
  a <= 0 \/ DGG_NICEFY_MIN_ABSVALUE <= a ->
  a * xv - r <= nice d idx (noise a) * xv - nice_rhs d idx (noise a) r.
Proof.
  intros Habs Hx0 Hxu Ha.
  set (c := noise a).
  assert (Hc : a * xv <= c * xv /\ (c <= 0 \/ DGG_NICEFY_MIN_ABSVALUE <= c)).
  { subst c. unfold noise, fabs. pose proof (Qle_Qabs a) as Hq.
    qcase (Qabs a) DGG_NICEFY_MIN_ABSVALUE.
    - split; [| left; lra].
      assert (a <= 0) by (destruct Ha; lra).
      assert (0 <= (- a) * xv) by (apply Qmult_le_0_compat; lra). lra.
    - split; [lra | exact Ha]. }
  destruct Hc as [Hac Hc]. clearbody c.
  set (u := cell (ub d) idx) in *.
  assert (Hmono : forall q, 0 <= q -> q * xv <= q * u)
    by (intros q Hq; apply Qmult_le_mono_l; assumption).
  assert (Hpos : forall p q, p <= q -> p * xv <= q * xv)
    by (intros p q Hpq; apply Qmult_le_compat_r; assumption).
  unfold nice, nice_rhs. fold u.
  destruct (integer_flag (nth (Z.to_nat idx) (info d) 0%Z)).
  - unfold nice_int. pose proof (ABOV_nonneg c) as Hf.
    assert (Hsplit : c == floor c + ABOV c) by (unfold ABOV; ring).
    qcase (ABOV c) DGG_NICEFY_MIN_FIX.
    + destruct (ABOV c * u <? DGG_NICEFY_MAX_PADDING).
      * pose proof (Hmono _ Hf).
        assert (c * xv == floor c * xv + ABOV c * xv)
          by (unfold ABOV; ring). lra.
      * pose proof (Hpos c (floor c + DGG_NICEFY_MIN_FIX)). lra.
    + qcase (1 - ABOV c) DGG_NICEFY_MIN_FIX; [| lra].
      pose proof (Qle_ceiling c) as Hce. fold (ceil c) in Hce.
      pose proof (Hpos c (ceil c) Hce). lra.
  - unfold nice_cont.
    qcase c DGG_NICEFY_MIN_ABSVALUE.
    + assert (c <= 0) by (destruct Hc; lra).
      assert (0 <= (- c) * xv) by (apply Qmult_le_0_compat; lra). lra.
    + qcase c DGG_NICEFY_MIN_FIX; [| lra].
      destruct (c * u <? DGG_NICEFY_MAX_PADDING).
      * assert (0 <= c) by lra. pose proof (Hmono c). lra.
      * pose proof (Hpos c DGG_NICEFY_MIN_FIX). lra.
Qed.

Lemma nicefied_sums (d : DGG_data_t) (co c1 co' : list Q) (ix : list Z)
    (xs : list Q) (r0 : Q) (k : nat) :
  0 <= DGG_NICEFY_MIN_ABSVALUE ->
  (forall j : nat, (j < k)%nat ->
     0 <= cell xs (nth j ix 0%Z) <= cell (ub d) (nth j ix 0%Z)) ->
  (forall j : nat, (j < k)%nat ->
     nth j co 0 <= 0 \/ DGG_NICEFY_MIN_ABSVALUE <= nth j co 0) ->
  (forall j : nat, (j < k)%nat ->
     nth j c1 0 = noise (nth j co 0) /\
     nth j co' 0 = nice d (nth j ix 0%Z) (nth j c1 0)) ->
  lhs_upto co ix xs k - r0 <=
  lhs_upto co' ix xs k - rhs_after (nice_rhs d) c1 ix r0 k.
Proof.
  intros Habs. induction k as [|k IH]; intros Hx Ha Hco.
  - cbn [lhs_upto rhs_after]. lra.
  - cbn [lhs_upto rhs_after].
    assert (IH' : lhs_upto co ix xs k - r0 <=
                  lhs_upto co' ix xs k - rhs_after (nice_rhs d) c1 ix r0 k).
    { apply IH; intros j Hj; [apply Hx | apply Ha | apply Hco]; lia. }
    destruct (Hco k) as [E1 E2]; [lia |]. rewrite E2, E1.
    destruct (Hx k) as [Hx0 Hxu]; [lia |].
    set (R := rhs_after (nice_rhs d) c1 ix r0 k) in *.
    pose proof (nicefied_term d (nth k ix 0%Z) (nth k co 0)
                  (cell xs (nth k ix 0%Z)) R Habs Hx0 Hxu (Ha k (Nat.lt_succ_diag_r k))).
    lra.
Qed.

(** X13. Validity of the clean-up pass.  With a nonnegative noise floor, on a
    constraint none of whose coefficients is positive noise (each is at
    most 0 or at least the noise floor), [DGG_nicefyConstraint] only
    relaxes: at every point that keeps the variables of the constraint
    between 0 and their upper bounds in the Snapshot, the left-hand side
    exceeds the rhs by at least as much after the pass as before, so a
    point at which the constraint held as '>=' still satisfies the
    result. *)
Theorem DGG_nicefyConstraint_valid (d : DGG_data_t) (cut : DGG_constraint_t)
    (xs : list Q) (lhs : Q) :
  0 <= DGG_NICEFY_MIN_ABSVALUE ->
  data_ok d -> cells_ok cut ->
  indices_below cut (Z.to_nat (ncol d + nrow d)) ->
  indices_below cut (length xs) ->
  sense cut <> "L"%char ->
  (forall (j : nat) (idx : Z),
     (Z.of_nat j < nz cut)%Z -> index cut !! j = Some idx ->
     0 <= cell xs idx <= cell (ub d) idx) ->
  (forall (j : nat) (a : Q),
     (Z.of_nat j < nz cut)%Z -> coeff cut !! j = Some a ->
     a <= 0 \/ DGG_NICEFY_MIN_ABSVALUE <= a) ->
  DGG_cutLHS cut xs = Ret lhs ->
  exists cut' lhs',
    DGG_nicefyConstraint d cut = Ret (0%Z, cut') /\
    DGG_cutLHS cut' xs = Ret lhs' /\
    lhs - rhs cut <= lhs' - rhs cut' /\
    (rhs cut <= lhs -> rhs cut' <= lhs').
Proof.
  intros Habs Hd Hc Hi Hix Hs Hx Ha Hl.
  destruct (DGG_nicefyConstraint_full d cut Hd Hc Hi Hs)
    as (c1 & cut' & Hrun & _ & Hnz & Hidx & Hlen & Hco & Hr).
  assert (Hc' : cells_ok cut').
  { unfold cells_ok. rewrite Hnz, Hidx, Hlen. exact Hc. }
  assert (Hi' : indices_below cut' (length xs)).
  { unfold indices_below. rewrite Hnz, Hidx. exact Hix. }
  rewrite (DGG_cutLHS_sum cut xs Hc Hix) in Hl. injection Hl as <-.
  exists cut'. eexists. split; [exact Hrun |].
  split; [apply DGG_cutLHS_sum; assumption |].
  assert (E : lhs_upto (coeff cut) (index cut) xs (Z.to_nat (nz cut)) - rhs cut <=
              lhs_upto (coeff cut') (index cut') xs (Z.to_nat (nz cut')) -
              rhs cut').
  { rewrite Hnz, Hidx, Hr. apply nicefied_sums.
    - exact Habs.
    - intros j Hj. destruct (cells_index cut j Hc) as [idx Hjx]; [lia |].
      rewrite (nth_Some _ _ _ _ Hjx). apply (Hx j); [lia | exact Hjx].
    - intros j Hj. destruct (cells_coeff cut j Hc) as [a Hja]; [lia |].
      rewrite (nth_Some _ _ _ _ Hja). apply (Ha j); [lia | exact Hja].
    - intros j Hj. destruct (Hco j Hj) as [E1 E2].
      split; [exact E1 |]. apply nth_Some. exact E2. }
  split; [exact E |]. intros Hb. lra.
Qed.

(** ** From the admissibility test to the two-step builder *)

Lemma DGG_is2stepValid_1_inv (alpha f : Q) :
  DGG_is2stepValid alpha f = 1%Z ->
  DGG_MIN_ALPHA <= alpha /\ DGG_is_a_multiple_of_b alpha f = 0%Z /\
  alpha < f /\ 0 < alpha /\ ceil (f / alpha) <= 1 / alpha.
Proof.
  unfold DGG_is2stepValid.
  qcase alpha DGG_MIN_ALPHA; [discriminate |].
  destruct (Z.eqb_spec (DGG_is_a_multiple_of_b alpha f) 0) as [Hm|Hm];
    cbn [negb]; [| discriminate].
  qcase alpha f; cbn [andb]; [| discriminate].
  qcase 0 alpha; cbn [andb]; [| discriminate].
  qcase_le (ceil (f / alpha)) (1 / alpha); [| discriminate].
  intros _. auto.
Qed.

(** X14. Every split that [DGG_is2stepValid] admits for the fractional part of
    the rhs of a base is one that [DGG_build2step] accepts: on a base
    that is not '<=' and has terms the builder returns 0 and a '>=' cut.
    An admitted split is at most 1/2, and it divides the fractional part
    into at least two steps. *)
Theorem DGG_is2stepValid_builds (alpha : Q) (isint : list bool)
    (base : DGG_constraint_t) :
  DGG_is2stepValid alpha (ABOV (rhs base)) = 1%Z ->
  sense base <> "L"%char -> nz base <> 0%Z -> cells_ok base ->
  (nz base <= Z.of_nat (length isint))%Z ->
  (exists cut,
     DGG_build2step alpha isint base = Ret (0%Z, Some cut) /\
     sense cut = "G"%char /\ nz cut = nz base) /\
  alpha <= 1 # 2 /\ 2 <= ceil (ABOV (rhs base) / alpha).
Proof.
  intros Hv Hs Hnz Hc Hi.
  destruct (DGG_is2stepValid_1_inv _ _ Hv) as (_ & Hm & Hf & Ha & Ht).
  set (f := ABOV (rhs base)) in *.
  assert (Htau : 2 <= ceil (f / alpha)).
  { assert (H1 : 1 < f / alpha) by (apply Qlt_shift_div_l; lra).
    pose proof (Qle_ceiling (f / alpha)) as Hce. fold (ceil (f / alpha)) in Hce.
    unfold ceil in *.
    assert (Hz : (1 < Qceiling (f / alpha))%Z).
    { rewrite Zlt_Qlt. change (inject_Z 1) with 1. lra. }
    assert (Hz2 : (2 <= Qceiling (f / alpha))%Z) by lia.
    rewrite Zle_Qle in Hz2. exact Hz2. }
  split; [| split; [| exact Htau]].
  - assert (Hpos : (0 < nz base)%Z) by (destruct Hc; lia).
    unfold DGG_build2step. apply is_sense_false in Hs. rewrite Hs.
    destruct (Z.eqb_spec (nz base) 0) as [|_]; [contradiction |].
    fold f.
    qcase_le f alpha; [lra |]. qcase_le alpha 0; [lra |]. cbn [orb].
    rewrite Hm. cbn [Z.eqb negb].
    apply DGG_is_a_multiple_of_b_0 in Hm.
    qcase (f - alpha * floor (f / alpha)) DGG_MIN_RHO; [lra |].
    rewrite DGG_newConstraint_pos by exact Hpos.
    set (t0 := set_sense (set_rhs _ _) "G").
    rewrite (for_upto_ext _
               (fill_step (twostep_coeff alpha
                             (f - alpha * floor (f / alpha))
                             (ceil (f / alpha))) isint base))
      by (intros; apply build2step_step_fill).
    destruct (fill_loop (twostep_coeff alpha (f - alpha * floor (f / alpha))
                           (ceil (f / alpha))) isint base t0 Hc Hi)
      as ([tmir lnz] & Hloop & HP).
    { subst t0. cbn [set_rhs set_sense coeff]. apply length_malloc. lia. }
    { subst t0. cbn [set_rhs set_sense index]. apply length_malloc. lia. }
    rewrite Hloop. cbn [bind].
    destruct HP as (Hl & _ & _ & _ & Hse & _). cbn [fst snd] in *.
    eexists. split; [reflexivity |]. cbn [set_nz sense nz].
    split; [rewrite Hse; reflexivity | lia].
  - assert (H2 : 2 <= 1 / alpha) by lra.
    assert (H3 : 2 * alpha <= (1 / alpha) * alpha)
      by (apply Qmult_le_compat_r; lra).
    assert (H4 : (1 / alpha) * alpha == 1) by (field; lra).
    lra.
Qed.

(** ** The rows of the formulation and their slack variables *)

Lemma rd_nth {A : Type} (a : list A) (i : Z) (dflt : A) :
  (0 <= i < Z.of_nat (length a))%Z -> rd a i = Ret (nth (Z.to_nat i) a dflt).
Proof.
  intros H. destruct (rd_defined a i H) as [v Hv]. rewrite Hv.
  apply rd_Ret in Hv as [_ Hv]. rewrite (nth_Some _ _ _ dflt Hv). reflexivity.
Qed.

Lemma lookup_nth_lt {A : Type} (l : list A) (j : nat) (dflt : A) :
  (j < length l)%nat -> l !! j = Some (nth j l dflt).
Proof.
  intros H. destruct (lookup_lt_is_Some_2 l j H) as [v Hv].
  rewrite Hv, (nth_Some _ _ _ dflt Hv). reflexivity.
Qed.

Lemma above_read (d : DGG_data_t) (r : nat) :
  data_ok d -> (Z.of_nat r < nrow d)%Z ->
  DGG_isConstraintBoundedAbove d (ncol d + Z.of_nat r) = Ret (row_above d r).
Proof.
  intros (H1 & H2 & H3 & _) Hr. unfold DGG_isConstraintBoundedAbove, row_above.
  rewrite (rd_nth _ _ 0%Z) by lia. cbn [bind].
  replace (Z.to_nat (ncol d + Z.of_nat r)) with (Z.to_nat (ncol d) + r)%nat
    by lia.
  reflexivity.
Qed.

(** The loop of [DGG_getSlackExpression] copies the row, negated when the
    row is bounded above. *)
Lemma slack_loop (si : solver_rows) (d : DGG_data_t) (r : nat)
    (row0 : DGG_constraint_t) :
  data_ok d -> rows_ok si d -> (Z.of_nat r < nrow d)%Z ->
  Z.of_nat (length (coeff row0)) = ncol d ->
  Z.of_nat (length (index row0)) = ncol d ->
  exists row,
    for_upto (nth r (rowBeg si) 0%Z)
      (nth r (rowBeg si) 0%Z + nth r (rowCnt si) 0%Z)
      (slack_step si d (Z.of_nat r) (nth r (rowBeg si) 0%Z)) row0 = Ret row /\
    nz row = nz row0 /\ rhs row = rhs row0 /\
    length (coeff row) = length (coeff row0) /\
    length (index row) = length (index row0) /\
    forall j : nat, (Z.of_nat j < nth r (rowCnt si) 0%Z)%Z ->
      coeff row !! j =
        Some (if row_above d r
              then - nth (Z.to_nat (nth r (rowBeg si) 0%Z) + j) (rowMat si) 0
              else nth (Z.to_nat (nth r (rowBeg si) 0%Z) + j) (rowMat si) 0) /\
      index row !! j =
        Some (nth (Z.to_nat (nth r (rowBeg si) 0%Z) + j) (rowInd si) 0%Z).
Proof.
  intros Hd Hrows Hr Hlc Hli.
  destruct Hrows as (_ & _ & _ & _ & Hrow).
  specialize (Hrow r Hr). cbv zeta in Hrow.
  set (beg := nth r (rowBeg si) 0%Z) in *.
  set (cnt := nth r (rowCnt si) 0%Z) in *.
  destruct Hrow as (Hbeg & Hcnt & Hmat & Hind & _).
  unfold for_upto.
  replace (Z.to_nat (beg + cnt - beg)) with (Z.to_nat cnt) by lia.
  destruct (for_loop_inv
              (fun k row =>
                 nz row = nz row0 /\ rhs row = rhs row0 /\
                 length (coeff row) = length (coeff row0) /\
                 length (index row) = length (index row0) /\
                 forall j : nat, (j < k)%nat ->
                   coeff row !! j =
                     Some (if row_above d r
                           then - nth (Z.to_nat beg + j) (rowMat si) 0
                           else nth (Z.to_nat beg + j) (rowMat si) 0) /\
                   index row !! j =
                     Some (nth (Z.to_nat beg + j) (rowInd si) 0%Z))
              (slack_step si d (Z.of_nat r) beg) (Z.to_nat cnt) beg row0)
    as (row & Hrun & HP).
  - repeat split; try reflexivity; lia.
  - intros k t Hk (Hnz & Hrhs & Hl1 & Hl2 & Hpre).
    unfold slack_step. cbv zeta.
    replace (beg + Z.of_nat k - beg)%Z with (Z.of_nat k) by lia.
    rewrite (rd_nth _ _ 0) by lia. cbn [bind].
    rewrite coeff_set_nat by lia. cbn [bind].
    rewrite (rd_nth _ _ 0%Z) by lia. cbn [bind].
    rewrite index_set_nat by (cbn [set_coeff index]; lia). cbn [bind].
    rewrite above_read by assumption. cbn [bind].
    replace (Z.to_nat (beg + Z.of_nat k)) with (Z.to_nat beg + k)%nat by lia.
    destruct (row_above d r) eqn:Hab.
    + cbn [coeff set_coeff].
      rewrite (rd_nat _ _ (nth (Z.to_nat beg + k) (rowMat si) 0))
        by (apply list_lookup_insert_eq; lia).
      cbn [bind].
      rewrite coeff_set_nat by (cbn [coeff]; rewrite length_insert; lia).
      eexists. split; [reflexivity |].
      cbn [set_coeff nz rhs coeff index]. rewrite !length_insert.
      repeat split; try assumption.
      * destruct (decide (j = k)) as [->|Hne].
        -- apply list_lookup_insert_eq. rewrite length_insert. lia.
        -- rewrite !list_lookup_insert_ne by auto. apply Hpre. lia.
      * destruct (decide (j = k)) as [->|Hne].
        -- apply list_lookup_insert_eq. lia.
        -- rewrite list_lookup_insert_ne by auto. apply Hpre. lia.
    + eexists. split; [reflexivity |].
      cbn [set_coeff nz rhs coeff index]. rewrite !length_insert.
      repeat split; try assumption.
      * destruct (decide (j = k)) as [->|Hne].
        -- apply list_lookup_insert_eq. lia.
        -- rewrite list_lookup_insert_ne by auto. apply Hpre. lia.
      * destruct (decide (j = k)) as [->|Hne].
        -- apply list_lookup_insert_eq. lia.
        -- rewrite list_lookup_insert_ne by auto. apply Hpre. lia.
  - exists row. split; [exact Hrun |].
    destruct HP as (H1 & H2 & H3 & H4 & H5).
    repeat split; try assumption; apply H5; lia.
Qed.


Lemma lhs_upto_neg (co co' : list Q) (ix : list Z) (xs : list Q) (k : nat) :
  (forall j : nat, (j < k)%nat -> nth j co' 0 = - nth j co 0) ->
  lhs_upto co' ix xs k == - lhs_upto co ix xs k.
Proof.
  induction k as [|k IH]; intros Hco.
  - cbn [lhs_upto]. ring.
  - cbn [lhs_upto]. rewrite Hco by lia. rewrite IH by (intros; apply Hco; lia).
    ring.
Qed.

Lemma nth_drop_plus {A : Type} (l : list A) (n j : nat) (dflt : A) :
  nth j (drop n l) dflt = nth (n + j) l dflt.
Proof. rewrite !nth_lookup, lookup_drop. reflexivity. Qed.

(** In range, [DGG_getSlackExpression] returns an expression over the
    structural variables whose value, rhs included, is the slack of the
    row. *)
Lemma DGG_getSlackExpression_runs (si : solver_rows) (d : DGG_data_t)
    (r : nat) :
  data_ok d -> rows_ok si d -> (0 < ncol d)%Z -> (Z.of_nat r < nrow d)%Z ->
  exists row,
    DGG_getSlackExpression si d (Z.of_nat r) = Ret (Some row) /\
    nz row = nth r (rowCnt si) 0%Z /\
    cells_ok row /\ indices_below row (Z.to_nat (ncol d)) /\
    sense row = "?"%char /\
    forall xs : list Q,
      rhs row + lhs_upto (coeff row) (index row) xs (Z.to_nat (nz row)) ==
      slack_value si d xs r.
Proof.
  intros Hd Hrows Hn Hr.
  pose proof Hrows as (Hb & Hc & Hu & Hl & Hrow).
  specialize (Hrow r Hr). cbv zeta in Hrow.
  destruct Hrow as (Hbeg & Hcnt & Hmat & Hind & Hcol).
  unfold DGG_getSlackExpression.
  rewrite DGG_newConstraint_pos by exact Hn.
  replace ((Z.of_nat r <? 0)%Z || (Z.of_nat r >? nrow d)%Z) with false
    by (symmetry; rewrite Z.gtb_ltb; apply orb_false_iff;
        split; apply Z.ltb_ge; lia).
  rewrite (rd_nth _ _ 0%Z) by lia. cbn [bind]. rewrite Nat2Z.id.
  rewrite (rd_nth _ _ 0%Z) by lia. cbn [bind]. rewrite Nat2Z.id.
  set (beg := nth r (rowBeg si) 0%Z) in *.
  set (cnt := nth r (rowCnt si) 0%Z) in *.
  destruct (slack_loop si d r
              (set_nz (mkConstraint 0 (ncol d) (malloc 0 (ncol d))
                         (malloc 0%Z (ncol d)) 0 "?") cnt) Hd Hrows Hr)
    as (row & Hrun & Hnz & Hrhs & Hl1 & Hl2 & Hcells).
  { cbn [set_nz coeff]. apply length_malloc. lia. }
  { cbn [set_nz index]. apply length_malloc. lia. }
  fold beg cnt in Hrun, Hcells. rewrite Hrun. cbn [bind].
  rewrite above_read by assumption. cbn [bind].
  cbn [set_nz nz rhs coeff index] in Hnz, Hrhs, Hl1, Hl2.
  assert (Hlm : Z.of_nat (length (coeff row)) = ncol d)
    by (rewrite Hl1; apply length_malloc; lia).
  assert (Hlx : Z.of_nat (length (index row)) = ncol d)
    by (rewrite Hl2; apply length_malloc; lia).
  assert (Hval : forall xs : list Q,
             lhs_upto (coeff row) (index row) xs (Z.to_nat cnt) ==
             (if row_above d r then - row_activity si r xs
              else row_activity si r xs)).
  { intros xs. unfold row_activity. fold beg cnt.
    rewrite (lhs_upto_ext (coeff row) (coeff row)
               (drop (Z.to_nat beg) (rowInd si)) (index row))
      by (first [reflexivity
                | intros j Hj; rewrite nth_drop_plus;
                  apply nth_Some, Hcells; lia]).
    destruct (row_above d r).
    - apply lhs_upto_neg. intros j Hj. rewrite nth_drop_plus.
      apply nth_Some, Hcells. lia.
    - rewrite (lhs_upto_ext (drop (Z.to_nat beg) (rowMat si)) (coeff row)
                 (drop (Z.to_nat beg) (rowInd si))
                 (drop (Z.to_nat beg) (rowInd si))); [reflexivity | |].
      + intros j Hj. rewrite nth_drop_plus. apply nth_Some, Hcells. lia.
      + reflexivity. }
  assert (Hok : forall row' : DGG_constraint_t,
             nz row' = cnt -> coeff row' = coeff row ->
             index row' = index row ->
             cells_ok row' /\ indices_below row' (Z.to_nat (ncol d))).
  { intros row' E1 E2 E3. split.
    - unfold cells_ok. rewrite E1, E2, E3. lia.
    - intros j idx Hj Hidx. rewrite E1 in Hj. rewrite E3 in Hidx.
      destruct (Hcells j Hj) as [_ Hix]. rewrite Hix in Hidx.
      injection Hidx as <-. specialize (Hcol j Hj). fold beg in Hcol. lia. }
  unfold slack_value.
  destruct (row_above d r) eqn:Hab.
  - rewrite (rd_nth _ _ 0) by lia. cbn [bind]. rewrite Nat2Z.id.
    eexists. split; [reflexivity |].
    cbn [set_rhs set_sense nz coeff index rhs sense].
    rewrite Hnz. split; [reflexivity |].
    destruct (Hok (set_rhs (set_sense row "?") (nth r (rowUpper si) 0)))
      as [Hk1 Hk2]; try reflexivity; [exact Hnz |].
    split; [exact Hk1 |]. split; [exact Hk2 |]. split; [reflexivity |].
    intros xs. rewrite Hval. ring.
  - rewrite (rd_nth _ _ 0) by lia. cbn [bind]. rewrite Nat2Z.id.
    eexists. split; [reflexivity |].
    cbn [set_rhs set_sense nz coeff index rhs sense].
    rewrite Hnz. split; [reflexivity |].
    destruct (Hok (set_rhs (set_sense row "?") (- nth r (rowLower si) 0)))
      as [Hk1 Hk2]; try reflexivity; [exact Hnz |].
    split; [exact Hk1 |]. split; [exact Hk2 |]. split; [reflexivity |].
    intros xs. rewrite Hval. ring.
Qed.

(** X15. [DGG_getSlackExpression] on a row of the formulation: the expression
    returned has the terms of the row, is tagged '?', and at every
    structural point its left-hand side plus its rhs is the value of the
    slack variable of the row: upper bound minus activity for a row
    bounded above, activity minus lower bound otherwise. *)
Theorem DGG_getSlackExpression_slack (si : solver_rows) (d : DGG_data_t)
    (r : nat) (xs : list Q) :
  data_ok d -> rows_ok si d -> (0 < ncol d)%Z -> (Z.of_nat r < nrow d)%Z ->
  Z.of_nat (length xs) = ncol d ->
  exists row lhs,
    DGG_getSlackExpression si d (Z.of_nat r) = Ret (Some row) /\
    sense row = "?"%char /\ nz row = nth r (rowCnt si) 0%Z /\
    DGG_cutLHS row xs = Ret lhs /\
    rhs row + lhs == slack_value si d xs r.
Proof.
  intros Hd Hrows Hn Hr Hxs.
  destruct (DGG_getSlackExpression_runs si d r Hd Hrows Hn Hr)
    as (row & Hrun & Hnz & Hc & Hi & Hs & Hv).
  exists row. eexists. split; [exact Hrun |]. split; [exact Hs |].
  split; [exact Hnz |]. split.
  - apply DGG_cutLHS_sum; [exact Hc |].
    replace (length xs) with (Z.to_nat (ncol d)) by lia. exact Hi.
  - apply Hv.
Qed.

(** X16. The range check of [DGG_getSlackExpression] lets the index [nrow]
    through: a negative index and one above [nrow] give the NULL pointer,
    but with [nrow] itself the routine reads the cell [nrow] of the row
    lengths, which an array of [nrow] cells does not have. *)
Theorem DGG_getSlackExpression_range (si : solver_rows) (d : DGG_data_t)
    (row_index : Z) :
  ((row_index < 0)%Z \/ (nrow d < row_index)%Z ->
   DGG_getSlackExpression si d row_index = Ret None) /\
  (row_index = nrow d -> (0 <= nrow d)%Z ->
   Z.of_nat (length (rowCnt si)) = nrow d ->
   DGG_getSlackExpression si d row_index = Undef).
Proof.
  split.
  - intros H. unfold DGG_getSlackExpression.
    replace ((row_index <? 0)%Z || (row_index >? nrow d)%Z) with true;
      [reflexivity |].
    symmetry. rewrite Z.gtb_ltb. apply orb_true_iff.
    destruct H; [left | right]; apply Z.ltb_lt; lia.
  - intros -> Hn Hlen. unfold DGG_getSlackExpression.
    replace ((nrow d <? 0)%Z || (nrow d >? nrow d)%Z) with false
      by (symmetry; rewrite Z.gtb_ltb; apply orb_false_iff;
          split; apply Z.ltb_ge; lia).
    destruct (DGG_newConstraint (ncol d)); [| reflexivity].
    rewrite rd_Undef by lia. reflexivity.
Qed.


Lemma equality_read (d : DGG_data_t) (r : nat) :
  data_ok d -> (Z.of_nat r < nrow d)%Z ->
  DGG_isEqualityConstraint d (ncol d + Z.of_nat r) = Ret (row_equality d r).
Proof.
  intros (H1 & H2 & H3 & _) Hr. unfold DGG_isEqualityConstraint, row_equality.
  rewrite (rd_nth _ _ 0%Z) by lia. cbn [bind].
  replace (Z.to_nat (ncol d + Z.of_nat r)) with (Z.to_nat (ncol d) + r)%nat
    by lia.
  reflexivity.
Qed.

(** The extended point agrees with the structural point on the structural
    indices, and holds the slack of the row [r] at the index [ncol + r]. *)
Lemma cell_extended_struct (si : solver_rows) (d : DGG_data_t) (xs : list Q)
    (idx : Z) :
  (0 <= idx < Z.of_nat (length xs))%Z ->
  cell (extended_point si d xs) idx = cell xs idx.
Proof.
  intros H. unfold cell, extended_point. apply app_nth1. lia.
Qed.

Lemma cell_extended_slack (si : solver_rows) (d : DGG_data_t) (xs : list Q)
    (r : nat) :
  Z.of_nat (length xs) = ncol d -> (Z.of_nat r < nrow d)%Z ->
  cell (extended_point si d xs) (ncol d + Z.of_nat r) = slack_value si d xs r.
Proof.
  intros Hx Hr. unfold cell, extended_point.
  rewrite app_nth2 by lia.
  replace (Z.to_nat (ncol d + Z.of_nat r) - length xs)%nat with r by lia.
  rewrite (nth_indep _ 0 (slack_value si d xs 0%nat))
    by (rewrite length_map, length_seq; lia).
  rewrite map_nth, seq_nth by lia. reflexivity.
Qed.

Lemma length_extended (si : solver_rows) (d : DGG_data_t) (xs : list Q) :
  Z.of_nat (length xs) = ncol d -> (0 <= nrow d)%Z ->
  length (extended_point si d xs) = Z.to_nat (ncol d + nrow d).
Proof.
  intros Hx Hn. unfold extended_point.
  rewrite length_app, length_map, length_seq. lia.
Qed.

(** A sum over structural indices does not see the slack values. *)
Lemma lhs_upto_extended (si : solver_rows) (d : DGG_data_t) (xs : list Q)
    (co : list Q) (ix : list Z) (k : nat) :
  (forall j : nat, (j < k)%nat ->
     (0 <= nth j ix 0%Z < Z.of_nat (length xs))%Z) ->
  lhs_upto co ix (extended_point si d xs) k = lhs_upto co ix xs k.
Proof.
  induction k as [|k IH]; intros H; [reflexivity |].
  cbn [lhs_upto]. rewrite IH by (intros; apply H; lia).
  rewrite cell_extended_struct by (apply H; lia). reflexivity.
Qed.


Lemma coeff_set_Z (c : DGG_constraint_t) (i : Z) (v : Q) :
  (0 <= i < Z.of_nat (length (coeff c)))%Z ->
  coeff_set c i v = Ret (set_coeff c (<[Z.to_nat i := v]> (coeff c))).
Proof. intros H. unfold coeff_set. rewrite wr_Ret by exact H. reflexivity. Qed.

Lemma index_set_Z (c : DGG_constraint_t) (i : Z) (v : Z) :
  (0 <= i < Z.of_nat (length (index c)))%Z ->
  index_set c i v =
  Ret (mkConstraint (nz c) (max_nz c) (coeff c) (<[Z.to_nat i := v]> (index c))
         (rhs c) (sense c)).
Proof. intros H. unfold index_set. rewrite wr_Ret by exact H. reflexivity. Qed.

(** The two copy loops of [DGG_getFormulaConstraint]. *)
Lemma formula_coeff_loop (si : solver_rows) (d : DGG_data_t) (r : nat)
    (f0 : DGG_constraint_t) :
  rows_ok si d -> (Z.of_nat r < nrow d)%Z ->
  (nth r (rowCnt si) 0%Z <= Z.of_nat (length (coeff f0)))%Z ->
  exists f,
    for_upto 0 (nth r (rowCnt si) 0%Z)
      (fun i f =>
         do beg <- rd (rowBeg si) (Z.of_nat r) ;;
         do v <- rd (rowMat si) (beg + i) ;;
         coeff_set f i v) f0 = Ret f /\
    nz f = nz f0 /\ max_nz f = max_nz f0 /\ index f = index f0 /\
    rhs f = rhs f0 /\ sense f = sense f0 /\
    length (coeff f) = length (coeff f0) /\
    forall j : nat, (Z.of_nat j < nth r (rowCnt si) 0%Z)%Z ->
      coeff f !! j =
      Some (nth (Z.to_nat (nth r (rowBeg si) 0%Z) + j) (rowMat si) 0).
Proof.
  intros (Hb & _ & _ & _ & Hrow) Hr Hlen.
  specialize (Hrow r Hr). cbv zeta in Hrow.
  destruct Hrow as (Hbeg & Hcnt & Hmat & _).
  set (beg := nth r (rowBeg si) 0%Z) in *.
  set (cnt := nth r (rowCnt si) 0%Z) in *.
  destruct (for_upto_inv
              (fun k f =>
                 nz f = nz f0 /\ max_nz f = max_nz f0 /\
                 index f = index f0 /\ rhs f = rhs f0 /\
                 sense f = sense f0 /\
                 length (coeff f) = length (coeff f0) /\
                 forall j : nat, (j < k)%nat ->
                   coeff f !! j =
                   Some (nth (Z.to_nat beg + j) (rowMat si) 0))
              (fun i f =>
                 do beg <- rd (rowBeg si) (Z.of_nat r) ;;
                 do v <- rd (rowMat si) (beg + i) ;;
                 coeff_set f i v) cnt f0) as (f & Hrun & HP).
  - lia.
  - repeat split; try reflexivity. intros j Hj. lia.
  - intros k t Hk (H1 & H2 & H3 & H4 & H5 & H6 & Hpre).
    rewrite (rd_nth _ _ 0%Z) by lia. cbn [bind]. rewrite Nat2Z.id. fold beg.
    rewrite (rd_nth _ _ 0) by lia. cbn [bind].
    rewrite coeff_set_nat by lia.
    eexists. split; [reflexivity |].
    cbn [set_coeff nz max_nz index rhs sense coeff]. rewrite length_insert.
    repeat split; try assumption.
    intros j Hj. destruct (decide (j = k)) as [->|Hne].
    + replace (Z.to_nat (beg + Z.of_nat k)) with (Z.to_nat beg + k)%nat by lia.
      apply list_lookup_insert_eq. lia.
    + rewrite list_lookup_insert_ne by auto. apply Hpre. lia.
  - exists f. split; [exact Hrun |].
    destruct HP as (H1 & H2 & H3 & H4 & H5 & H6 & Hpre).
    repeat split; try assumption. intros j Hj. apply Hpre. lia.
Qed.

Lemma formula_index_loop (si : solver_rows) (d : DGG_data_t) (r : nat)
    (f0 : DGG_constraint_t) :
  rows_ok si d -> (Z.of_nat r < nrow d)%Z ->
  (nth r (rowCnt si) 0%Z <= Z.of_nat (length (index f0)))%Z ->
  exists f,
    for_upto 0 (nth r (rowCnt si) 0%Z)
      (fun i f =>
         do beg <- rd (rowBeg si) (Z.of_nat r) ;;
         do v <- rd (rowInd si) (beg + i) ;;
         index_set f i v) f0 = Ret f /\
    nz f = nz f0 /\ max_nz f = max_nz f0 /\ coeff f = coeff f0 /\
    rhs f = rhs f0 /\ sense f = sense f0 /\
    length (index f) = length (index f0) /\
    forall j : nat, (Z.of_nat j < nth r (rowCnt si) 0%Z)%Z ->
      index f !! j =
      Some (nth (Z.to_nat (nth r (rowBeg si) 0%Z) + j) (rowInd si) 0%Z).
Proof.
  intros (Hb & _ & _ & _ & Hrow) Hr Hlen.
  specialize (Hrow r Hr). cbv zeta in Hrow.
  destruct Hrow as (Hbeg & Hcnt & _ & Hind & _).
  set (beg := nth r (rowBeg si) 0%Z) in *.
  set (cnt := nth r (rowCnt si) 0%Z) in *.
  destruct (for_upto_inv
              (fun k f =>
                 nz f = nz f0 /\ max_nz f = max_nz f0 /\
                 coeff f = coeff f0 /\ rhs f = rhs f0 /\
                 sense f = sense f0 /\
                 length (index f) = length (index f0) /\
                 forall j : nat, (j < k)%nat ->
                   index f !! j =
                   Some (nth (Z.to_nat beg + j) (rowInd si) 0%Z))
              (fun i f =>
                 do beg <- rd (rowBeg si) (Z.of_nat r) ;;
                 do v <- rd (rowInd si) (beg + i) ;;
                 index_set f i v) cnt f0) as (f & Hrun & HP).
  - lia.
  - repeat split; try reflexivity. intros j Hj. lia.
  - intros k t Hk (H1 & H2 & H3 & H4 & H5 & H6 & Hpre).
    rewrite (rd_nth _ _ 0%Z) by lia. cbn [bind]. rewrite Nat2Z.id. fold beg.
    rewrite (rd_nth _ _ 0%Z) by lia. cbn [bind].
    rewrite index_set_nat by lia.
    eexists. split; [reflexivity |].
    cbn [nz max_nz index rhs sense coeff]. rewrite length_insert.
    repeat split; try assumption.
    intros j Hj. destruct (decide (j = k)) as [->|Hne].
    + replace (Z.to_nat (beg + Z.of_nat k)) with (Z.to_nat beg + k)%nat by lia.
      apply list_lookup_insert_eq. lia.
    + rewrite list_lookup_insert_ne by auto. apply Hpre. lia.
  - exists f. split; [exact Hrun |].
    destruct HP as (H1 & H2 & H3 & H4 & H5 & H6 & Hpre).
    repeat split; try assumption. intros j Hj. apply Hpre. lia.
Qed.

(** X17. [DGG_getFormulaConstraint] on a row of the formulation, into a
    constraint with room for one term more than the row has: the routine
    returns 0; the sense is '=' for an equality row, '<=' for another row
    bounded above and '>=' otherwise; the rhs is the upper bound of a row
    bounded above and the lower bound otherwise.  For a row that is not an
    equality the slack term is appended, and at every structural point
    extended by the slack values the two sides are equal.  For an equality
    row no term is appended and the left-hand side is the activity of the
    row. *)
Theorem DGG_getFormulaConstraint_tight (si : solver_rows) (d : DGG_data_t)
    (r : nat) (form_row : DGG_constraint_t) (xs : list Q) :
  data_ok d -> rows_ok si d -> (Z.of_nat r < nrow d)%Z ->
  Z.of_nat (length xs) = ncol d ->
  (nth r (rowCnt si) 0%Z < Z.of_nat (length (coeff form_row)))%Z ->
  (nth r (rowCnt si) 0%Z < Z.of_nat (length (index form_row)))%Z ->
  exists f lhs,
    DGG_getFormulaConstraint (Z.of_nat r) si d form_row = Ret (0%Z, f) /\
    max_nz f = (nth r (rowCnt si) 0%Z + 1)%Z /\
    sense f = (if row_equality d r then "E"
               else if row_above d r then "L" else "G")%char /\
    rhs f = (if row_above d r then nth r (rowUpper si) 0
             else nth r (rowLower si) 0) /\
    DGG_cutLHS f (extended_point si d xs) = Ret lhs /\
    (row_equality d r = false ->
       nz f = (nth r (rowCnt si) 0%Z + 1)%Z /\ lhs == rhs f) /\
    (row_equality d r = true ->
       nz f = nth r (rowCnt si) 0%Z /\ lhs == row_activity si r xs).
Proof.
  intros Hd Hrows Hr Hxs Hlc Hli.
  pose proof Hrows as (Hb & Hc & Hu & Hl & Hrow).
  specialize (Hrow r Hr). cbv zeta in Hrow.
  destruct Hrow as (Hbeg & Hcnt & Hmat & Hind & Hcol).
  pose proof Hd as (Hnc & Hnr & _).
  unfold DGG_getFormulaConstraint.
  replace ((nrow d <=? Z.of_nat r)%Z || (0 >? Z.of_nat r)%Z) with false
    by (symmetry; rewrite Z.gtb_ltb; apply orb_false_iff;
        split; [apply Z.leb_gt | apply Z.ltb_ge]; lia).
  rewrite (rd_nth _ _ 0%Z) by lia. cbn [bind]. rewrite Nat2Z.id.
  set (beg := nth r (rowBeg si) 0%Z) in *.
  set (cnt := nth r (rowCnt si) 0%Z) in *.
  destruct (formula_coeff_loop si d r
              (mkConstraint cnt (cnt + 1) (coeff form_row) (index form_row)
                 (rhs form_row) (sense form_row)) Hrows Hr)
    as (f1 & Hrun1 & A1 & A2 & A3 & A4 & A5 & A6 & A7).
  { cbn [coeff]. fold cnt. lia. }
  fold cnt in Hrun1, A7. fold beg in A7. rewrite Hrun1. cbn [bind].
  cbn [nz max_nz coeff index rhs sense] in A1, A2, A3, A4, A5, A6.
  destruct (formula_index_loop si d r f1 Hrows Hr)
    as (f2 & Hrun2 & B1 & B2 & B3 & B4 & B5 & B6 & B7).
  { fold cnt. rewrite A3. lia. }
  fold cnt in Hrun2, B7. fold beg in B7. rewrite Hrun2. cbn [bind].
  rewrite above_read by assumption. cbn [bind].
  assert (Hact : forall (co : list Q) (ix : list Z),
             (forall j : nat, (j < Z.to_nat cnt)%nat ->
                nth j co 0 = nth j (coeff f2) 0) ->
             (forall j : nat, (j < Z.to_nat cnt)%nat ->
                nth j ix 0%Z = nth j (index f2) 0%Z) ->
             lhs_upto co ix (extended_point si d xs) (Z.to_nat cnt) =
             row_activity si r xs).
  { intros co ix Hco Hix.
    rewrite lhs_upto_extended.
    - unfold row_activity. fold beg cnt. apply lhs_upto_ext.
      + intros j Hj. rewrite Hco by exact Hj. rewrite nth_drop_plus, B3.
        apply nth_Some, A7. lia.
      + intros j Hj. rewrite Hix by exact Hj. rewrite nth_drop_plus.
        apply nth_Some, B7. lia.
    - intros j Hj. rewrite Hix by exact Hj.
      rewrite (nth_Some _ _ _ 0%Z (B7 j ltac:(lia))).
      specialize (Hcol j ltac:(lia)). fold beg in Hcol. lia. }
  assert (Hlen1 : length (coeff f2) = length (coeff form_row))
    by (rewrite B3; exact A6).
  assert (Hlen2 : length (index f2) = length (index form_row))
    by (rewrite B6, A3; reflexivity).
  assert (Hbelow : forall j : nat, (Z.of_nat j < cnt)%Z ->
             forall idx : Z, index f2 !! j = Some idx ->
             (0 <= idx < Z.of_nat (length (extended_point si d xs)))%Z).
  { intros j Hj idx Hidx. rewrite (B7 j Hj) in Hidx. injection Hidx as <-.
    rewrite length_extended by assumption.
    specialize (Hcol j Hj). fold beg in Hcol. lia. }
  set (u := if row_above d r then nth r (rowUpper si) 0
            else nth r (rowLower si) 0).
  set (s := (if row_above d r then "L" else "G")%char).
  assert (Hside :
            (if row_above d r
             then do u <- rd (rowUpper si) (Z.of_nat r) ;;
                  Ret (set_sense (set_rhs f2 u) "L")
             else do l <- rd (rowLower si) (Z.of_nat r) ;;
                  Ret (set_sense (set_rhs f2 l) "G")) =
            Ret (set_sense (set_rhs f2 u) s)).
  { subst u s. destruct (row_above d r);
      rewrite (rd_nth _ _ 0) by lia; cbn [bind]; rewrite Nat2Z.id;
      reflexivity. }
  rewrite Hside. cbn [bind].
  rewrite equality_read by assumption. cbn [bind].
  destruct (row_equality d r) eqn:Heq; cbn [negb].
  - (* an equality row: no slack term *)
    set (f := set_sense (set_sense (set_rhs f2 u) s) "E").
    assert (Hcf : cells_ok f).
    { unfold cells_ok. subst f. cbn [set_sense set_rhs nz coeff index].
      rewrite B1, A1, Hlen1, Hlen2. lia. }
    assert (Hif : indices_below f (length (extended_point si d xs))).
    { intros j idx Hj Hidx. subst f.
      cbn [set_sense set_rhs nz index] in Hj, Hidx.
      rewrite B1, A1 in Hj. eapply Hbelow; eauto. }
    exists f. eexists. split; [reflexivity |].
    split; [subst f; cbn [set_sense set_rhs max_nz]; rewrite B2, A2; reflexivity |].
    split; [reflexivity |]. split; [reflexivity |].
    split; [apply DGG_cutLHS_sum; assumption |].
    split; [discriminate |]. intros _.
    assert (Hnzf : nz f = cnt)
      by (subst f; cbn [set_sense set_rhs nz]; rewrite B1, A1; reflexivity).
    split; [exact Hnzf |]. rewrite Hnzf.
    rewrite (Hact (coeff f) (index f)); reflexivity.
  - (* another row: the slack term is appended *)
    cbn [set_sense set_rhs index coeff nz max_nz rhs sense].
    rewrite index_set_Z by (cbn [index set_sense set_rhs]; lia).
    cbn [bind].
    rewrite coeff_set_Z by (cbn [coeff set_sense set_rhs]; lia).
    cbn [bind]. unfold set_nz, set_coeff, set_sense, set_rhs.
    cbn [nz max_nz coeff index rhs sense].
    set (f := mkConstraint _ _ _ _ _ _).
    assert (Hnzf : nz f = (cnt + 1)%Z)
      by (subst f; cbn [nz]; rewrite B1, A1; reflexivity).
    assert (Hcf : cells_ok f).
    { unfold cells_ok. rewrite Hnzf. subst f. cbn [coeff index].
      rewrite !length_insert, Hlen1, Hlen2. lia. }
    assert (Hif : indices_below f (length (extended_point si d xs))).
    { intros j idx Hj Hidx. rewrite Hnzf in Hj. subst f. cbn [index] in Hidx.
      destruct (decide (j = Z.to_nat cnt)) as [->|Hne].
      - rewrite list_lookup_insert_eq in Hidx by lia. injection Hidx as <-.
        rewrite length_extended by assumption. lia.
      - rewrite list_lookup_insert_ne in Hidx by auto.
        apply (Hbelow j); [lia | exact Hidx]. }
    exists f. eexists. split; [reflexivity |].
    split; [subst f; cbn [max_nz]; rewrite B2, A2; reflexivity |].
    split; [reflexivity |]. split; [reflexivity |].
    split; [apply DGG_cutLHS_sum; assumption |].
    split; [| discriminate]. intros _.
    split; [exact Hnzf |]. rewrite Hnzf.
    replace (Z.to_nat (cnt + 1)) with (Datatypes.S (Z.to_nat cnt)) by lia.
    cbn [lhs_upto].
    rewrite (Hact (coeff f) (index f)).
    + subst f. cbn [coeff index rhs].
      rewrite (nth_Some _ (Z.to_nat cnt) (if row_above d r then 1 else - (1)) 0)
        by (apply list_lookup_insert_eq; lia).
      rewrite (nth_Some _ (Z.to_nat cnt) (ncol d + Z.of_nat r)%Z 0%Z)
        by (apply list_lookup_insert_eq; lia).
      rewrite cell_extended_slack by assumption.
      unfold slack_value. subst u. destruct (row_above d r); ring.
    + intros j Hj. subst f. cbn [coeff].
      rewrite !nth_lookup, list_lookup_insert_ne by lia. reflexivity.
    + intros j Hj. subst f. cbn [index].
      rewrite !nth_lookup, list_lookup_insert_ne by lia. reflexivity.
Qed.


(** ** Slack substitution *)

Lemma dot_insert (l xs : list Q) (i : nat) (v : Q) (k : nat) :
  (i < length l)%nat ->
  dot (<[i := v]> l) xs k ==
  dot l xs k + (if (i <? k)%nat then (v - nth i l 0) * nth i xs 0 else 0).
Proof.
  intros Hi. induction k as [|k IH].
  - cbn [dot]. destruct (Nat.ltb_spec i 0); [lia | ring].
  - cbn [dot]. rewrite IH.
    destruct (decide (k = i)) as [->|Hne].
    + rewrite (nth_Some (<[i := v]> l) i v 0)
        by (apply list_lookup_insert_eq; exact Hi).
      destruct (Nat.ltb_spec i i); [lia |].
      destruct (Nat.ltb_spec i (Datatypes.S i)); [| lia]. ring.
    + replace (nth k (<[i := v]> l) 0) with (nth k l 0)
        by (rewrite !nth_lookup, list_lookup_insert_ne by auto; reflexivity).
      destruct (Nat.ltb_spec i k); destruct (Nat.ltb_spec i (Datatypes.S k));
        try lia; ring.
Qed.

Lemma nth_malloc_0 (n : Z) (k : nat) : nth k (malloc 0 n) 0 = 0.
Proof.
  unfold malloc. rewrite nth_lookup.
  destruct (replicate (Z.to_nat n) 0 !! k) eqn:E; [| reflexivity].
  apply lookup_replicate in E as [-> _]. reflexivity.
Qed.

Lemma dot_malloc_0 (n : Z) (xs : list Q) (k : nat) :
  dot (malloc 0 n) xs k == 0.
Proof.
  induction k as [|k IH]; cbn [dot]; [reflexivity |].
  rewrite IH, nth_malloc_0. ring.
Qed.

(** The inner loop adds the slack expression, weighted, to the dense
    row. *)
Lemma subst_row_loop (cut row : DGG_constraint_t) (i : nat) (a : Q)
    (lcut xs : list Q) :
  coeff cut !! i = Some a -> cells_ok row ->
  indices_below row (length lcut) ->
  exists lcut',
    for_upto 0 (nz row) (subst_row_step cut row (Z.of_nat i)) lcut =
      Ret lcut' /\
    length lcut' = length lcut /\
    dot lcut' xs (length lcut) ==
    dot lcut xs (length lcut) +
    a * lhs_upto (coeff row) (index row) xs (Z.to_nat (nz row)).
Proof.
  intros Ha Hc Hi.
  destruct (for_upto_inv
              (fun k l =>
                 length l = length lcut /\
                 dot l xs (length lcut) ==
                 dot lcut xs (length lcut) +
                 a * lhs_upto (coeff row) (index row) xs k)
              (subst_row_step cut row (Z.of_nat i)) (nz row) lcut)
    as (l & Hrun & HP).
  - apply Hc.
  - split; [reflexivity |]. cbn [lhs_upto]. ring.
  - intros k l Hk (Hlen & Hdot).
    destruct (cells_coeff row k Hc Hk) as [rc Hrc].
    destruct (cells_index row k Hc Hk) as [rj Hrj].
    pose proof (Hi k rj Hk Hrj) as Hrange.
    unfold subst_row_step.
    rewrite (rd_nat _ _ _ Hrj). cbn [bind].
    rewrite (rd_nth _ _ 0) by lia. cbn [bind].
    rewrite (rd_nat _ _ _ Hrc). cbn [bind].
    rewrite (rd_nat _ _ _ Ha). cbn [bind].
    rewrite wr_Ret by lia.
    eexists. split; [reflexivity |]. rewrite length_insert.
    split; [exact Hlen |].
    rewrite dot_insert by lia.
    destruct (Nat.ltb_spec (Z.to_nat rj) (length lcut)); [| lia].
    cbn [lhs_upto]. rewrite Hdot.
    rewrite (nth_Some _ _ _ 0 Hrc), (nth_Some _ _ _ 0%Z Hrj).
    unfold cell. ring.
  - exists l. destruct HP as [H1 H2]. auto.
Qed.

(** One term of the cut moves to the dense row without changing the
    value of the cut at the extended point. *)
Lemma subst_step_value (si : solver_rows) (d : DGG_data_t)
    (cut : DGG_constraint_t) (xs : list Q) (k : nat) (st : list Q * Q) :
  data_ok d -> rows_ok si d -> (0 < ncol d)%Z -> cells_ok cut ->
  indices_below cut (Z.to_nat (ncol d + nrow d)) ->
  Z.of_nat (length xs) = ncol d ->
  (Z.of_nat k < nz cut)%Z ->
  length (fst st) = Z.to_nat (ncol d) ->
  exists st',
    subst_step si d cut (Z.of_nat k) st = Ret st' /\
    length (fst st') = Z.to_nat (ncol d) /\
    dot (fst st') xs (Z.to_nat (ncol d)) - snd st' ==
    dot (fst st) xs (Z.to_nat (ncol d)) - snd st +
    nth k (coeff cut) 0 *
    cell (extended_point si d xs) (nth k (index cut) 0%Z).
Proof.
  intros Hd Hrows Hn Hc Hi Hxs Hk Hlen.
  destruct st as [lcut lrhs]. cbn [fst snd] in *.
  destruct (cells_coeff cut k Hc Hk) as [a Ha].
  destruct (cells_index cut k Hc Hk) as [idx Hidx].
  pose proof (Hi k idx Hk Hidx) as Hrange.
  rewrite (nth_Some _ _ _ 0 Ha), (nth_Some _ _ _ 0%Z Hidx).
  unfold subst_step.
  rewrite (rd_nat _ _ _ Hidx). cbn [bind].
  destruct (Z.ltb_spec idx (ncol d)) as [Hlt|Hge].
  - rewrite (rd_nth _ _ 0) by lia. cbn [bind].
    rewrite (rd_nat _ _ _ Ha). cbn [bind].
    rewrite wr_Ret by lia. cbn [bind].
    eexists. split; [reflexivity |]. cbn [fst snd]. rewrite length_insert.
    split; [exact Hlen |].
    rewrite dot_insert by lia.
    destruct (Nat.ltb_spec (Z.to_nat idx) (Z.to_nat (ncol d))); [| lia].
    rewrite cell_extended_struct by lia. unfold cell. ring.
  - assert (Hr : exists r : nat,
               idx = (ncol d + Z.of_nat r)%Z /\ (Z.of_nat r < nrow d)%Z)
      by (exists (Z.to_nat (idx - ncol d)); lia).
    destruct Hr as (r & -> & Hr).
    replace (ncol d + Z.of_nat r - ncol d)%Z with (Z.of_nat r) by lia.
    destruct (DGG_getSlackExpression_runs si d r Hd Hrows Hn Hr)
      as (row & Hrun & Hnz & Hcr & Hir & Hs & Hv).
    rewrite Hrun. cbn [bind].
    destruct (subst_row_loop cut row k a lcut xs Ha Hcr)
      as (l' & Hl & Hlen' & Hdot).
    { rewrite Hlen. exact Hir. }
    rewrite Hl. cbn [bind].
    rewrite (rd_nat _ _ _ Ha). cbn [bind].
    unfold DGG_freeConstraint. cbn [bind].
    eexists. split; [reflexivity |]. cbn [fst snd].
    split; [congruence |].
    rewrite Hlen in Hdot. rewrite Hdot.
    rewrite cell_extended_slack by assumption.
    rewrite <- (Hv xs). ring.
Qed.

(** The first loop of [DGG_substituteSlacks]: the dense row and the new
    rhs have, at a structural point, the value of the cut at the extended
    point. *)
Lemma subst_loop (si : solver_rows) (d : DGG_data_t)
    (cut : DGG_constraint_t) (xs : list Q) :
  data_ok d -> rows_ok si d -> (0 < ncol d)%Z -> cells_ok cut ->
  indices_below cut (Z.to_nat (ncol d + nrow d)) ->
  Z.of_nat (length xs) = ncol d ->
  exists lcut lrhs,
    for_upto 0 (nz cut) (subst_step si d cut) (malloc 0 (ncol d), rhs cut) =
      Ret (lcut, lrhs) /\
    length lcut = Z.to_nat (ncol d) /\
    dot lcut xs (Z.to_nat (ncol d)) - lrhs ==
    lhs_upto (coeff cut) (index cut) (extended_point si d xs)
      (Z.to_nat (nz cut)) - rhs cut.
Proof.
  intros Hd Hrows Hn Hc Hi Hxs.
  destruct (for_upto_inv
              (fun k st =>
                 length (fst st) = Z.to_nat (ncol d) /\
                 dot (fst st) xs (Z.to_nat (ncol d)) - snd st ==
                 lhs_upto (coeff cut) (index cut) (extended_point si d xs) k -
                 rhs cut)
              (subst_step si d cut) (nz cut) (malloc 0 (ncol d), rhs cut))
    as ([lcut lrhs] & Hrun & Hlen & Hval).
  - apply Hc.
  - cbn [fst snd lhs_upto]. split.
    + unfold malloc. apply length_replicate.
    + rewrite dot_malloc_0. ring.
  - intros k st Hk (Hlen & Hval).
    destruct (subst_step_value si d cut xs k st Hd Hrows Hn Hc Hi Hxs Hk Hlen)
      as (st' & Hrun & Hlen' & Hval').
    exists st'. split; [exact Hrun |]. split; [exact Hlen' |].
    cbn [lhs_upto]. rewrite Hval', Hval. ring.
  - exists lcut, lrhs. cbn [fst snd] in *. auto.
Qed.


Lemma nth_insert_same {A : Type} (l : list A) (i : nat) (v dflt : A) :
  (i < length l)%nat -> nth i (<[i := v]> l) dflt = v.
Proof. intros H. apply nth_Some, list_lookup_insert_eq, H. Qed.

Lemma nth_insert_other {A : Type} (l : list A) (i j : nat) (v dflt : A) :
  i <> j -> nth j (<[i := v]> l) dflt = nth j l dflt.
Proof.
  intros H. rewrite !nth_lookup, list_lookup_insert_ne by exact H. reflexivity.
Qed.

Lemma kept_mono (l : list Q) (k n : nat) :
  (k <= n)%nat -> (kept l k <= kept l n)%nat.
Proof.
  induction 1 as [|n Hle IH]; [lia |].
  cbn [kept]. destruct (is_kept _); lia.
Qed.

Lemma kept_le (l : list Q) (k : nat) : (kept l k <= k)%nat.
Proof. induction k as [|k IH]; cbn [kept]; [lia |]. destruct (is_kept _); lia. Qed.

(** The counting pass. *)
Lemma count_loop (lcut : list Q) (n : Z) :
  (0 <= n)%Z -> length lcut = Z.to_nat n ->
  for_upto 0 n (count_step lcut) 0%Z = Ret (Z.of_nat (kept lcut (Z.to_nat n))).
Proof.
  intros Hn Hlen.
  destruct (for_upto_inv (fun k lnz => lnz = Z.of_nat (kept lcut k))
              (count_step lcut) n 0%Z) as (t & Hrun & ->).
  - exact Hn.
  - reflexivity.
  - intros k t Hk ->. unfold count_step.
    rewrite (rd_nth _ _ 0) by lia. cbn [bind]. rewrite Nat2Z.id.
    eexists. split; [reflexivity |]. cbn [kept]. unfold is_kept.
    destruct (Qltb _ _); lia.
  - exact Hrun.
Qed.

(** The copying pass: the kept entries in the order of their columns. *)
Lemma compact_loop (lcut xs : list Q) (n : Z) (c0 : DGG_constraint_t) :
  (0 <= n)%Z -> length lcut = Z.to_nat n ->
  length (coeff c0) = kept lcut (Z.to_nat n) ->
  length (index c0) = kept lcut (Z.to_nat n) ->
  exists c,
    for_upto 0 n (compact_step lcut) (c0, 0%Z) =
      Ret (c, Z.of_nat (kept lcut (Z.to_nat n))) /\
    nz c = nz c0 /\ max_nz c = max_nz c0 /\ rhs c = rhs c0 /\
    sense c = sense c0 /\
    length (coeff c) = length (coeff c0) /\
    length (index c) = length (index c0) /\
    (forall j : nat, (j < kept lcut (Z.to_nat n))%nat ->
       is_kept (nth j (coeff c) 0) = true /\
       (0 <= nth j (index c) 0%Z < n)%Z) /\
    (forall j1 j2 : nat, (j1 < j2 < kept lcut (Z.to_nat n))%nat ->
       (nth j1 (index c) 0 < nth j2 (index c) 0)%Z) /\
    lhs_upto (coeff c) (index c) xs (kept lcut (Z.to_nat n)) ==
    kept_dot lcut xs (Z.to_nat n).
Proof.
  intros Hn Hlen Hl1 Hl2.
  destruct (for_upto_inv
              (fun k st =>
                 snd st = Z.of_nat (kept lcut k) /\
                 nz (fst st) = nz c0 /\ max_nz (fst st) = max_nz c0 /\
                 rhs (fst st) = rhs c0 /\ sense (fst st) = sense c0 /\
                 length (coeff (fst st)) = length (coeff c0) /\
                 length (index (fst st)) = length (index c0) /\
                 (forall j : nat, (j < kept lcut k)%nat ->
                    is_kept (nth j (coeff (fst st)) 0) = true /\
                    (0 <= nth j (index (fst st)) 0%Z < Z.of_nat k)%Z) /\
                 (forall j1 j2 : nat, (j1 < j2 < kept lcut k)%nat ->
                    (nth j1 (index (fst st)) 0 <
                     nth j2 (index (fst st)) 0)%Z) /\
                 lhs_upto (coeff (fst st)) (index (fst st)) xs (kept lcut k) ==
                 kept_dot lcut xs k)
              (compact_step lcut) n (c0, 0%Z))
    as ([c lnz] & Hrun & HP).
  - exact Hn.
  - cbn [fst snd kept kept_dot lhs_upto].
    repeat split; try reflexivity; intros; lia.
  - intros k [c lnz] Hk. cbn [fst snd].
    intros (-> & H1 & H2 & H3 & H4 & H5 & H6 & Hin & Hsorted & Hval).
    unfold compact_step.
    rewrite (rd_nth _ _ 0) by lia. cbn [bind]. rewrite Nat2Z.id.
    change (fabs (nth k lcut 0) >? DGG_MIN_TABLEAU_COEFFICIENT)
      with (is_kept (nth k lcut 0)).
    pose proof (kept_mono lcut (Datatypes.S k) (Z.to_nat n) ltac:(lia)) as Hm.
    cbn [kept kept_dot] in *.
    destruct (is_kept (nth k lcut 0)) eqn:Ekeep.
    + rewrite coeff_set_nat by lia. cbn [bind].
      rewrite index_set_nat by (cbn [set_coeff index]; lia). cbn [bind].
      eexists. split; [reflexivity |].
      cbn [fst snd set_coeff nz max_nz rhs sense coeff index].
      rewrite !length_insert.
      split; [lia |]. do 6 (split; [assumption |]).
      split; [| split].
      * intros j Hj. destruct (decide (j = kept lcut k)) as [->|Hne].
        -- rewrite !nth_insert_same by lia. split; [exact Ekeep | lia].
        -- rewrite !nth_insert_other by auto.
           destruct (Hin j) as [Ha Hb]; [lia |]. split; [exact Ha | lia].
      * intros j1 j2 Hj. destruct (decide (j2 = kept lcut k)) as [->|Hne].
        -- rewrite nth_insert_same by lia.
           rewrite nth_insert_other by lia.
           destruct (Hin j1) as [_ Hb]; lia.
        -- rewrite !nth_insert_other by lia. apply Hsorted. lia.
      * cbn [lhs_upto].
        rewrite (lhs_upto_ext (coeff c) _ (index c) _)
          by (intros j Hj; apply nth_insert_other; lia).
        rewrite !nth_insert_same by lia.
        rewrite Hval. unfold cell. rewrite Nat2Z.id. reflexivity.
    + eexists. split; [reflexivity |]. cbn [fst snd].
      split; [reflexivity |]. do 6 (split; [assumption |]).
      split; [| split; assumption].
      intros j Hj. destruct (Hin j Hj) as [Ha Hb]. split; [exact Ha | lia].
  - cbn [fst snd] in HP.
    destruct HP as (-> & H1 & H2 & H3 & H4 & H5 & H6 & Hin & Hsorted & Hval).
    exists c. split; [exact Hrun |]. do 6 (split; [assumption |]).
    split; [| split; assumption].
    intros j Hj. destruct (Hin j Hj) as [Ha Hb]. split; [exact Ha | lia].
Qed.

(** What the compaction drops is bounded by the threshold times the
    1-norm of the point. *)
Lemma dropped_bound (l xs : list Q) (k : nat) :
  0 <= DGG_MIN_TABLEAU_COEFFICIENT ->
  Qabs (kept_dot l xs k - dot l xs k) <=
  DGG_MIN_TABLEAU_COEFFICIENT * norm1 xs k.
Proof.
  intros HT. induction k as [|k IH]; cbn [kept_dot dot norm1].
  - assert (E : 0 - 0 == 0) by ring. rewrite E. change (Qabs 0) with 0. lra.
  - pose proof (Qabs_nonneg (nth k xs 0)) as Hx.
    assert (Hx' : 0 <= DGG_MIN_TABLEAU_COEFFICIENT * Qabs (nth k xs 0))
      by (apply Qmult_le_0_compat; assumption).
    rewrite Qmult_plus_distr_r.
    destruct (is_kept (nth k l 0)) eqn:E.
    + assert (E' : kept_dot l xs k + nth k l 0 * nth k xs 0 -
                   (dot l xs k + nth k l 0 * nth k xs 0) ==
                   kept_dot l xs k - dot l xs k) by ring.
      rewrite E'. lra.
    + unfold is_kept, fabs in E. apply Qltb_ge in E.
      assert (E' : kept_dot l xs k - (dot l xs k + nth k l 0 * nth k xs 0) ==
                   (kept_dot l xs k - dot l xs k) + - (nth k l 0 * nth k xs 0))
        by ring.
      rewrite E'.
      eapply Qle_trans; [apply Qabs_triangle |].
      rewrite Qabs_opp, Qabs_Qmult.
      assert (Hm : Qabs (nth k l 0) * Qabs (nth k xs 0) <=
                   DGG_MIN_TABLEAU_COEFFICIENT * Qabs (nth k xs 0))
        by (apply Qmult_le_compat_r; assumption).
      lra.
Qed.

(** What [DGG_substituteSlacks] returns, and its value at a point. *)
Lemma DGG_substituteSlacks_runs (si : solver_rows) (d : DGG_data_t)
    (cut : DGG_constraint_t) (xs : list Q) :
  0 <= DGG_MIN_TABLEAU_COEFFICIENT ->
  data_ok d -> rows_ok si d -> (0 < ncol d)%Z -> cells_ok cut ->
  indices_below cut (Z.to_nat (ncol d + nrow d)) ->
  Z.of_nat (length xs) = ncol d ->
  exists cut' lhs lhs',
    DGG_substituteSlacks si d cut = Ret (0%Z, cut') /\
    sense cut' = sense cut /\
    nz cut' = max_nz cut' /\
    Z.of_nat (length (coeff cut')) = nz cut' /\
    Z.of_nat (length (index cut')) = nz cut' /\
    (forall j : nat, (Z.of_nat j < nz cut')%Z ->
       DGG_MIN_TABLEAU_COEFFICIENT < Qabs (nth j (coeff cut') 0) /\
       (0 <= nth j (index cut') 0%Z < ncol d)%Z) /\
    (forall j1 j2 : nat, (j1 < j2)%nat -> (Z.of_nat j2 < nz cut')%Z ->
       (nth j1 (index cut') 0 < nth j2 (index cut') 0)%Z) /\
    DGG_cutLHS cut (extended_point si d xs) = Ret lhs /\
    DGG_cutLHS cut' xs = Ret lhs' /\
    Qabs ((lhs' - rhs cut') - (lhs - rhs cut)) <=
    DGG_MIN_TABLEAU_COEFFICIENT * norm1 xs (Z.to_nat (ncol d)).
Proof.
  intros HT Hd Hrows Hn Hc Hi Hxs.
  pose proof Hd as (Hnc & Hnr & _).
  destruct (subst_loop si d cut xs Hd Hrows Hn Hc Hi Hxs)
    as (lcut & lrhs & Hrun & Hlen & Hval).
  unfold DGG_substituteSlacks.
  destruct (Z.ltb_spec (ncol d) 0) as [|_]; [lia |].
  rewrite Hrun. cbn [bind].
  rewrite count_loop by (lia || assumption). cbn [bind].
  set (K := kept lcut (Z.to_nat (ncol d))).
  set (c0 := if (Z.of_nat K =? 0)%Z then _ else _).
  assert (Hc0 : nz c0 = Z.of_nat K /\ max_nz c0 = Z.of_nat K /\
                rhs c0 = rhs cut /\ sense c0 = sense cut /\
                length (coeff c0) = K /\ length (index c0) = K).
  { subst c0. destruct (Z.eqb_spec (Z.of_nat K) 0) as [E|E];
      cbn [nz max_nz rhs sense coeff index]; unfold malloc;
      rewrite ?length_replicate; cbn [length]; repeat split; lia. }
  destruct Hc0 as (C1 & C2 & C3 & C4 & C5 & C6).
  destruct (compact_loop lcut xs (ncol d) c0 Hnc Hlen C5 C6)
    as (c & Hrun2 & D1 & D2 & D3 & D4 & D5 & D6 & Hin & Hsorted & Hkd).
  fold K in Hrun2, Hin, Hsorted, Hkd.
  rewrite Hrun2. cbn [bind fst].
  assert (Hcc : cells_ok (set_rhs c lrhs)).
  { unfold cells_ok. cbn [set_rhs nz coeff index]. lia. }
  assert (Hic : indices_below (set_rhs c lrhs) (length xs)).
  { intros j idx Hj Hidx. cbn [set_rhs nz index] in Hj, Hidx.
    destruct (Hin j) as [_ Hb]; [lia |].
    rewrite (nth_Some _ _ _ 0%Z Hidx) in Hb. lia. }
  assert (Hip : indices_below cut (length (extended_point si d xs)))
    by (rewrite length_extended by assumption; exact Hi).
  exists (set_rhs c lrhs). eexists. eexists.
  split; [reflexivity |].
  cbn [set_rhs sense nz max_nz coeff index rhs].
  split; [congruence |]. split; [congruence |].
  split; [lia |]. split; [lia |].
  split; [| split; [| split; [| split]]].
  - intros j Hj. destruct (Hin j) as [Ha Hb]; [lia |]. split; [| exact Hb].
    unfold is_kept, fabs in Ha. apply Qltb_lt in Ha. exact Ha.
  - intros j1 j2 H12 Hj2. apply Hsorted. lia.
  - apply DGG_cutLHS_sum; assumption.
  - rewrite (DGG_cutLHS_sum _ _ Hcc Hic). reflexivity.
  - cbn [set_rhs nz coeff index].
    replace (Z.to_nat (nz c)) with K by lia.
    assert (E : lhs_upto (coeff c) (index c) xs K - lrhs -
                (lhs_upto (coeff cut) (index cut) (extended_point si d xs)
                   (Z.to_nat (nz cut)) - rhs cut) ==
                kept_dot lcut xs (Z.to_nat (ncol d)) -
                dot lcut xs (Z.to_nat (ncol d)))
      by (rewrite Hkd; lra).
    rewrite E. apply dropped_bound. exact HT.
Qed.

(** X18. [DGG_substituteSlacks] on a cut over the unified indices: the routine
    returns 0 and a cut of the same sense over the structural variables
    alone, with exactly as many cells as terms, its columns in increasing
    order and every coefficient above the tableau threshold in magnitude.
    At a structural point, the slack (left-hand side minus rhs) of the new
    cut differs from the slack of the old cut at the point extended by the
    values of the slack variables by at most the threshold times the
    1-norm of the point. *)
Theorem DGG_substituteSlacks_same_slack (si : solver_rows) (d : DGG_data_t)
    (cut : DGG_constraint_t) (xs : list Q) :
  0 <= DGG_MIN_TABLEAU_COEFFICIENT ->
  data_ok d -> rows_ok si d -> (0 < ncol d)%Z -> cells_ok cut ->
  indices_below cut (Z.to_nat (ncol d + nrow d)) ->
  Z.of_nat (length xs) = ncol d ->
  exists cut' lhs lhs',
    DGG_substituteSlacks si d cut = Ret (0%Z, cut') /\
    sense cut' = sense cut /\
    nz cut' = max_nz cut' /\
    Z.of_nat (length (coeff cut')) = nz cut' /\
    Z.of_nat (length (index cut')) = nz cut' /\
    (forall j : nat, (Z.of_nat j < nz cut')%Z ->
       DGG_MIN_TABLEAU_COEFFICIENT < Qabs (nth j (coeff cut') 0) /\
       (0 <= nth j (index cut') 0%Z < ncol d)%Z) /\
    (forall j1 j2 : nat, (j1 < j2)%nat -> (Z.of_nat j2 < nz cut')%Z ->
       (nth j1 (index cut') 0 < nth j2 (index cut') 0)%Z) /\
    DGG_cutLHS cut (extended_point si d xs) = Ret lhs /\
    DGG_cutLHS cut' xs = Ret lhs' /\
    Qabs ((lhs' - rhs cut') - (lhs - rhs cut)) <=
    DGG_MIN_TABLEAU_COEFFICIENT * norm1 xs (Z.to_nat (ncol d)).
Proof. apply DGG_substituteSlacks_runs. Qed.


(** ** Back to the variables of the solver: the last loop of the generator *)

Lemma DGG_isCutDesirable_01 (c : DGG_constraint_t) (d : DGG_data_t) :
  cells_ok c -> indices_below c (length (x d)) ->
  DGG_isCutDesirable c d = Ret 1%Z \/ DGG_isCutDesirable c d = Ret 0%Z.
Proof.
  intros Hc Hi. unfold DGG_isCutDesirable.
  rewrite (DGG_cutLHS_sum c (x d) Hc Hi). cbn [bind].
  destruct (nz c >? 500)%Z; [auto |].
  destruct (is_sense c "G" && _); [auto |].
  destruct (is_sense c "L" && _); [auto |].
  destruct (is_sense c "E" && _); auto.
Qed.

Lemma DGG_unTransformConstraint_runs (d : DGG_data_t) (c1 : DGG_constraint_t) :
  data_ok d -> cells_ok c1 ->
  indices_below c1 (Z.to_nat (ncol d + nrow d)) ->
  exists c2,
    DGG_unTransformConstraint d c1 = Ret (0%Z, c2) /\
    cells_ok c2 /\ indices_below c2 (Z.to_nat (ncol d + nrow d)).
Proof.
  intros Hd Hc Hi.
  destruct (untransform_loop d c1 Hd Hc Hi) as (c2 & Hu & H2).
  destruct (shifted_cells _ d c1 c2 _ _ H2 Hc Hi) as [Hc2 Hi2].
  exists c2. auto.
Qed.

(** One pass of the loop on an entry that is a cut over the unified
    indices. *)
Lemma restore_step_runs (si : solver_rows) (d : DGG_data_t) (l : DGG_list_t)
    (i : nat) (c0 : DGG_constraint_t) :
  0 <= DGG_MIN_TABLEAU_COEFFICIENT ->
  data_ok d -> rows_ok si d -> (0 < ncol d)%Z -> list_ok l ->
  (Z.of_nat i < list_n l)%Z -> list_c l !! i = Some c0 ->
  cells_ok c0 -> indices_below c0 (Z.to_nat (ncol d + nrow d)) ->
  exists c,
    restored si d c0 c /\
    ((DGG_isCutDesirable c d = Ret 1%Z /\
      restore_step si d (Z.of_nat i) l =
      Ret (None, set_list_c l (<[i := c]> (list_c l)))) \/
     (exists l',
        DGG_list_delcut (set_list_c l (<[i := c]> (list_c l))) (Z.of_nat i) =
          Ret l' /\
        restore_step si d (Z.of_nat i) l = Ret (None, l'))).
Proof.
  intros HT Hd Hrows Hn Hok Hi Hc0 Hcells Hbelow.
  pose proof Hok as (Hln & Hlt & Hla).
  pose proof Hd as (Hnc & Hnr & _ & _ & _ & Hx & _).
  destruct (DGG_unTransformConstraint_runs d c0 Hd Hcells Hbelow)
    as (c2 & Hun & Hc2 & Hi2).
  destruct (DGG_substituteSlacks_runs si d c2
              (replicate (Z.to_nat (ncol d)) 0) HT Hd Hrows Hn Hc2 Hi2)
    as (c & _ & _ & Hsub & _ & Hnz & Hl1 & Hl2 & Hin & _).
  { rewrite length_replicate. lia. }
  assert (Hcc : cells_ok c).
  { unfold cells_ok. lia. }
  assert (Hic : indices_below c (length (x d))).
  { intros j idx Hj Hidx. destruct (Hin j Hj) as [_ Hb].
    rewrite (nth_Some _ _ _ 0%Z Hidx) in Hb. lia. }
  exists c. split; [exists c2; auto |].
  assert (Hlen : (i < length (list_c l))%nat) by lia.
  unfold restore_step, set_list_c.
  rewrite (rd_nat _ _ _ Hc0). cbn [bind]. rewrite Hun. cbn [bind fst snd].
  rewrite wr_nat by exact Hlen. cbn [bind negb Z.eqb].
  rewrite Hsub. cbn [bind fst snd list_c list_n list_ctype list_alpha].
  rewrite wr_nat by (rewrite length_insert; exact Hlen).
  cbn [bind negb Z.eqb list_c list_n list_ctype list_alpha].
  rewrite list_insert_insert_eq.
  destruct (DGG_isCutDesirable_01 c d Hcc Hic) as [Hdes|Hdes]; rewrite Hdes;
    cbn [bind Z.eqb].
  - left. auto.
  - right.
    destruct (delcut_in_range
                (mkList (list_n l) (<[i := c]> (list_c l)) (list_ctype l)
                   (list_alpha l))
                (Z.of_nat i)) as (e & t & a & _ & _ & _ & Hdel).
    { unfold list_ok. cbn [list_n list_c list_ctype list_alpha].
      rewrite length_insert. auto. }
    { cbn [list_n]. lia. }
    rewrite Hdel. cbn [bind]. eexists. split; reflexivity.
Qed.


(** The loop, from the entry [i] down to [new_pos]. *)
Lemma restore_loop_inv (si : solver_rows) (d : DGG_data_t) (new_pos : Z)
    (l0 : DGG_list_t) (m : nat) :
  0 <= DGG_MIN_TABLEAU_COEFFICIENT ->
  data_ok d -> rows_ok si d -> (0 < ncol d)%Z -> (0 <= new_pos)%Z ->
  (forall (j : nat) (c : DGG_constraint_t),
     (new_pos <= Z.of_nat j < list_n l0)%Z -> list_c l0 !! j = Some c ->
     cells_ok c /\ indices_below c (Z.to_nat (ncol d + nrow d))) ->
  forall (i : Z) (l : DGG_list_t),
    i = (new_pos + Z.of_nat m - 1)%Z ->
    restore_inv si d new_pos l0 i l ->
    exists l',
      restore_loop si d m i l = Ret (0%Z, l') /\
      restore_inv si d new_pos l0 (new_pos - 1) l'.
Proof.
  intros HT Hd Hrows Hn Hpos Horig.
  induction m as [|m IH]; intros i l Hi Hinv.
  - exists l. split; [reflexivity |].
    replace (new_pos - 1)%Z with i by lia. exact Hinv.
  - destruct Hinv as (Hok & Hrange & Hlow & Hhigh).
    set (k := Z.to_nat i). assert (Hik : i = Z.of_nat k) by lia.
    pose proof Hok as (Hln & Hlt & Hla).
    destruct (lookup_lt_is_Some_2 (list_c l) k) as [c0 Hc0]; [lia |].
    destruct (lookup_lt_is_Some_2 (list_ctype l) k) as [t0 Ht0]; [lia |].
    destruct (lookup_lt_is_Some_2 (list_alpha l) k) as [a0 Ha0]; [lia |].
    destruct (Hlow k ltac:(lia)) as (E1 & E2 & E3).
    destruct (Horig k c0) as [Hcells Hbelow]; [lia | congruence |].
    destruct (restore_step_runs si d l k c0 HT Hd Hrows Hn Hok ltac:(lia)
                Hc0 Hcells Hbelow) as (c & Hres & Hcase).
    cbn [restore_loop]. rewrite Hik.
    replace (Z.of_nat k - 1)%Z with (new_pos + Z.of_nat m - 1)%Z by lia.
    destruct Hcase as [[Hdes Hstep] | (l' & Hdel & Hstep)]; rewrite Hstep;
      cbn [bind fst snd]; apply IH; try reflexivity.
    + (* the cut is kept *)
      unfold restore_inv, set_list_c, list_ok.
      cbn [list_n list_c list_ctype list_alpha]. rewrite length_insert.
      split; [auto |]. split; [lia |]. split.
      * intros j Hj. rewrite list_lookup_insert_ne by lia. apply Hlow. lia.
      * intros j Hj. destruct (decide (j = k)) as [->|Hne].
        -- exists c, t0, a0. rewrite list_lookup_insert_eq by lia.
           do 3 (split; [assumption || reflexivity |]).
           exists k, c0. repeat split; try lia; congruence.
        -- rewrite list_lookup_insert_ne by auto. apply Hhigh. lia.
    + (* the cut is deleted *)
      destruct (delcut_in_range (set_list_c l (<[k := c]> (list_c l)))
                  (Z.of_nat k)) as (e & t & a & He & Het & Hea & Hdel').
      { unfold list_ok, set_list_c. cbn [list_n list_c list_ctype list_alpha].
        rewrite length_insert. auto. }
      { cbn [set_list_c list_n]. lia. }
      rewrite Hdel' in Hdel. injection Hdel as <-.
      cbn [set_list_c list_n list_c list_ctype list_alpha] in *.
      rewrite Nat2Z.id.
      set (nl := Z.to_nat (list_n l - 1)) in *.
      unfold restore_inv, list_ok.
      cbn [list_n list_c list_ctype list_alpha]. rewrite !length_insert.
      split; [split; [lia | auto] |]. split; [lia |]. split.
      * intros j Hj. rewrite !list_lookup_insert_ne by lia. apply Hlow. lia.
      * intros j Hj. destruct (decide (j = k)) as [->|Hne].
        -- rewrite !list_lookup_insert_eq by (rewrite ?length_insert; lia).
           rewrite list_lookup_insert_ne in He by lia.
           destruct (Hhigh nl) as (c' & t' & a' & F1 & F2 & F3 & F4);
             [lia |].
           exists e, t, a. do 3 (split; [reflexivity |]).
           replace e with c' by congruence.
           replace t with t' by congruence.
           replace a with a' by congruence. exact F4.
        -- rewrite !list_lookup_insert_ne by auto. apply Hhigh. lia.
Qed.

(** X19. The last loop of [DGG_generateCutsFromBase], on a list whose entries
    from [new_pos] on are cuts over the unified indices: the loop ends
    and the routine returns 0; the entries before [new_pos] are untouched,
    with their tags and parameters; no entry is added; and every entry
    left at or after [new_pos] is an entry that was there, untransformed
    and with its slack variables substituted, still with its own tag and
    parameter, and desirable.  Walking the list from its end is what makes
    the swap of [DGG_list_delcut] safe: the entry moved into a freed slot
    has been visited already. *)
Theorem restore_new_cuts_desirable (si : solver_rows) (d : DGG_data_t)
    (new_pos : Z) (l : DGG_list_t) :
  0 <= DGG_MIN_TABLEAU_COEFFICIENT ->
  data_ok d -> rows_ok si d -> (0 < ncol d)%Z -> list_ok l ->
  (0 <= new_pos <= list_n l)%Z ->
  (forall (j : nat) (c : DGG_constraint_t),
     (new_pos <= Z.of_nat j < list_n l)%Z -> list_c l !! j = Some c ->
     cells_ok c /\ indices_below c (Z.to_nat (ncol d + nrow d))) ->
  exists l',
    restore_new_cuts si d new_pos l = Ret (0%Z, l') /\
    list_ok l' /\ (new_pos <= list_n l' <= list_n l)%Z /\
    (forall j : nat, (Z.of_nat j < new_pos)%Z ->
       list_c l' !! j = list_c l !! j /\
       list_ctype l' !! j = list_ctype l !! j /\
       list_alpha l' !! j = list_alpha l !! j) /\
    (forall j : nat, (new_pos <= Z.of_nat j < list_n l')%Z ->
       exists c t a,
         list_c l' !! j = Some c /\ list_ctype l' !! j = Some t /\
         list_alpha l' !! j = Some a /\
         survivor si d new_pos l c t a).
Proof.
  intros HT Hd Hrows Hn Hok Hpos Horig.
  destruct (restore_loop_inv si d new_pos l (Z.to_nat (list_n l - new_pos))
              HT Hd Hrows Hn ltac:(lia) Horig (list_n l - 1)%Z l)
    as (l' & Hrun & Hok' & Hrange & Hlow & Hhigh).
  - lia.
  - split; [exact Hok |]. split; [lia |]. split.
    + intros j _. auto.
    + intros j Hj. lia.
  - exists l'. split; [exact Hrun |]. split; [exact Hok' |].
    split; [lia |]. split.
    + intros j Hj. apply Hlow. lia.
    + intros j Hj. apply Hhigh. lia.
Qed.

End Twomir.

(** ** The cut list: removal of an entry *)

Lemma store_guard_dead (l : Storage.DGG_list_t) (i : Z) :
  (0 <= Storage.list_n l)%Z -> Storage.delcut_guard l i = false.
Proof.
  intros Hn. unfold Storage.delcut_guard.
  destruct (Z.ltb_spec i 0); [| apply andb_false_r].
  destruct (Z.geb_spec i (Storage.list_n l)); [lia | reflexivity].
Qed.

(** The body of [DGG_list_delcut] on a slot of the arrays whose pointer
    designates live storage: the storage is released, the last entry is
    moved into the slot, the count goes down. *)
Lemma store_delcut_live (h : list (option DGG_constraint_t))
    (l : Storage.DGG_list_t) (k : nat) (a : nat) (c0 : DGG_constraint_t)
    (e : option nat) (t : Z) (al : Q) :
  (0 <= Storage.list_n l)%Z ->
  length (Storage.list_ctype l) = length (Storage.list_c l) ->
  length (Storage.list_alpha l) = length (Storage.list_c l) ->
  Storage.list_c l !! k = Some (Some a) -> h !! a = Some (Some c0) ->
  Storage.list_c l !! Z.to_nat (Storage.list_n l - 1) = Some e ->
  Storage.list_ctype l !! Z.to_nat (Storage.list_n l - 1) = Some t ->
  Storage.list_alpha l !! Z.to_nat (Storage.list_n l - 1) = Some al ->
  (1 <= Storage.list_n l)%Z ->
  Storage.DGG_list_delcut h l (Z.of_nat k) =
  Ret (<[a := None]> h,
       Storage.mkList (Storage.list_n l - 1)
         (<[k := e]> (Storage.list_c l))
         (<[k := t]> (Storage.list_ctype l))
         (<[k := al]> (Storage.list_alpha l))).
Proof.
  intros Hn Ht Ha Hk Hlive He Het Hea H1.
  assert (Hlen : (k < length (Storage.list_c l))%nat)
    by (apply lookup_lt_is_Some_1; eauto).
  unfold Storage.DGG_list_delcut. rewrite store_guard_dead by exact Hn.
  rewrite (rd_nat _ _ _ Hk). cbn [bind].
  unfold Storage.DGG_freeConstraint. rewrite Hlive. cbn [bind].
  replace (Storage.list_n l - 1)%Z
    with (Z.of_nat (Z.to_nat (Storage.list_n l - 1))) by lia.
  rewrite (rd_nat _ _ _ He). cbn [bind]. rewrite wr_nat by lia. cbn [bind].
  rewrite (rd_nat _ _ _ Het). cbn [bind]. rewrite wr_nat by lia. cbn [bind].
  rewrite (rd_nat _ _ _ Hea). cbn [bind]. rewrite wr_nat by lia. cbn [bind].
  reflexivity.
Qed.

(** On a slot whose pointer designates released storage the routine
    releases it again. *)
Lemma store_delcut_released (h : list (option DGG_constraint_t))
    (l : Storage.DGG_list_t) (k : nat) (p : option nat) :
  (0 <= Storage.list_n l)%Z ->
  Storage.list_c l !! k = Some p -> Storage.released h p ->
  Storage.DGG_list_delcut h l (Z.of_nat k) = Undef.
Proof.
  intros Hn Hk (a & -> & Ha).
  unfold Storage.DGG_list_delcut. rewrite store_guard_dead by exact Hn.
  rewrite (rd_nat _ _ _ Hk). cbn [bind].
  unfold Storage.DGG_freeConstraint. rewrite Ha. reflexivity.
Qed.

(** Outside of the arrays the routine reads outside of them. *)
Lemma store_delcut_outside (h : list (option DGG_constraint_t))
    (l : Storage.DGG_list_t) (i : Z) :
  (0 <= Storage.list_n l)%Z ->
  ~ (0 <= i < Z.of_nat (length (Storage.list_c l)))%Z ->
  Storage.DGG_list_delcut h l i = Undef.
Proof.
  intros Hn Hi.
  unfold Storage.DGG_list_delcut. rewrite store_guard_dead by exact Hn.
  rewrite rd_Undef by exact Hi. reflexivity.
Qed.

Lemma live_not_released (h : list (option DGG_constraint_t))
    (p : option nat) : Storage.live h p -> Storage.released h p -> False.
Proof. intros (a & c & -> & H1) (a' & [= <-] & H2). congruence. Qed.

Lemma live_after_release (h : list (option DGG_constraint_t))
    (a : nat) (p : option nat) :
  Storage.live h p -> p <> Some a -> Storage.live (<[a := None]> h) p.
Proof.
  intros (b & c & -> & Hb) Hne. exists b, c. split; [reflexivity |].
  rewrite list_lookup_insert_ne by congruence. exact Hb.
Qed.

Lemma released_after_release (h : list (option DGG_constraint_t))
    (a : nat) (p : option nat) :
  Storage.released h p -> Storage.released (<[a := None]> h) p.
Proof.
  intros (b & -> & Hb). exists b. split; [reflexivity |].
  destruct (decide (a = b)) as [->|Hne].
  - apply list_lookup_insert_eq. apply lookup_lt_is_Some_1. eauto.
  - rewrite list_lookup_insert_ne by exact Hne. exact Hb.
Qed.

Lemma released_now (h : list (option DGG_constraint_t)) (a : nat)
    (c : DGG_constraint_t) :
  h !! a = Some (Some c) -> Storage.released (<[a := None]> h) (Some a).
Proof.
  intros H. exists a. split; [reflexivity |].
  apply list_lookup_insert_eq. apply lookup_lt_is_Some_1. eauto.
Qed.

(** A reachable state stays one when an entry in use is deleted. *)
Lemma store_ok_delcut (h : list (option DGG_constraint_t))
    (l : Storage.DGG_list_t) (k : nat) (a : nat) (c0 : DGG_constraint_t)
    (e : option nat) (t : Z) (al : Q) :
  Storage.store_ok h l -> (Z.of_nat k < Storage.list_n l)%Z ->
  Storage.list_c l !! k = Some (Some a) -> h !! a = Some (Some c0) ->
  Storage.list_c l !! Z.to_nat (Storage.list_n l - 1) = Some e ->
  Storage.store_ok (<[a := None]> h)
    (Storage.mkList (Storage.list_n l - 1)
       (<[k := e]> (Storage.list_c l))
       (<[k := t]> (Storage.list_ctype l))
       (<[k := al]> (Storage.list_alpha l))).
Proof.
  intros (Hn & Ht & Ha & Hlive & Hdist & Hstale) Hk Hck Hh He.
  set (m := Z.to_nat (Storage.list_n l - 1)) in *.
  assert (Hm : (Z.of_nat m < Storage.list_n l)%Z) by (unfold m; lia).
  assert (Hklen : (k < length (Storage.list_c l))%nat) by lia.
  assert (Hsk : <[k := e]> (Storage.list_c l) !! k = Some e)
    by (apply list_lookup_insert_eq; exact Hklen).
  assert (Hsne : forall j : nat, j <> k ->
             <[k := e]> (Storage.list_c l) !! j = Storage.list_c l !! j)
    by (intros j Hj; apply list_lookup_insert_ne; congruence).
  unfold Storage.store_ok.
  cbn [Storage.list_n Storage.list_c Storage.list_ctype Storage.list_alpha].
  rewrite !length_insert.
  split; [lia |]. split; [exact Ht |]. split; [exact Ha |].
  split; [| split].
  - intros j p Hj Hp. destruct (decide (j = k)) as [->|Hne].
    + rewrite Hsk in Hp. injection Hp as <-.
      apply live_after_release; [exact (Hlive m e Hm He) |].
      intros ->.
      assert (m = k) by (apply (Hdist m k (Some a)); assumption). lia.
    + rewrite Hsne in Hp by exact Hne.
      apply live_after_release; [apply (Hlive j p); [lia | exact Hp] |].
      intros ->. apply Hne.
      apply (Hdist j k (Some a)); [lia | lia | exact Hp | exact Hck].
  - intros j1 j2 p Hj1 Hj2 Hp1 Hp2.
    destruct (decide (j1 = k)) as [->|H1], (decide (j2 = k)) as [->|H2].
    + reflexivity.
    + rewrite Hsk in Hp1. injection Hp1 as <-.
      rewrite Hsne in Hp2 by exact H2.
      assert (m = j2) by (apply (Hdist m j2 e); [lia | lia | exact He | exact Hp2]).
      lia.
    + rewrite Hsk in Hp2. injection Hp2 as <-.
      rewrite Hsne in Hp1 by exact H1.
      assert (m = j1) by (apply (Hdist m j1 e); [lia | lia | exact He | exact Hp1]).
      lia.
    + rewrite Hsne in Hp1 by exact H1. rewrite Hsne in Hp2 by exact H2.
      apply (Hdist j1 j2 p); [lia | lia | exact Hp1 | exact Hp2].
  - intros j p Hj Hp.
    destruct (decide (j = k)) as [->|Hne].
    + (* [k] is the last slot: it keeps the released pointer *)
      rewrite Hsk in Hp. injection Hp as <-.
      assert (m = k) by lia. subst k.
      assert (e = Some a) by congruence. subst e.
      left. eapply released_now. exact Hh.
    + rewrite Hsne in Hp by exact Hne.
      destruct (decide (j = m)) as [->|Hjm].
      * (* the former last slot, now stale, is a copy of the slot [k] *)
        right. exists k. split; [lia |].
        rewrite Hsk. congruence.
      * destruct (Hstale j p) as [Hrel|(k0 & Hk0 & Hp0)]; [lia | exact Hp | |].
        -- left. apply released_after_release. exact Hrel.
        -- destruct (decide (k0 = k)) as [->|Hk0k].
           ++ assert (p = Some a) by congruence. subst p.
              left. eapply released_now. exact Hh.
           ++ destruct (decide (k0 = m)) as [->|Hk0m].
              ** right. exists k. split; [lia |].
                 rewrite Hsk. congruence.
              ** right. exists k0. split; [lia |].
                 rewrite Hsne by exact Hk0k. exact Hp0.
Qed.

(** The state of [DGG_list_init] is reachable, and a reachable state
    stays one when [DGG_list_addcut] appends a pointer to live storage
    that no entry in use holds. *)
Lemma store_ok_init (h : list (option DGG_constraint_t)) :
  Storage.store_ok h Storage.DGG_list_init.
Proof.
  unfold Storage.store_ok, Storage.DGG_list_init.
  cbn [Storage.list_n Storage.list_c Storage.list_ctype Storage.list_alpha].
  repeat split; try (cbn; lia); intros; try lia;
    match goal with H : [] !! _ = Some _ |- _ => discriminate H end.
Qed.

Lemma store_ok_addcut (h : list (option DGG_constraint_t))
    (l : Storage.DGG_list_t) (cut : option nat) (ctype : Z) (alpha : Q) :
  Storage.store_ok h l -> Storage.live h cut ->
  (forall j : nat, (Z.of_nat j < Storage.list_n l)%Z ->
     Storage.list_c l !! j <> Some cut) ->
  exists l',
    Storage.DGG_list_addcut l cut ctype alpha = Ret (0%Z, l') /\
    Storage.list_n l' = (Storage.list_n l + 1)%Z /\
    Storage.store_ok h l'.
Proof.
  intros (Hn & Ht & Ha & Hlive & Hdist & Hstale) Hcut Hfresh.
  set (n := Z.to_nat (Storage.list_n l)).
  assert (Hnn : Storage.list_n l = Z.of_nat n) by (unfold n; lia).
  unfold Storage.DGG_list_addcut. rewrite Hnn.
  destruct (realloc_grow cut cut (Storage.list_c l) n)
    as (-> & L1 & T1 & E1); [lia |].
  destruct (realloc_grow 0%Z ctype (Storage.list_ctype l) n)
    as (-> & L2 & T2 & E2); [lia |].
  destruct (realloc_grow 0 alpha (Storage.list_alpha l) n)
    as (-> & L3 & T3 & E3); [lia |].
  cbn [bind]. eexists. split; [reflexivity |].
  cbn [Storage.list_n]. split; [reflexivity |].
  unfold Storage.store_ok.
  cbn [Storage.list_n Storage.list_c Storage.list_ctype Storage.list_alpha].
  rewrite L1, L2, L3.
  set (c' := <[n := cut]> (resize (Datatypes.S n) cut (Storage.list_c l)))
    in *.
  assert (Hold : forall j : nat, (j < n)%nat ->
             c' !! j = Storage.list_c l !! j).
  { intros j Hj. rewrite <- (lookup_take_lt c' n j Hj), T1.
    apply lookup_take_lt. exact Hj. }
  split; [lia |]. split; [reflexivity |]. split; [reflexivity |].
  split; [| split].
  - intros j p Hj Hp. destruct (decide (j = n)) as [->|Hne].
    + rewrite E1 in Hp. injection Hp as <-. exact Hcut.
    + rewrite Hold in Hp by lia. eapply Hlive; eauto. lia.
  - intros j1 j2 p Hj1 Hj2 Hp1 Hp2.
    destruct (decide (j1 = n)) as [->|H1], (decide (j2 = n)) as [->|H2];
      try reflexivity.
    + rewrite E1 in Hp1. injection Hp1 as <-.
      rewrite Hold in Hp2 by lia. exfalso. eapply (Hfresh j2); eauto. lia.
    + rewrite E1 in Hp2. injection Hp2 as <-.
      rewrite Hold in Hp1 by lia. exfalso. eapply (Hfresh j1); eauto. lia.
    + rewrite Hold in Hp1, Hp2 by lia. eapply Hdist; eauto; lia.
  - intros j p Hj Hp. exfalso.
    assert (j < length c')%nat by (apply lookup_lt_is_Some_1; eauto). lia.
Qed.

(** Deleting at a stale slot that holds the pointer of an entry in use
    other than the last leaves that entry with released storage. *)
Lemma store_delcut_alias_dangles (h : list (option DGG_constraint_t))
    (l : Storage.DGG_list_t) (i k : nat) (a : nat) (e : option nat)
    (t : Z) (al : Q) :
  (Storage.list_n l <= Z.of_nat i)%Z ->
  (Z.of_nat k < Storage.list_n l - 1)%Z ->
  Storage.list_c l !! k = Some (Some a) ->
  (a < length h)%nat ->
  ~ Storage.store_ok (<[a := None]> h)
      (Storage.mkList (Storage.list_n l - 1)
         (<[i := e]> (Storage.list_c l))
         (<[i := t]> (Storage.list_ctype l))
         (<[i := al]> (Storage.list_alpha l))).
Proof.
  intros Hi Hk Hck Ha (_ & _ & _ & Hlive & _).
  cbn [Storage.list_n Storage.list_c] in Hlive.
  destruct (Hlive k (Some a)) as (b & c & [= <-] & Hb).
  - exact Hk.
  - rewrite list_lookup_insert_ne by lia. exact Hck.
  - rewrite list_lookup_insert_eq in Hb by exact Ha. discriminate.
Qed.

(** Deleting at a stale slot that holds the pointer of the last entry in
    use removes the last entry. *)
Lemma store_ok_delcut_alias_last (h : list (option DGG_constraint_t))
    (l : Storage.DGG_list_t) (i : nat) (a : nat) (c0 : DGG_constraint_t)
    (t : Z) (al : Q) :
  Storage.store_ok h l ->
  (Storage.list_n l <= Z.of_nat i)%Z ->
  (1 <= Storage.list_n l)%Z ->
  Storage.list_c l !! Z.to_nat (Storage.list_n l - 1) = Some (Some a) ->
  h !! a = Some (Some c0) ->
  Storage.store_ok (<[a := None]> h)
    (Storage.mkList (Storage.list_n l - 1)
       (<[i := Some a]> (Storage.list_c l))
       (<[i := t]> (Storage.list_ctype l))
       (<[i := al]> (Storage.list_alpha l))).
Proof.
  intros (Hn & Ht & Ha & Hlive & Hdist & Hstale) Hi H1 Hm Hh.
  set (m := Z.to_nat (Storage.list_n l - 1)) in *.
  assert (Hmn : (Z.of_nat m < Storage.list_n l)%Z) by (unfold m; lia).
  assert (Hsne : forall j : nat, j <> i ->
             <[i := Some a]> (Storage.list_c l) !! j = Storage.list_c l !! j)
    by (intros j Hj; apply list_lookup_insert_ne; congruence).
  unfold Storage.store_ok.
  cbn [Storage.list_n Storage.list_c Storage.list_ctype Storage.list_alpha].
  rewrite !length_insert.
  split; [lia |]. split; [exact Ht |]. split; [exact Ha |].
  split; [| split].
  - intros j p Hj Hp. rewrite Hsne in Hp by lia.
    apply live_after_release; [apply (Hlive j p); [lia | exact Hp] |].
    intros ->.
    assert (j = m) by (apply (Hdist j m (Some a)); [lia | lia | exact Hp | exact Hm]).
    lia.
  - intros j1 j2 p Hj1 Hj2 Hp1 Hp2.
    rewrite Hsne in Hp1 by lia. rewrite Hsne in Hp2 by lia.
    apply (Hdist j1 j2 p); [lia | lia | exact Hp1 | exact Hp2].
  - intros j p Hj Hp.
    destruct (decide (j = i)) as [->|Hne].
    + assert (Hlt : (i < length (Storage.list_c l))%nat).
      { apply lookup_lt_Some in Hp. rewrite length_insert in Hp. exact Hp. }
      rewrite list_lookup_insert_eq in Hp by exact Hlt.
      assert (p = Some a) by congruence.
      subst p. left. eapply released_now. exact Hh.
    + rewrite Hsne in Hp by exact Hne.
      destruct (decide (j = m)) as [->|Hjm].
      * assert (p = Some a) by congruence. subst p.
        left. eapply released_now. exact Hh.
      * destruct (Hstale j p) as [Hrel|(k0 & Hk0 & Hp0)]; [lia | exact Hp | |].
        -- left. apply released_after_release. exact Hrel.
        -- destruct (decide (k0 = m)) as [->|Hk0m].
           ++ assert (p = Some a) by congruence. subst p.
              left. eapply released_now. exact Hh.
           ++ right. exists k0. split; [lia |].
              rewrite Hsne by lia. exact Hp0.
Qed.

(** Where the list of pointers stands for a list of constraints, deleting
    an entry in use does the same to both. *)
Lemma delcut_represents (h : list (option DGG_constraint_t))
    (lp : Storage.DGG_list_t) (lv : DGG_list_t) (i : Z) :
  Storage.store_ok h lp -> represents h lp lv ->
  (0 <= i < list_n lv)%Z ->
  exists h' lp' lv',
    Storage.DGG_list_delcut h lp i = Ret (h', lp') /\
    DGG_list_delcut lv i = Ret lv' /\
    represents h' lp' lv'.
Proof.
  intros Hok (Rn & Rt & Ra & Rl & Rc) Hi.
  pose proof Hok as (Hn & Ht & Ha & Hlive & Hdist & Hstale).
  assert (Hlv : list_ok lv).
  { unfold list_ok. rewrite <- Rt, <- Ra, <- Rl, <- Rn. rewrite Ht, Ha.
    auto. }
  destruct (delcut_in_range lv i Hlv Hi) as (ev & t & al & Hev & Het & Hea & Hdv).
  set (k := Z.to_nat i). assert (Hik : i = Z.of_nat k) by (unfold k; lia).
  set (m := Z.to_nat (list_n lv - 1)) in *.
  destruct (lookup_lt_is_Some_2 (list_c lv) k) as [cv Hcv]; [lia |].
  destruct (Rc k cv) as (a & Hpa & Hha); [lia | exact Hcv |].
  destruct (Rc m ev) as (am & Hpm & Hhm); [unfold m; lia | exact Hev |].
  exists (<[a := None]> h). do 2 eexists.
  split; [| split; [exact Hdv |]].
  - rewrite Hik. apply (store_delcut_live h lp k a cv (Some am) t al);
      try assumption; try lia.
    + rewrite Rn. exact Hpm.
    + rewrite Rn, Rt. exact Het.
    + rewrite Rn, Ra. exact Hea.
  - unfold represents.
    cbn [Storage.list_n Storage.list_c Storage.list_ctype Storage.list_alpha
         list_n list_c list_ctype list_alpha].
    rewrite Rn, Rt, Ra, !length_insert.
    split; [reflexivity |]. split; [reflexivity |]. split; [reflexivity |].
    split; [exact Rl |].
    intros j c Hj Hc. fold k in Hc |- *.
    destruct (decide (j = k)) as [->|Hne].
    + rewrite list_lookup_insert_eq in Hc by lia. injection Hc as <-.
      exists am. split; [apply list_lookup_insert_eq; lia |].
      rewrite list_lookup_insert_ne; [exact Hhm |].
      intros ->.
      assert (k = m).
      { apply (Hdist k m (Some am)); [lia | unfold m; lia | exact Hpa |
                                       exact Hpm]. }
      unfold m in *. lia.
    + rewrite list_lookup_insert_ne in Hc by congruence.
      destruct (Rc j c) as (aj & Hpj & Hhj); [lia | exact Hc |].
      exists aj. split; [rewrite list_lookup_insert_ne by congruence; exact Hpj |].
      rewrite list_lookup_insert_ne; [exact Hhj |].
      intros ->. apply Hne.
      apply (Hdist j k (Some aj)); [lia | lia | exact Hpj | exact Hpa].
Qed.

(** C10, as the code has it.  On every list the program can reach (in
    fact, on every list whose count is not negative) the guard of
    [DGG_list_delcut] holds for no index, so the routine never returns
    early: whatever [i] is, it releases what the slot [i] points to and
    moves the last entry into that slot.
    - For [0 <= i < n] this is the swap-remove of the entry [i], and the
      state stays a reachable one.
    - For an [i] outside of the arrays the routine reads outside of them.
    - For a stale slot, [n <= i] within the arrays, the routine does the
      same as for an entry in use.  When the storage the slot points to has
      been released this is a second release; otherwise that storage is the
      one of an entry in use [k]: the call returns and has released it.  If
      [k] is not the last entry, the list is left with an entry whose
      storage is released; if [k] is the last entry, the call has removed
      the last entry and the state is again a reachable one. *)
Theorem DGG_list_delcut_guard_dead (h : list (option DGG_constraint_t))
    (l : Storage.DGG_list_t) (i : Z) :
  Storage.store_ok h l ->
  Storage.delcut_guard l i = false /\
  ((0 <= i < Storage.list_n l)%Z ->
   exists a c0 e t al,
     Storage.list_c l !! Z.to_nat i = Some (Some a) /\
     h !! a = Some (Some c0) /\
     Storage.list_c l !! Z.to_nat (Storage.list_n l - 1) = Some e /\
     Storage.list_ctype l !! Z.to_nat (Storage.list_n l - 1) = Some t /\
     Storage.list_alpha l !! Z.to_nat (Storage.list_n l - 1) = Some al /\
     Storage.DGG_list_delcut h l i =
       Ret (<[a := None]> h,
            Storage.mkList (Storage.list_n l - 1)
              (<[Z.to_nat i := e]> (Storage.list_c l))
              (<[Z.to_nat i := t]> (Storage.list_ctype l))
              (<[Z.to_nat i := al]> (Storage.list_alpha l))) /\
     Storage.store_ok (<[a := None]> h)
       (Storage.mkList (Storage.list_n l - 1)
          (<[Z.to_nat i := e]> (Storage.list_c l))
          (<[Z.to_nat i := t]> (Storage.list_ctype l))
          (<[Z.to_nat i := al]> (Storage.list_alpha l)))) /\
  (~ (0 <= i < Z.of_nat (length (Storage.list_c l)))%Z ->
   Storage.DGG_list_delcut h l i = Undef) /\
  ((Storage.list_n l <= i < Z.of_nat (length (Storage.list_c l)))%Z ->
   exists p,
     Storage.list_c l !! Z.to_nat i = Some p /\
     ((Storage.released h p /\ Storage.DGG_list_delcut h l i = Undef) \/
      (exists (k : nat) a c0 t al,
         (Z.of_nat k < Storage.list_n l)%Z /\ p = Some a /\
         Storage.list_c l !! k = Some (Some a) /\
         h !! a = Some (Some c0) /\
         Storage.list_ctype l !! Z.to_nat (Storage.list_n l - 1) = Some t /\
         Storage.list_alpha l !! Z.to_nat (Storage.list_n l - 1) = Some al /\
         exists e,
           Storage.list_c l !! Z.to_nat (Storage.list_n l - 1) = Some e /\
           Storage.DGG_list_delcut h l i =
             Ret (<[a := None]> h,
                  Storage.mkList (Storage.list_n l - 1)
                    (<[Z.to_nat i := e]> (Storage.list_c l))
                    (<[Z.to_nat i := t]> (Storage.list_ctype l))
                    (<[Z.to_nat i := al]> (Storage.list_alpha l))) /\
           ((Z.of_nat k < Storage.list_n l - 1)%Z ->
            ~ Storage.store_ok (<[a := None]> h)
                (Storage.mkList (Storage.list_n l - 1)
                   (<[Z.to_nat i := e]> (Storage.list_c l))
                   (<[Z.to_nat i := t]> (Storage.list_ctype l))
                   (<[Z.to_nat i := al]> (Storage.list_alpha l)))) /\
           (Z.of_nat k = (Storage.list_n l - 1)%Z ->
            Storage.store_ok (<[a := None]> h)
              (Storage.mkList (Storage.list_n l - 1)
                 (<[Z.to_nat i := e]> (Storage.list_c l))
                 (<[Z.to_nat i := t]> (Storage.list_ctype l))
                 (<[Z.to_nat i := al]> (Storage.list_alpha l))))))).
Proof.
  intros Hok. pose proof Hok as (Hn & Ht & Ha & Hlive & Hdist & Hstale).
  split; [apply store_guard_dead; lia |].
  split; [| split].
  - intros Hi. set (k := Z.to_nat i). set (m := Z.to_nat (Storage.list_n l - 1)).
    assert (Hik : i = Z.of_nat k) by (unfold k; lia).
    destruct (lookup_lt_is_Some_2 (Storage.list_c l) k) as [p Hp]; [lia |].
    destruct (Hlive k p) as (a & c0 & -> & Hh); [lia | exact Hp |].
    destruct (lookup_lt_is_Some_2 (Storage.list_c l) m) as [e He];
      [unfold m; lia |].
    destruct (lookup_lt_is_Some_2 (Storage.list_ctype l) m) as [t Het];
      [unfold m; lia |].
    destruct (lookup_lt_is_Some_2 (Storage.list_alpha l) m) as [al Hea];
      [unfold m; lia |].
    exists a, c0, e, t, al.
    do 5 (split; [assumption |]). split.
    + rewrite Hik at 1.
      apply (store_delcut_live h l k a c0 e t al); try assumption; lia.
    + apply (store_ok_delcut h l k a c0 e t al); try assumption. lia.
  - intros Hi. apply store_delcut_outside; [lia | exact Hi].
  - intros Hi. set (k := Z.to_nat i). set (m := Z.to_nat (Storage.list_n l - 1)).
    assert (Hik : i = Z.of_nat k) by (unfold k; lia).
    destruct (lookup_lt_is_Some_2 (Storage.list_c l) k) as [p Hp]; [lia |].
    exists p. split; [exact Hp |].
    destruct (Hstale k p) as [Hrel|(k0 & Hk0 & Hp0)]; [lia | exact Hp | |].
    + left. split; [exact Hrel |]. rewrite Hik.
      apply (store_delcut_released h l k p); [lia | exact Hp | exact Hrel].
    + right.
      destruct (Hlive k0 p Hk0 Hp0) as (a & c0 & -> & Hh).
      destruct (lookup_lt_is_Some_2 (Storage.list_c l) m) as [e He];
        [unfold m; lia |].
      destruct (lookup_lt_is_Some_2 (Storage.list_ctype l) m) as [t Het];
        [unfold m; lia |].
      destruct (lookup_lt_is_Some_2 (Storage.list_alpha l) m) as [al Hea];
        [unfold m; lia |].
      exists k0, a, c0, t, al.
      do 6 (split; [assumption || reflexivity |]).
      exists e. split; [exact He |]. split; [| split].
      * rewrite Hik at 1.
        apply (store_delcut_live h l k a c0 e t al); try assumption; lia.
      * intros Hlt.
        apply (store_delcut_alias_dangles h l k k0 a e t al);
          [lia | exact Hlt | exact Hp0 |].
        apply lookup_lt_is_Some_1. eauto.
      * intros Hlast.
        assert (k0 = m) by (unfold m; lia). subst k0.
        assert (e = Some a) by congruence. subst e.
        apply (store_ok_delcut_alias_last h l k a c0 t al);
          [exact Hok | lia | lia | exact Hp0 | exact Hh].
Qed.

(** ** The generator object: copies *)

Section GeneratorCopies.

Variable B : Type.
Variable copyB : B -> B.
Variable assignB : B -> B -> B.

(** C9. The copy constructor gives the copy the four scale-range members
    of the source and gives no value to [do_mir_], [do_2mir_], [do_tab_],
    [do_form_], [a_max_] and [form_nrows_], whatever the source holds
    there; [clone] creates an object built in that way and touches no
    other; [operator=] gives the target the four scale-range members of
    its argument and leaves its six other members, and every other
    object, as they were.  The base-class part is copied by the base
    class. *)
Theorem CglTwomir_copies_scale_ranges_only
    (st : list (CglTwomir B)) (this rhs : Z) (self r : CglTwomir B) :
  rd st this = Ret self -> rd st rhs = Ret r ->
  (let copy := CglTwomir_copy B copyB self in
   t_min_ B copy = t_min_ B self /\ t_max_ B copy = t_max_ B self /\
   q_min_ B copy = q_min_ B self /\ q_max_ B copy = q_max_ B self /\
   do_mir_ B copy = None /\ do_2mir_ B copy = None /\
   do_tab_ B copy = None /\ do_form_ B copy = None /\
   a_max_ B copy = None /\ form_nrows_ B copy = None /\
   base_ B copy = copyB (base_ B self)) /\
  (exists st',
     CglTwomir_clone B copyB st this = Ret (Z.of_nat (length st), st') /\
     st' !! length st = Some (CglTwomir_copy B copyB self) /\
     forall j : nat, (j < length st)%nat -> st' !! j = st !! j) /\
  (exists st' self',
     CglTwomir_assign B assignB st this rhs = Ret (this, st') /\
     st' !! Z.to_nat this = Some self' /\
     t_min_ B self' = t_min_ B r /\ t_max_ B self' = t_max_ B r /\
     q_min_ B self' = q_min_ B r /\ q_max_ B self' = q_max_ B r /\
     do_mir_ B self' = do_mir_ B self /\ do_2mir_ B self' = do_2mir_ B self /\
     do_tab_ B self' = do_tab_ B self /\ do_form_ B self' = do_form_ B self /\
     a_max_ B self' = a_max_ B self /\
     form_nrows_ B self' = form_nrows_ B self /\
     forall j : nat, j <> Z.to_nat this -> st' !! j = st !! j).
Proof.
  intros Hself Hr. split; [| split].
  - cbn. repeat split; reflexivity.
  - unfold CglTwomir_clone. rewrite Hself. cbn [bind].
    eexists. split; [reflexivity |]. split.
    + rewrite lookup_app_r by lia. rewrite Nat.sub_diag. reflexivity.
    + intros j Hj. apply lookup_app_l. exact Hj.
  - unfold CglTwomir_assign.
    pose proof Hself as Hs. apply rd_Ret in Hs as [Hthis Hs].
    destruct (Z.eqb_spec this rhs) as [->|Hne]; cbn [negb].
    + rewrite Hself in Hr. injection Hr as ->.
      exists st, r. repeat split; try assumption; reflexivity.
    + rewrite Hself, Hr. cbn [bind].
      assert (Hlt : (Z.to_nat this < length st)%nat)
        by (apply lookup_lt_is_Some_1; eauto).
      rewrite wr_Ret by lia. cbn [bind].
      do 2 eexists. split; [reflexivity |]. split.
      * apply list_lookup_insert_eq. exact Hlt.
      * cbn. repeat split; try reflexivity.
        intros j Hj. apply list_lookup_insert_ne. auto.
Qed.

End GeneratorCopies.

(** ** The routines on concrete inputs *)

(** Closes a goal that holds by evaluation. *)
Ltac by_evaluation :=
  vm_compute;
  first [ reflexivity | discriminate | lia
        | repeat split; first [ reflexivity | discriminate | lia ] ].

Lemma sample_data_ok : data_ok sample_data.
Proof. unfold data_ok. cbn. lia. Defined.

Lemma sample_indices (c : DGG_constraint_t) :
  nz c = 2%Z -> index c = [0%Z; 1%Z] \/ index c = [0%Z; 1%Z; 0%Z] ->
  indices_below c 3.
Proof.
  intros Hn Hix j idx Hj Hidx. rewrite Hn in Hj.
  destruct Hix as [Hix|Hix]; rewrite Hix in Hidx;
    destruct j as [|[|j]]; cbn in Hidx; try lia;
    injection Hidx as <-; lia.
Defined.

Example DGG_cutLHS_sample :
  DGG_cutLHS sample_base (x sample_data) = Ret (0 + 2 * (7 # 2) + 3 * 9).
Proof. reflexivity. Qed.

Example DGG_buildMir_sample :
  match DGG_buildMir sample_isint sample_frac with
  | Ret (0%Z, Some cut) =>
      (map Qred (coeff cut), index cut, Qred (rhs cut), sense cut, nz cut) =
      ([3 # 2; 0], [0%Z; 1%Z], 2, "G"%char, 2%Z)
  | _ => False
  end.
Proof. vm_compute. reflexivity. Qed.

Example DGG_build2step_sample :
  match DGG_build2step sample_MIN_RHO (1 # 5) sample_isint sample_frac with
  | Ret (0%Z, Some cut) =>
      (map Qred (coeff cut), index cut, Qred (rhs cut), sense cut, nz cut) =
      ([9 # 10; 0], [0%Z; 1%Z], 6 # 5, "G"%char, 2%Z)
  | _ => False
  end.
Proof. vm_compute. reflexivity. Qed.

Example DGG_build2step_divisor :
  DGG_build2step sample_MIN_RHO (1 # 4) sample_isint sample_frac =
  Ret (1%Z, None).
Proof. vm_compute. reflexivity. Qed.

Example DGG_nicefyConstraint_sample :
  match DGG_nicefyConstraint sample_MIN_ABSVALUE sample_MIN_FIX
          sample_MAX_PADDING sample_flag sample_data sample_noisy with
  | Ret (0%Z, cut) =>
      (map Qred (coeff cut), Qred (rhs cut), sense cut) =
      ([2; 0], 17499997 # 5000000, "G"%char)
  | _ => False
  end.
Proof. vm_compute. reflexivity. Qed.

Example DGG_list_delcut_sample :
  DGG_list_delcut sample_list 0 =
  Ret (mkList 1 [boundary_cut; boundary_cut] [2%Z; 2%Z] [1 # 4; 1 # 4]).
Proof. reflexivity. Qed.

(** C1 on [sample_frac]. *)
Lemma DGG_buildMir_cut_witness :
  exists cut,
    DGG_buildMir sample_isint sample_frac = Ret (0%Z, Some cut) /\
    sense cut = "G"%char /\ nz cut = 2%Z.
Proof.
  destruct (DGG_buildMir_cut sample_isint sample_frac)
    as (cut & H1 & H2 & _ & H4 & _).
  - discriminate.
  - discriminate.
  - unfold cells_ok. cbn. lia.
  - cbn. lia.
  - exists cut. auto.
Defined.





(** C5, the rule of the specification against the code: the cut
    [boundary_cut] is a '>=' cut whose left-hand side at the point of
    [boundary_data] is exactly [rhs - tol]; the strict rule rejects it,
    the routine accepts it. *)
Lemma DGG_isCutDesirable_accepts_boundary :
  sense boundary_cut = "G"%char /\
  DGG_cutLHS boundary_cut (x boundary_data) = Ret boundary_lhs /\
  boundary_lhs == rhs boundary_cut - sample_NULL_SLACK /\
  ~ strict_rule sample_NULL_SLACK boundary_cut boundary_lhs /\
  DGG_isCutDesirable sample_NULL_SLACK boundary_cut boundary_data = Ret 1%Z.
Proof.
  split; [reflexivity |]. split; [reflexivity |]. split; [by_evaluation |].
  split; [| reflexivity].
  intros (_ & H & _). specialize (H eq_refl). revert H. by_evaluation.
Qed.

(** C5 as the code has it, on the boundary cut. *)
Lemma DGG_isCutDesirable_rule_witness :
  DGG_cutLHS boundary_cut (x boundary_data) = Ret boundary_lhs /\
  boundary_lhs <= rhs boundary_cut - sample_NULL_SLACK /\
  DGG_isCutDesirable sample_NULL_SLACK boundary_cut boundary_data = Ret 1%Z.
Proof.
  assert (Hl : DGG_cutLHS boundary_cut (x boundary_data) = Ret boundary_lhs)
    by reflexivity.
  split; [exact Hl |]. split; [by_evaluation |].
  apply (DGG_isCutDesirable_rule sample_NULL_SLACK boundary_cut boundary_data
           boundary_lhs Hl).
  split; [cbn; lia |]. split; [intros _; by_evaluation |].
  split; intros H; discriminate H.
Defined.

(** C6 on [sample_noisy]. *)
Lemma DGG_nicefyConstraint_idempotent_witness :
  exists cut1 cut2,
    DGG_nicefyConstraint sample_MIN_ABSVALUE sample_MIN_FIX sample_MAX_PADDING
      sample_flag sample_data sample_noisy = Ret (0%Z, cut1) /\
    DGG_nicefyConstraint sample_MIN_ABSVALUE sample_MIN_FIX sample_MAX_PADDING
      sample_flag sample_data cut1 = Ret (0%Z, cut2) /\
    coeff cut2 = coeff cut1.
Proof.
  destruct (DGG_nicefyConstraint_idempotent sample_MIN_ABSVALUE sample_MIN_FIX
              sample_MAX_PADDING sample_flag sample_data sample_noisy)
    as (cut1 & cut2 & H1 & _ & H2 & H3).
  - unfold nicefy_tolerances_ok. by_evaluation.
  - exact sample_data_ok.
  - unfold cells_ok. cbn. lia.
  - apply sample_indices; [reflexivity | left; reflexivity].
  - discriminate.
  - exists cut1, cut2. auto.
Defined.

(** C7 on [sample_noisy]. *)
Lemma DGG_nicefyConstraint_sense_witness :
  exists cut',
    DGG_nicefyConstraint sample_MIN_ABSVALUE sample_MIN_FIX sample_MAX_PADDING
      sample_flag sample_data sample_noisy = Ret (0%Z, cut') /\
    sense cut' = "G"%char.
Proof.
  apply (DGG_nicefyConstraint_sense sample_MIN_ABSVALUE sample_MIN_FIX
           sample_MAX_PADDING sample_flag sample_data sample_noisy).
  - discriminate.
  - exact sample_data_ok.
  - unfold cells_ok. cbn. lia.
  - apply sample_indices; [reflexivity | left; reflexivity].
Defined.

(** C8 on [sample_base], a '>=' constraint whose left-hand side is far
    below nothing: [2 * 7/2 + 3 * 9 >= 7/2]. *)
Lemma DGG_isConstraintViolated_always_0_witness :
  DGG_isConstraintViolated sample_NULL_SLACK sample_data sample_base = Ret 0%Z.
Proof.
  apply (DGG_isConstraintViolated_always_0 sample_NULL_SLACK sample_data
           sample_base).
  - unfold cells_ok. cbn. lia.
  - apply sample_indices; [reflexivity | right; reflexivity].
Defined.

(** C9 on [sample_store]: the object 0 receives the object 1. *)
Lemma CglTwomir_copies_scale_ranges_only_witness :
  exists st' self',
    CglTwomir_assign unit (fun a _ => a) sample_store 0 1 = Ret (0%Z, st') /\
    st' !! 0%nat = Some self' /\
    t_max_ unit self' = Some 5%Z /\ a_max_ unit self' = Some 2%Z /\
    do_mir_ unit (CglTwomir_copy unit (fun a => a) self') = None.
Proof.
  destruct (CglTwomir_copies_scale_ranges_only unit (fun a => a) (fun a _ => a)
              sample_store 0 1 (CglTwomir_default unit tt)
              (mkTwomir unit tt (Some false) (Some true) (Some false) (Some true)
                 (Some 2%Z) (Some 5%Z) (Some 1%Z) (Some 3%Z) (Some 4%Z)
                 (Some 7%Z)))
    as (_ & _ & st' & self' & H1 & H2 & _ & H4 & _ & _ & _ & _ & _ & _ & H5 & _).
  - reflexivity.
  - reflexivity.
  - exists st', self'. repeat split; assumption.
Defined.

(** The guard of [DGG_list_delcut] can only hold on a list whose count
    is negative, which no well-formed list has. *)
Example delcut_guard_negative_count :
  delcut_guard (mkList (-5) [] [] []) (-3) = true.
Proof. reflexivity. Qed.

Lemma sample_store_ok : Storage.store_ok sample_heap sample_ptr_list.
Proof.
  unfold Storage.store_ok. cbn.
  split; [lia |]. split; [reflexivity |]. split; [reflexivity |].
  split; [| split].
  - intros j p Hj Hp. destruct j as [|[|j]]; [| | lia]; cbn in Hp;
      injection Hp as <-; unfold Storage.live; eauto.
  - intros j k p Hj Hk Hp1 Hp2.
    destruct j as [|[|j]], k as [|[|k]]; try lia; try reflexivity;
      cbn in Hp1, Hp2; congruence.
  - intros j p Hj Hp. destruct j as [|[|[|j]]]; try lia; cbn in Hp;
      [| discriminate].
    injection Hp as <-. right. exists 0%nat. split; [lia | reflexivity].
Defined.

(** C10 on [sample_ptr_list]: the entry 0 is in use, the slot 2 is stale
    and holds the pointer of the entry 0, the index 3 is outside of the
    arrays. *)
Lemma DGG_list_delcut_guard_dead_witness :
  Storage.delcut_guard sample_ptr_list 2 = false /\
  (exists h' l',
     Storage.DGG_list_delcut sample_heap sample_ptr_list 0 = Ret (h', l') /\
     Storage.list_n l' = 1%Z /\ Storage.store_ok h' l') /\
  (exists h' l',
     Storage.DGG_list_delcut sample_heap sample_ptr_list 2 = Ret (h', l') /\
     Storage.list_n l' = 1%Z /\ ~ Storage.store_ok h' l') /\
  Storage.DGG_list_delcut sample_heap sample_ptr_list 3 = Undef.
Proof.
  split; [apply (DGG_list_delcut_guard_dead sample_heap sample_ptr_list 2
                   sample_store_ok) |].
  split; [| split].
  - destruct (DGG_list_delcut_guard_dead sample_heap sample_ptr_list 0
                sample_store_ok) as (_ & H & _).
    destruct H as (a & c0 & e & t & al & _ & _ & _ & _ & _ & H1 & H2).
    + cbn. lia.
    + do 2 eexists. split; [exact H1 |]. split; [reflexivity | exact H2].
  - destruct (DGG_list_delcut_guard_dead sample_heap sample_ptr_list 2
                sample_store_ok) as (_ & _ & _ & H).
    destruct H as (p & Hp & [[Hrel _]|H]).
    + cbn. lia.
    + exfalso. cbn in Hp. injection Hp as <-.
      destruct Hrel as (a & [= <-] & Ha). cbn in Ha. discriminate.
    + destruct H as (k & a & c0 & t & al & Hk & -> & Hck & _ & _ & _ &
                     e & _ & H1 & H2 & _).
      do 2 eexists. split; [exact H1 |]. split; [reflexivity |].
      apply H2. vm_compute in Hp. injection Hp as <-.
      destruct k as [|[|k]]; cbn in Hk, Hck |- *; try lia.
      discriminate Hck.
  - apply (DGG_list_delcut_guard_dead sample_heap sample_ptr_list 3
             sample_store_ok).
    cbn. lia.
Defined.

(** C10, against the wording "well-defined only under 0 <= i < n": a
    list is built by two appends, its entry 0 is deleted, and the routine
    is called once more with the index 1, which is the count.  The slot 1
    is stale and holds the pointer of the entry that was moved to the
    slot 0, so the call releases live storage, returns, and leaves the
    empty list in a reachable state: it has removed the only entry. *)
Lemma DGG_list_delcut_stale_slot_defined :
  Storage.alloc [] sample_base = (Some 0%nat, [Some sample_base]) /\
  Storage.alloc [Some sample_base] boundary_cut =
    (Some 1%nat, [Some sample_base; Some boundary_cut]) /\
  Storage.DGG_list_addcut Storage.DGG_list_init (Some 0%nat) 1 0 =
    Ret (0%Z, Storage.mkList 1 [Some 0%nat] [1%Z] [0]) /\
  Storage.DGG_list_addcut (Storage.mkList 1 [Some 0%nat] [1%Z] [0])
    (Some 1%nat) 2 (1 # 4) =
    Ret (0%Z, Storage.mkList 2 [Some 0%nat; Some 1%nat] [1%Z; 2%Z]
                [0; 1 # 4]) /\
  Storage.DGG_list_delcut [Some sample_base; Some boundary_cut]
    (Storage.mkList 2 [Some 0%nat; Some 1%nat] [1%Z; 2%Z] [0; 1 # 4]) 0 =
    Ret ([None; Some boundary_cut],
         Storage.mkList 1 [Some 1%nat; Some 1%nat] [2%Z; 2%Z]
           [1 # 4; 1 # 4]) /\
  ~ (0 <= 1 < 1)%Z /\
  Storage.DGG_list_delcut [None; Some boundary_cut]
    (Storage.mkList 1 [Some 1%nat; Some 1%nat] [2%Z; 2%Z] [1 # 4; 1 # 4]) 1 =
    Ret ([None; None],
         Storage.mkList 0 [Some 1%nat; Some 1%nat] [2%Z; 2%Z]
           [1 # 4; 1 # 4]) /\
  Storage.store_ok [None; None]
    (Storage.mkList 0 [Some 1%nat; Some 1%nat] [2%Z; 2%Z] [1 # 4; 1 # 4]).
Proof.
  do 5 (split; [reflexivity |]). split; [lia |]. split; [reflexivity |].
  unfold Storage.store_ok. cbn.
  split; [lia |]. split; [reflexivity |]. split; [reflexivity |].
  split; [| split].
  - intros j p Hj. lia.
  - intros j k p Hj. lia.
  - intros j p _ Hp. left. unfold Storage.released.
    destruct j as [|[|j]]; cbn in Hp; [| | discriminate];
      injection Hp as <-; exists 1%nat; split; reflexivity.
Qed.

(** ** Further routines on concrete inputs *)

Lemma forallb_lookup {A : Type} (f : A -> bool) (l : list A) (j : nat)
    (v : A) :
  forallb f l = true -> l !! j = Some v -> f v = true.
Proof.
  revert j. induction l as [|a l IH]; intros [|j] H E; cbn in H, E;
    try discriminate; apply andb_prop in H as [H1 H2].
  - injection E as <-. exact H1.
  - exact (IH j H2 E).
Defined.

(** A check by evaluation that the indices in use lie below [m]. *)
Lemma indices_below_checked (c : DGG_constraint_t) (m : nat) :
  forallb (fun idx => (0 <=? idx)%Z && (idx <? Z.of_nat m)%Z)
    (take (Z.to_nat (nz c)) (index c)) = true ->
  indices_below c m.
Proof.
  intros H j idx Hj Hidx.
  assert (Ht : take (Z.to_nat (nz c)) (index c) !! j = Some idx)
    by (rewrite lookup_take_lt by lia; exact Hidx).
  pose proof (forallb_lookup _ _ _ _ H Ht) as Hb. cbn beta in Hb.
  apply andb_prop in Hb as [H1 H2].
  apply Z.leb_le in H1. apply Z.ltb_lt in H2. lia.
Defined.

Lemma sample_row_data_ok : data_ok sample_row_data.
Proof. unfold data_ok. cbn. lia. Defined.

Lemma sample_rows_ok : rows_ok sample_rows sample_row_data.
Proof.
  unfold rows_ok. cbn.
  do 4 (split; [lia |]).
  intros r Hr. destruct r as [|r]; [| lia]. cbn.
  do 4 (split; [lia |]).
  intros j Hj. destruct j as [|[|j]]; [by_evaluation | by_evaluation | exfalso; lia].
Defined.

Lemma sample_list_ok : list_ok sample_list.
Proof. unfold list_ok. cbn. auto with zarith. Defined.

(** X1 on [sample_base], scaled by -2. *)
Lemma DGG_scaleConstraint_same_solutions_witness :
  exists c',
    DGG_scaleConstraint sample_base (-2) = Ret c' /\
    rhs c' == - (7) /\ nz c' = 2%Z.
Proof.
  destruct (DGG_scaleConstraint_same_solutions sample_base (-2)
              (x sample_data))
    as (c' & lhs & lhs' & H1 & _ & _ & _ & H5 & H6 & _).
  - unfold cells_ok. cbn. lia.
  - apply sample_indices; [reflexivity | right; reflexivity].
  - exists c'. split; [exact H1 |]. split; [| exact H6].
    rewrite H5. by_evaluation.
Defined.

(** X2 on [sample_base]. *)
Lemma DGG_copyConstraint_agrees_witness :
  exists nc,
    DGG_copyConstraint (Some sample_base) = Ret (Some nc) /\
    nz nc = 2%Z /\
    DGG_cutLHS nc (x sample_data) = DGG_cutLHS sample_base (x sample_data).
Proof.
  destruct (DGG_copyConstraint_agrees sample_base (x sample_data))
    as (_ & _ & H).
  destruct H as (nc & H1 & H2 & _ & _ & _ & _ & _ & _ & _ & H10).
  - cbn. lia.
  - unfold cells_ok. cbn. lia.
  - cbn. lia.
  - exists nc. split; [exact H1 |]. split; [exact H2 |].
    apply H10. apply sample_indices; [reflexivity | right; reflexivity].
Defined.

(** X3 on [boundary_cut], whose rhs is the whole number 1. *)
Lemma DGG_isBaseTrivial_fractional_witness :
  DGG_isBaseTrivial sample_GOMORY_THRESH sample_data boundary_cut = 1%Z.
Proof.
  pose proof (DGG_isBaseTrivial_fractional sample_GOMORY_THRESH sample_data
                boundary_cut) as H.
  cbv zeta in H. destruct H as (_ & _ & _ & H). apply H.
  - by_evaluation.
  - exists 1%Z. reflexivity.
Defined.

(** X4 on [sample_base] at the point of [sample_data]. *)
Lemma DGG_cutsOffPoint_desirable_witness :
  exists off des,
    DGG_cutsOffPoint sample_NULL_SLACK (x sample_data) sample_base = Ret off /\
    DGG_isCutDesirable sample_NULL_SLACK sample_base sample_data = Ret des /\
    (off = 1%Z -> des = 1%Z).
Proof.
  destruct (DGG_cutsOffPoint_desirable sample_NULL_SLACK sample_base
              sample_data)
    as (off & des & lhs & H1 & H2 & _ & _ & H5 & _).
  - unfold cells_ok. cbn. lia.
  - apply sample_indices; [reflexivity | right; reflexivity].
  - exists off, des. split; [exact H1 |]. split; [exact H2 |].
    intros E. apply H5; [exact E | cbn; lia].
Defined.

(** X5 on [sample_list]. *)
Lemma DGG_list_addcut_appends_witness :
  exists l',
    DGG_list_addcut sample_list sample_frac 1 0 = Ret (0%Z, l') /\
    list_n l' = 3%Z /\ list_c l' !! 2%nat = Some sample_frac.
Proof.
  pose proof (DGG_list_addcut_appends sample_list sample_frac 1 0
                sample_list_ok) as H.
  cbv zeta in H. destruct H as (l' & H1 & H2 & _ & _ & _ & _ & _ & H8 & _).
  exists l'. auto.
Defined.

(** X6 on [sample_list], entry 0. *)
Lemma DGG_list_delcut_removes_one_witness :
  exists l',
    DGG_list_delcut sample_list 0 = Ret l' /\ list_n l' = 1%Z /\
    list_c l' !! 0%nat = Some boundary_cut.
Proof.
  pose proof (DGG_list_delcut_removes_one sample_list 0 sample_list_ok) as H.
  cbv zeta in H. destruct H as (l' & H1 & H2 & _ & _ & H5).
  - cbn. lia.
  - exists l'. split; [exact H1 |]. split; [exact H2 |].
    destruct (H5 0%nat) as [E _]. exact E.
Defined.

(** X7 on [sample_list]. *)
Lemma DGG_list_addcut_delcut_witness :
  exists l1 l2,
    DGG_list_addcut sample_list sample_frac 1 0 = Ret (0%Z, l1) /\
    DGG_list_delcut l1 2 = Ret l2 /\ list_n l2 = 2%Z.
Proof.
  pose proof (DGG_list_addcut_delcut sample_list sample_frac 1 0
                sample_list_ok) as H.
  cbv zeta in H. destruct H as (l1 & l2 & H1 & H2 & H3 & _).
  exists l1, l2. auto.
Defined.

(** X8 on [sample_frac] and [sample_list], with 1 as the tag. *)
Lemma DGG_addMirToList_appends_witness :
  exists cut l',
    DGG_addMirToList 1 sample_frac sample_isint sample_list = Ret (0%Z, l') /\
    list_n l' = 3%Z /\ list_c l' !! 2%nat = Some cut /\
    list_ctype l' !! 2%nat = Some 1%Z.
Proof.
  destruct (DGG_addMirToList_appends 1 sample_frac sample_isint sample_list)
    as [_ H].
  assert (Hc : cells_ok sample_frac) by (unfold cells_ok; cbn; lia).
  assert (Hi : (nz sample_frac <= Z.of_nat (length sample_isint))%Z)
    by (cbn; lia).
  pose proof (H ltac:(discriminate) ltac:(discriminate) Hc Hi sample_list_ok)
    as H'.
  cbv zeta in H'. destruct H' as (cut & l' & _ & H2 & H3 & _ & _ & H6 & H7 & _).
  exists cut, l'. auto.
Defined.

(** X9 on [sample_frac] at the point [x0 = 2], [x1 = 0]. *)
Lemma DGG_buildMir_valid_witness :
  exists cut lhs',
    DGG_buildMir sample_isint sample_frac = Ret (0%Z, Some cut) /\
    DGG_cutLHS cut [2; 0] = Ret lhs' /\ rhs cut <= lhs'.
Proof.
  apply (DGG_buildMir_valid sample_isint sample_frac [2; 0]
           (lhs_upto (coeff sample_frac) (index sample_frac) [2; 0] 2)).
  - discriminate.
  - discriminate.
  - unfold cells_ok. cbn. lia.
  - cbn. lia.
  - apply indices_below_checked. reflexivity.
  - intros j idx Hj Hidx. destruct j as [|[|j]]; cbn in Hj, Hidx; try lia;
      injection Hidx as <-; by_evaluation.
  - intros j idx Hj Hflag Hidx.
    destruct j as [|[|j]]; cbn in Hj, Hflag, Hidx; try lia;
      try discriminate.
    injection Hidx as <-. exists 2%Z. reflexivity.
  - reflexivity.
  - by_evaluation.
Defined.

(** X12 on [sample_base] in [sample_data]: the first output cell
    describes the variable 0. *)
Lemma DGG_transformConstraint_outputs_witness :
  exists o c1 xv,
    DGG_transformConstraint sample_BOUND_THRESH sample_NULL_SLACK sample_flag
      sample_data sample_base = Ret (0%Z, o, c1) /\
    x_out o !! 0%nat = Some xv /\ rc_out o !! 0%nat = Some 0 /\
    0 <= xv <= 5.
Proof.
  destruct (DGG_transformConstraint_outputs sample_BOUND_THRESH
              sample_NULL_SLACK sample_flag sample_data sample_base)
    as (o & c1 & H1 & H2).
  - exact sample_data_ok.
  - unfold cells_ok. cbn. lia.
  - cbn. lia.
  - apply sample_indices; [reflexivity | right; reflexivity].
  - destruct (H2 0%nat 0%Z) as (xv & E1 & E2 & _ & _ & E5).
    + cbn. lia.
    + reflexivity.
    + exists o, c1, xv. split; [exact H1 |]. split; [exact E1 |].
      split; [exact E2 |].
      assert (B : 0 <= xv <= (cell (ub sample_data) 0 -
                              cell (lb sample_data) 0) / 2)
        by (apply E5; by_evaluation).
      destruct B as [B1 B2]. split; [exact B1 |].
      eapply Qle_trans; [exact B2 |]. by_evaluation.
Defined.

(** X13 on [sample_noisy] at the point of [sample_data]. *)
Lemma DGG_nicefyConstraint_valid_witness :
  exists cut' lhs',
    DGG_nicefyConstraint sample_MIN_ABSVALUE sample_MIN_FIX sample_MAX_PADDING
      sample_flag sample_data sample_noisy = Ret (0%Z, cut') /\
    DGG_cutLHS cut' (x sample_data) = Ret lhs' /\
    rhs cut' <= lhs'.
Proof.
  destruct (DGG_nicefyConstraint_valid sample_MIN_ABSVALUE sample_MIN_FIX
              sample_MAX_PADDING sample_flag sample_data sample_noisy
              (x sample_data)
              (lhs_upto (coeff sample_noisy) (index sample_noisy)
                 (x sample_data) 2))
    as (cut' & lhs' & H1 & H2 & _ & H4).
  - by_evaluation.
  - exact sample_data_ok.
  - unfold cells_ok. cbn. lia.
  - apply sample_indices; [reflexivity | left; reflexivity].
  - apply sample_indices; [reflexivity | left; reflexivity].
  - discriminate.
  - intros j idx Hj Hidx. destruct j as [|[|j]]; cbn in Hj, Hidx; try lia;
      injection Hidx as <-; by_evaluation.
  - intros j a Hj Ha. right.
    destruct j as [|[|j]]; cbn in Hj, Ha; try lia;
      injection Ha as <-; by_evaluation.
  - reflexivity.
  - exists cut', lhs'. split; [exact H1 |]. split; [exact H2 |].
    apply H4. by_evaluation.
Defined.

(** X14 on [sample_frac] with the split 1/5. *)
Lemma DGG_is2stepValid_builds_witness :
  exists cut,
    DGG_build2step sample_MIN_RHO (1 # 5) sample_isint sample_frac =
      Ret (0%Z, Some cut) /\
    sense cut = "G"%char.
Proof.
  destruct (DGG_is2stepValid_builds sample_MIN_RHO sample_MIN_ALPHA (1 # 5)
              sample_isint sample_frac) as [(cut & H1 & H2 & _) _].
  - by_evaluation.
  - discriminate.
  - discriminate.
  - unfold cells_ok. cbn. lia.
  - cbn. lia.
  - exists cut. auto.
Defined.

(** X15 on the row of [sample_rows] at [sample_point], where the slack
    is [7 - 2 * 7/2 - 3 * 0]. *)
Lemma DGG_getSlackExpression_slack_witness :
  exists row lhs,
    DGG_getSlackExpression sample_above sample_rows sample_row_data 0 =
      Ret (Some row) /\
    DGG_cutLHS row sample_point = Ret lhs /\
    rhs row + lhs == 0.
Proof.
  destruct (DGG_getSlackExpression_slack sample_above sample_rows
              sample_row_data 0%nat sample_point)
    as (row & lhs & H1 & _ & _ & H4 & H5).
  - exact sample_row_data_ok.
  - exact sample_rows_ok.
  - cbn. lia.
  - cbn. lia.
  - reflexivity.
  - exists row, lhs. split; [exact H1 |]. split; [exact H4 |].
    rewrite H5. by_evaluation.
Defined.

(** X16 on [sample_rows]: the index 1 is the number of rows. *)
Lemma DGG_getSlackExpression_range_witness :
  DGG_getSlackExpression sample_above sample_rows sample_row_data 1 = Undef /\
  DGG_getSlackExpression sample_above sample_rows sample_row_data 2 = Ret None.
Proof.
  destruct (DGG_getSlackExpression_range sample_above sample_rows
              sample_row_data 1) as [_ H1].
  destruct (DGG_getSlackExpression_range sample_above sample_rows
              sample_row_data 2) as [H2 _].
  split.
  - apply H1; [reflexivity | cbn; lia | reflexivity].
  - apply H2. right. cbn. lia.
Defined.

(** X17 on the row of [sample_rows], into the cells of [sample_base]. *)
Lemma DGG_getFormulaConstraint_tight_witness :
  exists f lhs,
    DGG_getFormulaConstraint sample_above sample_equality 0 sample_rows
      sample_row_data sample_base = Ret (0%Z, f) /\
    sense f = "L"%char /\ nz f = 3%Z /\
    DGG_cutLHS f (extended_point sample_above sample_rows sample_row_data
                    sample_point) = Ret lhs /\
    lhs == 7.
Proof.
  destruct (DGG_getFormulaConstraint_tight sample_above sample_equality
              sample_rows sample_row_data 0%nat sample_base sample_point)
    as (f & lhs & H1 & _ & H3 & H4 & H5 & H6 & _).
  - exact sample_row_data_ok.
  - exact sample_rows_ok.
  - cbn. lia.
  - reflexivity.
  - cbn. lia.
  - cbn. lia.
  - destruct H6 as [H7 H8]; [reflexivity |].
    exists f, lhs. split; [exact H1 |]. split; [exact H3 |].
    split; [exact H7 |]. split; [exact H5 |].
    rewrite H8, H4. by_evaluation.
Defined.

(** X18 on [sample_unified] at [sample_point]. *)
Lemma DGG_substituteSlacks_same_slack_witness :
  exists cut' lhs lhs',
    DGG_substituteSlacks sample_above sample_MIN_TABLEAU sample_rows
      sample_row_data sample_unified = Ret (0%Z, cut') /\
    DGG_cutLHS sample_unified
      (extended_point sample_above sample_rows sample_row_data sample_point) =
      Ret lhs /\
    DGG_cutLHS cut' sample_point = Ret lhs' /\
    Qabs ((lhs' - rhs cut') - (lhs - 8)) <= 1 # 100000.
Proof.
  destruct (DGG_substituteSlacks_same_slack sample_above sample_MIN_TABLEAU
              sample_rows sample_row_data sample_unified sample_point)
    as (cut' & lhs & lhs' & H1 & _ & _ & _ & _ & _ & _ & H8 & H9 & H10).
  - by_evaluation.
  - exact sample_row_data_ok.
  - exact sample_rows_ok.
  - cbn. lia.
  - unfold cells_ok. cbn. lia.
  - apply indices_below_checked. reflexivity.
  - reflexivity.
  - exists cut', lhs, lhs'. split; [exact H1 |]. split; [exact H8 |].
    split; [exact H9 |].
    eapply Qle_trans; [exact H10 |]. by_evaluation.
Defined.

(** X19 on [sample_new_list], whose entry 1 is new. *)
Lemma restore_new_cuts_desirable_witness :
  exists l',
    restore_new_cuts sample_NULL_SLACK sample_above sample_MIN_TABLEAU
      sample_rows sample_row_data 1 sample_new_list = Ret (0%Z, l') /\
    (1 <= list_n l' <= 2)%Z /\
    list_c l' !! 0%nat = Some sample_base.
Proof.
  destruct (restore_new_cuts_desirable sample_NULL_SLACK sample_above
              sample_MIN_TABLEAU sample_rows sample_row_data 1
              sample_new_list)
    as (l' & H1 & _ & H3 & H4 & _).
  - by_evaluation.
  - exact sample_row_data_ok.
  - exact sample_rows_ok.
  - cbn. lia.
  - unfold list_ok. cbn. auto with zarith.
  - cbn. lia.
  - intros j c Hj Hc. destruct j as [|[|j]]; cbn in Hj, Hc; try lia.
    injection Hc as <-. split.
    + unfold cells_ok. cbn. lia.
    + apply indices_below_checked. reflexivity.
  - exists l'. split; [exact H1 |]. split; [exact H3 |].
    destruct (H4 0%nat) as [E _]; [lia |]. exact E.
Defined.

